(** * AdaBoost over decision stumps: a shallow embedding of [hw2_q5.py]

    The Python module trains an AdaBoost ensemble of axis-aligned threshold
    stumps with numpy.  The embedding follows the source function by
    function.

    Numbers.  numpy computes in IEEE binary64; the embedding computes in an
    exact ordered field.  The part of the program that only adds, subtracts,
    multiplies, compares and rounds up (stump evaluation, the brute-force
    search, the weighted vote) is written once over an interface [Numeric]
    and instantiated at [Q], where it runs, and at [R], where the trainer
    needs [exp] and [ln].  Rounding is not modelled.  Where rounding
    decides a discrete outcome, the statement is kept independent of it:
    the thresholds of [np.arange] are a parameter of the selector
    ([best_decision_stump_with]).

    Errors.  Python exceptions are modelled by [Raise].  numpy does not
    raise on a floating-point division by zero or on the logarithm of a
    non-positive number: it warns and continues with [inf] or [nan].  No
    real number stands for those values, so the embedding records the first
    such event as [Raise DivideByZero], [Raise LogDomain] or
    [Raise InvalidValue].

    Shapes.  [X] is an n-by-d array; [y] and [w] have length n.  The
    functions are modelled on inputs of these shapes, and theorems state
    the shape assumptions they need. *)

From Stdlib Require Import List Bool Arith ZArith QArith Qround Reals Qreals Lra Lia String.
Import ListNotations.

Set Implicit Arguments.

(** ** Results of fallible computations *)

Inductive error : Type :=
| ValueError      (* reduction of an empty array *)
| TypeError       (* an operation on None *)
| IndexError      (* an index out of bounds *)
| DivideByZero    (* x / 0 with x <> 0: numpy yields inf *)
| LogDomain       (* log of zero or of a negative number: numpy yields -inf or nan *)
| InvalidValue.   (* 0 / 0: numpy yields nan *)

Inductive result (A : Type) : Type :=
| Ok (a : A)
| Raise (e : error).

Arguments Ok {A} a.
Arguments Raise {A} e.

Definition bind {A B : Type} (m : result A) (k : A -> result B) : result B :=
  match m with
  | Ok a => k a
  | Raise e => Raise e
  end.

Declare Scope result_scope.
Delimit Scope result_scope with result.
Notation "x <- m ;; k" := (bind m (fun x => k))
  (at level 61, m at next level, right associativity) : result_scope.
Notation "' pat <- m ;; k" := (bind m (fun x => match x with pat => k end))
  (at level 61, pat pattern, m at next level, right associativity) : result_scope.
Open Scope result_scope.

Definition map_result {A B : Type} (f : A -> B) (m : result A) : result B :=
  match m with
  | Ok a => Ok (f a)
  | Raise e => Raise e
  end.

(** A [for] loop whose body may raise. *)
Fixpoint for_each {S I : Type} (body : S -> I -> result S) (items : list I) (s : S)
  : result S :=
  match items with
  | [] => Ok s
  | i :: rest => s' <- body s i ;; for_each body rest s'
  end.

(** An elementwise operation that may fail on an element. *)
Fixpoint traverse {A B : Type} (f : A -> result B) (l : list A) : result (list B) :=
  match l with
  | [] => Ok []
  | a :: rest => b <- f a ;; bs <- traverse f rest ;; Ok (b :: bs)
  end.

(** ** The numeric interface *)

Class Numeric : Type := {
  num : Type;
  of_Q : Q -> num;
  add : num -> num -> num;
  sub : num -> num -> num;
  mul : num -> num -> num;
  div : num -> num -> num;
  ltb : num -> num -> bool;
  eqb : num -> num -> bool;
  ceil : num -> Z
}.

#[export] Instance Q_numeric : Numeric := {|
  num := Q;
  of_Q := fun q => q;
  add := Qplus;
  sub := Qminus;
  mul := Qmult;
  div := Qdiv;
  ltb := fun a b => negb (Qle_bool b a);
  eqb := Qeq_bool;
  ceil := Qceiling
|}.

Definition Rltb (a b : R) : bool := if Rlt_dec a b then true else false.
Definition Reqb (a b : R) : bool := if Req_dec_T a b then true else false.

#[export] Instance R_numeric : Numeric := {|
  num := R;
  of_Q := Q2R;
  add := Rplus;
  sub := Rminus;
  mul := Rmult;
  div := Rdiv;
  ltb := Rltb;
  eqb := Reqb;
  ceil := Zceil
|}.

Canonical Structure Q_numeric.
Canonical Structure R_numeric.

Section Arrays.
Context {N : Numeric}.

Definition zero : num := of_Q 0.
Definition one : num := of_Q 1.
Definition minus_one : num := of_Q (-1).
Definition of_nat (n : nat) : num := of_Q (inject_Z (Z.of_nat n)).
Definition of_bool (b : bool) : num := if b then one else zero.

(** A two-dimensional array: [ncols] is [d] of [X.shape], the number of
    rows is [n]. *)
Record ndarray : Type := { ncols : nat; rows : list (list num) }.

Definition nrows (X : ndarray) : nat := List.length (rows X).

Definition well_shaped (X : ndarray) : Prop :=
  Forall (fun r => List.length r = ncols X) (rows X).

(** [X[:, feature]] *)
Definition column (X : ndarray) (feature : nat) : result (list num) :=
  if (feature <? ncols X)%nat
  then Ok (map (fun r => nth feature r zero) (rows X))
  else Raise IndexError.

Definition maximum (a b : num) : num := if ltb a b then b else a.
Definition minimum (a b : num) : num := if ltb b a then b else a.

(** [np.max], [np.min]: no identity on an empty array. *)
Definition np_max (l : list num) : result num :=
  match l with
  | [] => Raise ValueError
  | x :: rest => Ok (fold_left maximum rest x)
  end.

Definition np_min (l : list num) : result num :=
  match l with
  | [] => Raise ValueError
  | x :: rest => Ok (fold_left minimum rest x)
  end.

(** [np.sum] *)
Definition np_sum (l : list num) : num := fold_left add l zero.

(** [np.sign] *)
Definition sign (x : num) : num :=
  if ltb x zero then minus_one else if ltb zero x then one else zero.

(** [np.arange(start, stop, step)]: [ceil((stop - start) / step)] values
    [start + i * step]. *)
Definition arange (start stop step : num) : list num :=
  let len := Z.to_nat (ceil (div (sub stop start) step)) in
  map (fun i => add start (mul (of_nat i) step)) (seq 0 len).

Fixpoint zip_with {A B C : Type} (f : A -> B -> C) (l : list A) (l' : list B) : list C :=
  match l, l' with
  | a :: t, b :: t' => f a b :: zip_with f t t'
  | _, _ => []
  end.

(** [np.not_equal(a, b)], [a != b] *)
Definition not_equal (a b : list num) : list bool :=
  zip_with (fun x y => negb (eqb x y)) a b.

(** [np.where(col < threshold, 1, -1)] and [np.where(col > threshold, 1, -1)] *)
Definition where_lt (col : list num) (threshold : num) : list num :=
  map (fun x => if ltb x threshold then one else minus_one) col.

Definition where_gt (col : list num) (threshold : num) : list num :=
  map (fun x => if ltb threshold x then one else minus_one) col.

(** ** Stump evaluator *)

Definition stump_classification_result
    (feature : nat) (threshold : num) (compare : string) (X : ndarray)
  : result (list num) :=
  if String.eqb compare ">"
  then col <- column X feature ;; Ok (map (fun x => sign (sub x threshold)) col)
  else col <- column X feature ;; Ok (map (fun x => sign (sub threshold x)) col).

(** ** Stump selector *)

Record search : Type := {
  best_error : num;
  best_feature : option nat;
  best_threshold : option num;
  best_operator : option string
}.

(** [w.T @ b] for a boolean vector [b], and [np.sum(w * b)], on vectors of
    one length.  On other shapes numpy raises ValueError or broadcasts;
    that is not modelled, and [zip_with] stops at the shorter list. *)
Definition weighted_count (w : list num) (b : list bool) : num :=
  np_sum (zip_with (fun wi bi => mul wi (of_bool bi)) w b).

(** The body of the innermost loop. *)
Definition try_compare (w : list num) (X : ndarray) (y : list num)
    (feature : nat) (threshold : num) (s : search) (compare : string)
  : result search :=
  t <- stump_classification_result feature threshold compare X ;;
  let err := weighted_count w (not_equal t y) in
  if ltb err (best_error s)
  then Ok {| best_error := err;
             best_feature := Some feature;
             best_threshold := Some threshold;
             best_operator := Some compare |}
  else Ok s.

Definition try_threshold (w : list num) (X : ndarray) (y : list num)
    (feature : nat) (s : search) (threshold : num) : result search :=
  for_each (try_compare w X y feature threshold) [">"%string; "<"%string] s.

(** [np.max(X[:, feature])] and [np.min(X[:, feature])] *)
Definition column_max (X : ndarray) (feature : nat) : result num :=
  col <- column X feature ;; np_max col.

Definition column_min (X : ndarray) (feature : nat) : result num :=
  col <- column X feature ;; np_min col.

(** The thresholds swept for a feature: lines 41 to 43. *)
Definition sweep (X : ndarray) (feature : nat) : result (list num) :=
  mx <- column_max X feature ;;
  let upper_bound := sub mx (of_Q (5 # 1000)) in
  mn <- column_min X feature ;;
  let lower_bound := add mn (of_Q (5 # 1000)) in
  Ok (arange lower_bound upper_bound (of_Q (1 # 100))).

Definition try_feature (w : list num) (X : ndarray) (y : list num)
    (s : search) (feature : nat) : result search :=
  thresholds <- sweep X feature ;;
  for_each (try_threshold w X y feature) thresholds s.

Definition best_decision_stump (w : list num) (X : ndarray) (y : list num)
  : result (option nat * option num * option string) :=
  let n := nrows X in
  let d := ncols X in
  s <- for_each (try_feature w X y) (seq 0 d)
         {| best_error := of_nat n;
            best_feature := None;
            best_threshold := None;
            best_operator := None |} ;;
  Ok (best_feature s, best_threshold s, best_operator s).

(** ** The prediction computed inline by the trainer and the predictor *)

Definition inline_predictions (X : ndarray) (feature : nat) (threshold : num)
    (operator : string) : result (list num) :=
  if String.eqb operator "<"
  then col <- column X feature ;; Ok (where_lt col threshold)
  else col <- column X feature ;; Ok (where_gt col threshold).

(** ** The search grid, in the order the loops enumerate it *)

Definition stump : Type := (nat * num * string)%type.

Definition directions (feature : nat) (threshold : num) : list stump :=
  [(feature, threshold, ">"%string); (feature, threshold, "<"%string)].

Fixpoint grid_of (X : ndarray) (features : list nat) : result (list stump) :=
  match features with
  | [] => Ok []
  | feature :: rest =>
      thresholds <- sweep X feature ;;
      g <- grid_of X rest ;;
      Ok (flat_map (directions feature) thresholds ++ g)
  end.

Definition grid (X : ndarray) : result (list stump) :=
  grid_of X (seq 0 (ncols X)).

(** The weighted error of a candidate: lines 45 and 46. *)
Definition stump_error (w : list num) (X : ndarray) (y : list num) (c : stump)
  : result num :=
  let '(feature, threshold, compare) := c in
  t <- stump_classification_result feature threshold compare X ;;
  Ok (weighted_count w (not_equal t y)).

(** ** Ensemble predictor *)

(** [zip(functions, alpha)] stops at the shorter of the two. *)
Definition vote_step (X : ndarray) (out : list num) (fa : stump * num)
  : result (list num) :=
  let '((feature, threshold, operator), a) := fa in
  p <- inline_predictions X feature threshold operator ;;
  Ok (zip_with add out (map (fun pi => mul pi a) p)).

(** The accumulator [out] of [classify] and of [loss] after the loop. *)
Definition vote (functions : list stump) (alpha : list num) (X : ndarray)
  : result (list num) :=
  for_each (vote_step X) (combine functions alpha) (repeat one (nrows X)).

Definition classify (functions : list stump) (alpha : list num) (X : ndarray)
  : result (list num) :=
  out <- vote functions alpha X ;;
  Ok (where_gt out zero).

(** The weighted vote in the words of the specification:
    F(x) = sum over (stump, alpha) in the ensemble of alpha * stump(x), where
    stump(x) is the stump's {-1, +1} prediction.  It is the loop of
    [classify] with the accumulator started at 0. *)
Definition spec_weighted_vote (functions : list stump) (alpha : list num) (X : ndarray)
  : result (list num) :=
  for_each (vote_step X) (combine functions alpha) (repeat zero (nrows X)).

End Arrays.

(** ** The selector over the thresholds [np.arange] returns

    [np.arange] computes the number of its values and the values
    themselves in binary64, so which thresholds a feature's sweep holds
    depends on rounding: the exact [arange] can hold one threshold less or
    more than the sweep of the program.  The loops of the selector are
    therefore also given over an arbitrary function [np_arange] in the
    place of [np.arange]; [best_decision_stump] and [grid] are
    [best_decision_stump_with arange] and [grid_with arange]. *)

Section Thresholds.
Context {N : Numeric}.
Variable np_arange : num -> num -> num -> list num.

Definition sweep_with (X : ndarray) (feature : nat) : result (list num) :=
  mx <- column_max X feature ;;
  let upper_bound := sub mx (of_Q (5 # 1000)) in
  mn <- column_min X feature ;;
  let lower_bound := add mn (of_Q (5 # 1000)) in
  Ok (np_arange lower_bound upper_bound (of_Q (1 # 100))).

Definition try_feature_with (w : list num) (X : ndarray) (y : list num)
    (s : search) (feature : nat) : result search :=
  thresholds <- sweep_with X feature ;;
  for_each (try_threshold w X y feature) thresholds s.

Definition best_decision_stump_with (w : list num) (X : ndarray) (y : list num)
  : result (option nat * option num * option string) :=
  let n := nrows X in
  let d := ncols X in
  s <- for_each (try_feature_with w X y) (seq 0 d)
         {| best_error := of_nat n;
            best_feature := None;
            best_threshold := None;
            best_operator := None |} ;;
  Ok (best_feature s, best_threshold s, best_operator s).

Fixpoint grid_of_with (X : ndarray) (features : list nat) : result (list stump) :=
  match features with
  | [] => Ok []
  | feature :: rest =>
      thresholds <- sweep_with X feature ;;
      g <- grid_of_with X rest ;;
      Ok (flat_map (directions feature) thresholds ++ g)
  end.

Definition grid_with (X : ndarray) : result (list stump) :=
  grid_of_with X (seq 0 (ncols X)).

End Thresholds.

(** ** Boosting trainer (over the reals) *)

Open Scope R_scope.

Definition safe_div (a b : R) : result R :=
  if Req_dec_T b 0
  then (if Req_dec_T a 0 then Raise InvalidValue else Raise DivideByZero)
  else Ok (a / b).

(** [np.log] *)
Definition safe_log (x : R) : result R :=
  if Rlt_dec 0 x then Ok (ln x) else Raise LogDomain.

(** The loop state of [adaboost]: the example weights [w], the array
    [alpha] and the list [functions]. *)
Record boost_state : Type := {
  weights : list R;
  alphas : list R;
  functions_of : list (@stump R_numeric)
}.

(** [a[i] = v] *)
Fixpoint assign (a : list R) (i : nat) (v : R) : result (list R) :=
  match a, i with
  | [] , _ => Raise IndexError
  | _ :: rest, O => Ok (v :: rest)
  | x :: rest, S j => r <- assign rest j v ;; Ok (x :: r)
  end.

(** [np.sum(w * (labels != predictions))] *)
Definition weighted_error (w labels predictions : list R) : R :=
  weighted_count w (not_equal labels predictions).

(** [w * np.exp(-1 * labels * alpha_i * predictions)] *)
Fixpoint reweight (w labels : list R) (alpha_i : R) (predictions : list R) : list R :=
  match w, labels, predictions with
  | wi :: w', yi :: labels', pi :: predictions' =>
      wi * exp (-1 * yi * alpha_i * pi) :: reweight w' labels' alpha_i predictions'
  | _, _, _ => []
  end.

(** [w / np.sum(w)] *)
Definition normalize (w : list R) : result (list R) :=
  let s := np_sum w in
  traverse (fun wi => safe_div wi s) w.

(** One iteration of the training loop.  The [print] of the chosen stump
    is output only and is left out. *)
Definition boost_round (X : @ndarray R_numeric) (labels : list R)
    (st : boost_state) (i : nat) : result boost_state :=
  '(feature, threshold, operator) <- best_decision_stump (weights st) X labels ;;
  match feature, threshold, operator with
  | Some feature, Some threshold, Some operator =>
      let functions := functions_of st ++ [(feature, threshold, operator)] in
      predictions <- inline_predictions X feature threshold operator ;;
      let em := weighted_error (weights st) labels predictions in
      q <- safe_div (1 - em) em ;;
      l <- safe_log q ;;
      alpha <- assign (alphas st) i (0.5 * l) ;;
      let alpha_i := 0.5 * l in
      let w := reweight (weights st) labels alpha_i predictions in
      w <- normalize w ;;
      Ok {| weights := w; alphas := alpha; functions_of := functions |}
  | _, _, _ =>
      (* the selector returned (None, None, None): [X[:, None] > None] *)
      Raise TypeError
  end.

Definition initial_state (X : @ndarray R_numeric) (num_iterations : nat) : boost_state :=
  {| weights := map (fun o => o / INR (nrows X)) (repeat 1 (nrows X));
     alphas := repeat 0 num_iterations;
     functions_of := [] |}.

(** The state after the first [k] iterations of a run of [num_iterations]. *)
Definition adaboost_state (X : @ndarray R_numeric) (labels : list R)
    (num_iterations k : nat) : result boost_state :=
  for_each (boost_round X labels) (seq 0 k) (initial_state X num_iterations).

Definition adaboost (X : @ndarray R_numeric) (labels : list R) (num_iterations : nat)
  : result (list (@stump R_numeric) * list R) :=
  st <- adaboost_state X labels num_iterations num_iterations ;;
  Ok (functions_of st, alphas st).

(** [loss] prints the vector [np.exp(-1 * y * out)] and returns [None];
    the embedding returns the printed vector.  [y] has the length of
    [out]; on other shapes numpy raises ValueError or broadcasts, which is
    not modelled. *)
Definition loss (functions : list (@stump R_numeric)) (alpha : list R)
    (X : @ndarray R_numeric) (y : list R) : result (list R) :=
  out <- vote functions alpha X ;;
  Ok (zip_with (fun yi oi => exp (-1 * yi * oi)) y out).

(** ** The data set of the module's [__main__] *)

Definition hw_rows : list (list Q) :=
  [ [30 # 100; 15 # 100];
    [10 # 100; 15 # 100];
    [12 # 100; 17 # 100];
    [30 # 100; 17 # 100];
    [20 # 100; 18 # 100];
    [22 # 100; 19 # 100];
    [45 # 100; 20 # 100] ]%Q.

Definition hw_X_Q : @ndarray Q_numeric := {| ncols := 2; rows := hw_rows |}.
Definition hw_y_Q : list Q := [1; 1; 1; -1; 1; -1; -1]%Q.
Definition uniform7 : list Q := repeat (1 # 7)%Q 7.

Definition hw_X : @ndarray R_numeric :=
  {| ncols := 2;
     rows := [ [0.30; 0.15];
               [0.10; 0.15];
               [0.12; 0.17];
               [0.30; 0.17];
               [0.20; 0.18];
               [0.22; 0.19];
               [0.45; 0.20] ] |}.

Definition hw_y : list R := [1; 1; 1; -1; 1; -1; -1].

(** What the run on this data set produces (lemma [hw_adaboost]). *)
Definition hw_functions : list (@stump R_numeric) :=
  [ (0%nat, 0.205, "<"%string); (1%nat, 0.185, "<"%string); (1%nat, 0.155, "<"%string) ].

Definition hw_alpha : list R := [0.5 * ln 6; 0.5 * ln 11; 0.5 * ln 10].

Definition hw_weights_1 : list Q := [1#2; 1#12; 1#12; 1#12; 1#12; 1#12; 1#12]%Q.
Definition hw_weights_2 : list Q := [3#11; 1#22; 1#22; 1#2; 1#22; 1#22; 1#22]%Q.
Definition hw_weights_3 : list Q := [3#20; 1#40; 1#4; 11#40; 1#4; 1#40; 1#40]%Q.

Definition hw_state_1 : boost_state :=
  {| weights := map Q2R hw_weights_1;
     alphas := [0.5 * ln 6; 0; 0];
     functions_of := firstn 1 hw_functions |}.

Definition hw_state_2 : boost_state :=
  {| weights := map Q2R hw_weights_2;
     alphas := [0.5 * ln 6; 0.5 * ln 11; 0];
     functions_of := firstn 2 hw_functions |}.

Definition hw_state_3 : boost_state :=
  {| weights := map Q2R hw_weights_3;
     alphas := hw_alpha;
     functions_of := hw_functions |}.

(** ** Small data sets *)

(** Two examples on one feature, 0.016 apart: the sweep is the single
    threshold 0.005. *)
Definition two_X_Q : @ndarray Q_numeric := {| ncols := 1; rows := [[0]; [16 # 1000]]%Q |}.
Definition two_X : @ndarray R_numeric := {| ncols := 1; rows := [[0]; [0.016]] |}.

(** Labels the threshold separates, and labels it cannot separate. *)
Definition separable_y : list R := [-1; 1].
Definition constant_y : list R := [1; 1].

(** Two examples 0.005 apart: the sweep is empty. *)
Definition narrow_X : @ndarray R_numeric := {| ncols := 1; rows := [[0.30]; [0.305]] |}.

(** One example, and an ensemble of one stump. *)
Definition one_X : @ndarray R_numeric := {| ncols := 1; rows := [[0]] |}.
Definition one_stump : list (@stump R_numeric) := [(0%nat, 0.5, ">"%string)].

(** ** Auxiliary definitions used by the proofs *)

(** The image of rational data in the reals. *)
Definition inj_array (X : @ndarray Q_numeric) : @ndarray R_numeric :=
  {| ncols := ncols X; rows := map (map Q2R) (rows X) |}.

Definition inj_search (s : @search Q_numeric) : @search R_numeric :=
  {| best_error := Q2R (best_error s);
     best_feature := best_feature s;
     best_threshold := option_map Q2R (best_threshold s);
     best_operator := best_operator s |}.

Definition inj_triple (t : option nat * option Q * option string)
  : option nat * option R * option string :=
  let '(f, th, op) := t in (f, option_map Q2R th, op).

(** What one candidate with weighted error [e] does to the search state:
    the conditional of lines 47 to 51. *)
Definition pick (s : @search R_numeric) (ce : @stump R_numeric * R) : @search R_numeric :=
  let '((feature, threshold, compare), e) := ce in
  if Rltb e (best_error s)
  then {| best_error := e;
          best_feature := Some feature;
          best_threshold := Some threshold;
          best_operator := Some compare |}
  else s.

(** One candidate of the grid, as the innermost loop body treats it. *)
Definition consider (w : list R) (X : @ndarray R_numeric) (y : list R)
    (s : @search R_numeric) (c : @stump R_numeric) : result search :=
  e <- stump_error w X y c ;; Ok (pick s (c, e)).

(** Position [k] holds the first minimum of [es]: no entry is smaller and
    every earlier entry is strictly larger. *)
Definition first_minimum (es : list R) (k : nat) : Prop :=
  exists e, nth_error es k = Some e
    /\ (forall j e', nth_error es j = Some e' -> e <= e')
    /\ (forall j e', (j < k)%nat -> nth_error es j = Some e' -> e < e').

(** The weights a round with weighted error [em] leaves on labels and
    predictions in {-1, +1}: an example the stump gets right keeps
    [w / (2 (1 - em))], one it gets wrong [w / (2 em)].  This is what
    lines 86 and 87 compute (lemma [reweight_closed_form]). *)
Fixpoint closed_form {N : Numeric} (w labels predictions : list num) (em : num)
  : list num :=
  match w, labels, predictions with
  | wi :: w', yi :: labels', pi :: predictions' =>
      (if eqb yi pi
       then div wi (mul (of_Q 2) (sub one em))
       else div wi (mul (of_Q 2) em))
      :: closed_form w' labels' predictions' em
  | _, _, _ => []
  end.

Definition inj_stump (c : @stump Q_numeric) : @stump R_numeric :=
  let '(f, t, op) := c in (f, Q2R t, op).

(** Entrywise equality of rational lists, as fractions. *)
Fixpoint Qlist_eqb (l l' : list Q) : bool :=
  match l, l' with
  | [], [] => true
  | x :: t, x' :: t' => Qeq_bool x x' && Qlist_eqb t t'
  | _, _ => false
  end.

(** A value in {-1, +1}. *)
Definition pm_one_Q (x : Q) : bool := Qeq_bool x 1 || Qeq_bool x (-1).

(** The selector on rational data returns the stump [(f, t, op)], up to
    equality of fractions. *)
Definition stump_check (Xq : @ndarray Q_numeric) (wq yq : list Q)
    (f : nat) (t : Q) (op : string) : bool :=
  match best_decision_stump wq Xq yq with
  | Ok (Some f0, Some t0, Some op0) => Nat.eqb f0 f && Qeq_bool t0 t && String.eqb op0 op
  | _ => false
  end.

(** A round on rational data selects [(f, t, op)], has a weighted error
    strictly between 0 and 1 with odds [(1 - em) / em = odds], and leaves
    the weights [w']. *)
Definition round_check (Xq : @ndarray Q_numeric) (wq yq : list Q)
    (f : nat) (t : Q) (op : string) (w' : list Q) (odds : Q) : bool :=
  stump_check Xq wq yq f t op
  && match inline_predictions Xq f t op with
     | Ok pq =>
         let emq := weighted_count wq (not_equal yq pq) in
         negb (Qle_bool emq 0) && negb (Qle_bool 1 emq)
         && Qeq_bool (np_sum wq) 1
         && Nat.eqb (List.length yq) (List.length wq)
         && Nat.eqb (List.length pq) (List.length wq)
         && forallb pm_one_Q yq
         && Qlist_eqb (closed_form wq yq pq emq) w'
         && Qeq_bool ((1 - emq) / emq) odds
     | Raise _ => false
     end.

(** A round on rational data selects a stump whose weighted error is 0. *)
Definition zero_error_check (Xq : @ndarray Q_numeric) (wq yq : list Q) : bool :=
  match best_decision_stump wq Xq yq with
  | Ok (Some f, Some t, Some op) =>
      match inline_predictions Xq f t op with
      | Ok pq => Qeq_bool (weighted_count wq (not_equal yq pq)) 0
      | Raise _ => false
      end
  | _ => false
  end.

Definition pm_one (x : R) : Prop := x = 1 \/ x = -1.

(** [np.where] never emits the 0 that [np.sign] gives on the threshold:
    an abstaining 0 read as -1. *)
Definition clamp (s : R) : R := if Reqb s 0 then -1 else s.

(** The total confidence of the stumps that [zip] pairs with an alpha. *)
Definition total_confidence (fas : list (@stump R_numeric * R)) : R :=
  fold_right (fun fa acc => Rabs (snd fa) + acc) 0 fas.

(** The stump of a pair of [zip(functions, alpha)] refers to a feature of
    the data. *)
Definition feature_in_data (X : @ndarray R_numeric) (fa : @stump R_numeric * R) : Prop :=
  (fst (fst (fst fa)) < ncols X)%nat.

(** The state of a run with [pad] more slots in [alpha]. *)
Definition padded (st : boost_state) (pad : list R) : boost_state :=
  {| weights := weights st; alphas := alphas st ++ pad; functions_of := functions_of st |}.

(** ** Basic facts about the real instance *)

(** Equations at type [num] of the real instance, read as equations at [R]. *)
Ltac as_real := change (@num R_numeric) with R in *.

(** Two lists of reals with the same entries. *)
Ltac list_of_reals := repeat (apply (f_equal2 cons); [lra|]); reflexivity.

Lemma Rltb_true (a b : R) : Rltb a b = true <-> a < b.
Proof. unfold Rltb. destruct (Rlt_dec a b); split; intros; try easy; lra. Qed.

Lemma Rltb_false (a b : R) : Rltb a b = false <-> b <= a.
Proof. unfold Rltb. destruct (Rlt_dec a b); split; intros; try easy; lra. Qed.

Lemma Reqb_true (a b : R) : Reqb a b = true <-> a = b.
Proof. unfold Reqb. destruct (Req_dec_T a b); split; intros; try easy. Qed.

Lemma Reqb_false (a b : R) : Reqb a b = false <-> a <> b.
Proof. unfold Reqb. destruct (Req_dec_T a b); split; intros; try easy. Qed.

Lemma R_zero : @zero R_numeric = 0.
Proof. unfold zero; cbn; unfold Q2R; simpl; lra. Qed.

Lemma R_one : @one R_numeric = 1.
Proof. unfold one; cbn; unfold Q2R; simpl; lra. Qed.

Lemma R_minus_one : @minus_one R_numeric = -1.
Proof. unfold minus_one; cbn; unfold Q2R; simpl; lra. Qed.


(** [np.sign] on the reals. *)
Lemma sign_pos (x : R) : 0 < x -> sign x = 1.
Proof.
  intros H. unfold sign. rewrite R_zero, R_one. cbn.
  rewrite (proj2 (Rltb_false x 0)) by lra.
  now rewrite (proj2 (Rltb_true 0 x) H).
Qed.

Lemma sign_neg (x : R) : x < 0 -> sign x = -1.
Proof.
  intros H. unfold sign. rewrite R_zero, R_minus_one. cbn.
  now rewrite (proj2 (Rltb_true x 0) H).
Qed.

Lemma sign_zero : sign 0 = 0.
Proof.
  unfold sign. rewrite R_zero. cbn.
  now rewrite (proj2 (Rltb_false 0 0)) by lra.
Qed.

(** An empty sweep: [np.arange] yields nothing when [stop <= start]. *)
Lemma arange_empty (start stop : R) :
  stop <= start -> arange start stop 0.01 = [].
Proof.
  intros H. unfold arange. cbn.
  assert (Hc : (Zceil ((stop - start) / 0.01) <= 0)%Z).
  { apply Z.le_trans with (Zceil 0).
    2:{ rewrite (Zceil_eq 0 0); [lia | simpl; lra]. }
    apply Zceil_le.
    apply Rmult_le_reg_r with 0.01; [lra|].
    unfold Rdiv. rewrite Rmult_assoc, Rinv_l by lra. lra. }
  destruct (Zceil ((stop - start) / 0.01)); try lia; reflexivity.
Qed.

(** * Stump evaluator and inline prediction *)

(** C9.  For a direction in {">", "<"} and a threshold that no example's
    value at the feature equals, the prediction computed inline by the
    trainer and the predictor is the label vector of
    [stump_classification_result]. *)
Theorem inline_predictions_agree
    (X : @ndarray R_numeric) (feature : nat) (threshold : R) (compare : string) :
  (compare = ">" \/ compare = "<")%string ->
  (forall col, column X feature = Ok col -> ~ In threshold col) ->
  inline_predictions X feature threshold compare
  = stump_classification_result feature threshold compare X.
Proof.
  intros Hc Hoff.
  unfold inline_predictions, stump_classification_result.
  destruct (column X feature) as [col|e] eqn:Ecol.
  2:{ destruct Hc; subst; reflexivity. }
  specialize (Hoff col eq_refl).
  assert (Hgt : where_gt col threshold = map (fun x => sign (sub x threshold)) col).
  { unfold where_gt. apply map_ext_in. intros x Hx. cbn.
    assert (x <> threshold) by (intros ->; auto).
    destruct (Rlt_dec threshold x) as [Hlt|Hge].
    - rewrite (proj2 (Rltb_true _ _) Hlt), sign_pos by lra. apply R_one.
    - rewrite (proj2 (Rltb_false threshold x)), sign_neg by lra. apply R_minus_one. }
  assert (Hlt : where_lt col threshold = map (fun x => sign (sub threshold x)) col).
  { unfold where_lt. apply map_ext_in. intros x Hx. cbn.
    assert (x <> threshold) by (intros ->; auto).
    destruct (Rlt_dec x threshold) as [Hlt|Hge].
    - rewrite (proj2 (Rltb_true _ _) Hlt), sign_pos by lra. apply R_one.
    - rewrite (proj2 (Rltb_false x threshold)), sign_neg by lra. apply R_minus_one. }
  destruct Hc; subst; simpl String.eqb; cbv iota; unfold bind.
  - now rewrite Hgt.
  - now rewrite Hlt.
Qed.

(** * Running the real instance through the rational one

    On rational inputs the real instance computes the image of what the
    rational instance computes.  This lets a concrete run over the reals be
    settled by evaluation over [Q]. *)

Lemma Q2R_inject_Z (z : Z) : Q2R (inject_Z z) = IZR z.
Proof. unfold Q2R; simpl. lra. Qed.

Lemma inj_ltb (a b : Q) : Rltb (Q2R a) (Q2R b) = negb (Qle_bool b a).
Proof.
  destruct (Qle_bool b a) eqn:E; simpl.
  - apply Rltb_false. apply Qle_Rle. now apply Qle_bool_iff.
  - apply Rltb_true. apply Qlt_Rlt. apply Qnot_le_lt. intros H.
    apply Qle_bool_iff in H. congruence.
Qed.

Lemma inj_eqb (a b : Q) : Reqb (Q2R a) (Q2R b) = Qeq_bool a b.
Proof.
  destruct (Qeq_bool a b) eqn:E.
  - apply Reqb_true. apply Qeq_eqR. now apply Qeq_bool_iff.
  - apply Reqb_false. intros H. apply eqR_Qeq in H. apply Qeq_bool_iff in H. congruence.
Qed.

Lemma inj_ceil (a : Q) : Zceil (Q2R a) = Qceiling a.
Proof.
  apply Zceil_eq. split.
  - rewrite <- minus_IZR, <- Q2R_inject_Z. apply Qlt_Rlt, Qceiling_lt.
  - rewrite <- Q2R_inject_Z. apply Qle_Rle, Qle_ceiling.
Qed.

Lemma inj_column (X : @ndarray Q_numeric) (feature : nat) :
  column (inj_array X) feature = map_result (map Q2R) (column X feature).
Proof.
  unfold column; simpl. destruct (feature <? ncols X)%nat; simpl; [|reflexivity].
  f_equal. rewrite !map_map. apply map_ext. intros r.
  change (@zero R_numeric) with (Q2R (@zero Q_numeric)). apply map_nth.
Qed.

Lemma inj_maximum (a b : Q) : maximum (Q2R a) (Q2R b) = Q2R (maximum a b).
Proof. unfold maximum; cbn. rewrite inj_ltb. now destruct (Qle_bool b a). Qed.

Lemma inj_minimum (a b : Q) : minimum (Q2R a) (Q2R b) = Q2R (minimum a b).
Proof. unfold minimum; cbn. rewrite inj_ltb. now destruct (Qle_bool a b). Qed.

Lemma inj_fold_left (f : R -> R -> R) (g : Q -> Q -> Q) :
  (forall a b, f (Q2R a) (Q2R b) = Q2R (g a b)) ->
  forall l a, fold_left f (map Q2R l) (Q2R a) = Q2R (fold_left g l a).
Proof.
  intros H l. induction l as [|x l IH]; intros a; simpl; [reflexivity|].
  now rewrite H, IH.
Qed.

Lemma inj_np_max (l : list Q) : np_max (map Q2R l) = map_result Q2R (np_max l).
Proof.
  destruct l as [|x l]; simpl; [reflexivity|].
  f_equal. apply inj_fold_left, inj_maximum.
Qed.

Lemma inj_np_min (l : list Q) : np_min (map Q2R l) = map_result Q2R (np_min l).
Proof.
  destruct l as [|x l]; simpl; [reflexivity|].
  f_equal. apply inj_fold_left, inj_minimum.
Qed.

Lemma inj_np_sum (l : list Q) : np_sum (map Q2R l) = Q2R (np_sum l).
Proof.
  unfold np_sum. change (@zero R_numeric) with (Q2R (@zero Q_numeric)).
  apply inj_fold_left. intros a b. cbn. now rewrite Q2R_plus.
Qed.

Lemma inj_sign (x : Q) : sign (Q2R x) = Q2R (sign x).
Proof.
  unfold sign.
  change (@zero R_numeric) with (Q2R (@zero Q_numeric)).
  change (@one R_numeric) with (Q2R (@one Q_numeric)).
  change (@minus_one R_numeric) with (Q2R (@minus_one Q_numeric)).
  cbn. rewrite !inj_ltb.
  now destruct (Qle_bool _ x), (Qle_bool x _).
Qed.

Lemma inj_arange (start stop step : Q) :
  ~ (step == 0)%Q ->
  arange (Q2R start) (Q2R stop) (Q2R step) = map Q2R (arange start stop step).
Proof.
  intros Hs. unfold arange. cbn.
  rewrite <- Q2R_minus, <- Q2R_div, inj_ceil by assumption.
  rewrite map_map. apply map_ext. intros i.
  unfold of_nat. cbn. now rewrite Q2R_plus, Q2R_mult.
Qed.

Lemma inj_zip_with {A B C A' B' C' : Type}
    (f : A -> B -> C) (f' : A' -> B' -> C') (ia : A -> A') (ib : B -> B') (ic : C -> C') :
  (forall a b, f' (ia a) (ib b) = ic (f a b)) ->
  forall l l', zip_with f' (map ia l) (map ib l') = map ic (zip_with f l l').
Proof.
  intros H l. induction l as [|a l IH]; intros [|b l']; simpl; try reflexivity.
  now rewrite H, IH.
Qed.

Lemma inj_not_equal (a b : list Q) :
  not_equal (map Q2R a) (map Q2R b) = not_equal a b.
Proof.
  unfold not_equal.
  rewrite (inj_zip_with (fun x y => negb (Qeq_bool x y)) _ Q2R Q2R (fun c : bool => c)).
  - now rewrite map_id.
  - intros x y. cbn. now rewrite inj_eqb.
Qed.

Lemma inj_where_lt (col : list Q) (threshold : Q) :
  where_lt (map Q2R col) (Q2R threshold) = map Q2R (where_lt col threshold).
Proof.
  unfold where_lt. rewrite !map_map. apply map_ext. intros x. cbn.
  rewrite inj_ltb. now destruct (Qle_bool threshold x).
Qed.

Lemma inj_where_gt (col : list Q) (threshold : Q) :
  where_gt (map Q2R col) (Q2R threshold) = map Q2R (where_gt col threshold).
Proof.
  unfold where_gt. rewrite !map_map. apply map_ext. intros x. cbn.
  rewrite inj_ltb. now destruct (Qle_bool x threshold).
Qed.

Lemma inj_stump_classification_result
    (feature : nat) (threshold : Q) (compare : string) (X : @ndarray Q_numeric) :
  stump_classification_result feature (Q2R threshold) compare (inj_array X)
  = map_result (map Q2R) (stump_classification_result feature threshold compare X).
Proof.
  unfold stump_classification_result. rewrite inj_column.
  destruct (String.eqb compare ">"); destruct (column X feature) as [col|e]; simpl;
    try reflexivity; f_equal; rewrite !map_map; apply map_ext; intros x; cbn;
    now rewrite <- Q2R_minus, inj_sign.
Qed.

Lemma inj_inline_predictions
    (X : @ndarray Q_numeric) (feature : nat) (threshold : Q) (operator : string) :
  inline_predictions (inj_array X) feature (Q2R threshold) operator
  = map_result (map Q2R) (inline_predictions X feature threshold operator).
Proof.
  unfold inline_predictions. rewrite inj_column.
  destruct (String.eqb operator "<"); destruct (column X feature) as [col|e]; simpl;
    try reflexivity; f_equal; [apply inj_where_lt | apply inj_where_gt].
Qed.

Lemma inj_weighted_count (w : list Q) (b : list bool) :
  weighted_count (map Q2R w) b = Q2R (weighted_count w b).
Proof.
  unfold weighted_count. rewrite <- inj_np_sum. f_equal.
  rewrite <- (map_id b) at 1.
  apply (inj_zip_with (fun wi bi => mul wi (of_bool bi)) _ Q2R (fun c : bool => c) Q2R).
  intros x c. cbn. rewrite Q2R_mult. now destruct c.
Qed.

Lemma inj_for_each {S S' I I' : Type} (body : S -> I -> result S)
    (body' : S' -> I' -> result S') (js : S -> S') (ii : I -> I') :
  (forall s i, body' (js s) (ii i) = map_result js (body s i)) ->
  forall items s,
    for_each body' (map ii items) (js s) = map_result js (for_each body items s).
Proof.
  intros H items. induction items as [|i items IH]; intros s; simpl; [reflexivity|].
  rewrite H. destruct (body s i) as [s1|e]; simpl; [apply IH | reflexivity].
Qed.

Lemma inj_try_compare (w : list Q) (X : @ndarray Q_numeric) (y : list Q)
    (feature : nat) (threshold : Q) (s : @search Q_numeric) (compare : string) :
  try_compare (map Q2R w) (inj_array X) (map Q2R y) feature (Q2R threshold)
              (inj_search s) compare
  = map_result inj_search (try_compare w X y feature threshold s compare).
Proof.
  unfold try_compare. rewrite inj_stump_classification_result.
  destruct (stump_classification_result feature threshold compare X) as [t|e]; simpl;
    [|reflexivity].
  rewrite inj_not_equal, inj_weighted_count. cbn. rewrite inj_ltb.
  now destruct (Qle_bool (best_error s) (weighted_count w (not_equal t y))).
Qed.

Lemma inj_try_threshold (w : list Q) (X : @ndarray Q_numeric) (y : list Q)
    (feature : nat) (s : @search Q_numeric) (threshold : Q) :
  try_threshold (map Q2R w) (inj_array X) (map Q2R y) feature (inj_search s)
                (Q2R threshold)
  = map_result inj_search (try_threshold w X y feature s threshold).
Proof.
  unfold try_threshold.
  rewrite <- (map_id [">"%string; "<"%string]) at 1.
  apply inj_for_each. intros s' c. apply inj_try_compare.
Qed.

Lemma inj_sweep (X : @ndarray Q_numeric) (feature : nat) :
  sweep (inj_array X) feature = map_result (map Q2R) (sweep X feature).
Proof.
  unfold sweep, column_max, column_min. rewrite inj_column.
  destruct (column X feature) as [col|e]; simpl; [|reflexivity].
  rewrite inj_np_max, inj_np_min.
  destruct (np_max col) as [mx|e]; simpl; [|reflexivity].
  destruct (np_min col) as [mn|e]; simpl; [|reflexivity].
  cbn. now rewrite <- Q2R_minus, <- Q2R_plus, inj_arange by discriminate.
Qed.

Lemma inj_try_feature (w : list Q) (X : @ndarray Q_numeric) (y : list Q)
    (s : @search Q_numeric) (feature : nat) :
  try_feature (map Q2R w) (inj_array X) (map Q2R y) (inj_search s) feature
  = map_result inj_search (try_feature w X y s feature).
Proof.
  unfold try_feature. rewrite inj_sweep.
  destruct (sweep X feature) as [ths|e]; simpl; [|reflexivity].
  apply inj_for_each. intros s' t. apply inj_try_threshold.
Qed.

Lemma inj_best_decision_stump (w : list Q) (X : @ndarray Q_numeric) (y : list Q) :
  best_decision_stump (map Q2R w) (inj_array X) (map Q2R y)
  = map_result inj_triple (best_decision_stump w X y).
Proof.
  unfold best_decision_stump.
  set (s0 := {| best_error := @of_nat Q_numeric (nrows X); best_feature := None;
                best_threshold := None; best_operator := None |}).
  replace (nrows (inj_array X)) with (nrows X)
    by (unfold nrows, inj_array; simpl; now rewrite length_map).
  change {| best_error := @of_nat R_numeric (nrows X); best_feature := None;
            best_threshold := None; best_operator := None |} with (inj_search s0).
  replace (ncols (inj_array X)) with (ncols X) by reflexivity.
  rewrite <- (map_id (seq 0 (ncols X))) at 1.
  rewrite (inj_for_each (try_feature w X y) _ inj_search (fun i : nat => i)).
  - destruct (for_each (try_feature w X y) (seq 0 (ncols X)) s0); reflexivity.
  - intros s f. apply inj_try_feature.
Qed.

Lemma inj_weighted_error (w labels predictions : list Q) :
  weighted_error (map Q2R w) (map Q2R labels) (map Q2R predictions)
  = Q2R (weighted_count w (not_equal labels predictions)).
Proof. unfold weighted_error. now rewrite inj_not_equal, inj_weighted_count. Qed.

(** * Stump selector *)

Lemma for_each_app {S I : Type} (body : S -> I -> result S) (l1 l2 : list I) (s : S) :
  for_each body (l1 ++ l2) s = (s' <- for_each body l1 s ;; for_each body l2 s').
Proof.
  revert s. induction l1 as [|i l1 IH]; intros s; simpl; [reflexivity|].
  destruct (body s i); simpl; auto.
Qed.

Lemma for_each_unchanged {S I : Type} (body : S -> I -> result S) (items : list I) (s : S) :
  (forall i, In i items -> body s i = Ok s) -> for_each body items s = Ok s.
Proof.
  induction items as [|i items IH]; intros H; simpl; [reflexivity|].
  rewrite H by now left. simpl. apply IH. intros j Hj. apply H. now right.
Qed.

(** C10.  If the sweep of every feature is empty (the feature's minimum
    plus 0.005 is at least its maximum minus 0.005), the selector returns
    (None, None, None). *)
Theorem empty_sweep_returns_none (w : list R) (X : @ndarray R_numeric) (y : list R) :
  (forall feature, (feature < ncols X)%nat ->
     exists mx mn, column_max X feature = Ok mx /\ column_min X feature = Ok mn
                   /\ mn + 0.005 >= mx - 0.005) ->
  best_decision_stump w X y = Ok (None, None, None).
Proof.
  intros H. unfold best_decision_stump.
  rewrite for_each_unchanged; [reflexivity|].
  intros f Hf. apply in_seq in Hf.
  destruct (H f) as (mx & mn & Hmx & Hmn & Hle); [lia|].
  unfold try_feature, sweep. rewrite Hmx, Hmn.
  cbn [bind add sub of_Q R_numeric].
  rewrite arange_empty by lra. reflexivity.
Qed.

(** ** The loops as one pass over the grid *)

Section Selector.
Variables (w : list R) (X : @ndarray R_numeric) (y : list R).

Lemma try_compare_pick (feature : nat) (threshold : R) (s : @search R_numeric)
    (compare : string) :
  try_compare w X y feature threshold s compare
  = consider w X y s (feature, threshold, compare).
Proof.
  unfold consider, try_compare, stump_error, pick.
  destruct (stump_classification_result feature threshold compare X) as [t|e];
    simpl; [|reflexivity].
  now destruct (Rltb _ _).
Qed.

Lemma try_threshold_pick (feature : nat) (s : @search R_numeric) (threshold : R) :
  try_threshold w X y feature s threshold
  = for_each (consider w X y) (directions feature threshold) s.
Proof.
  unfold try_threshold, directions. simpl. rewrite try_compare_pick.
  destruct (consider w X y s (feature, threshold, ">"%string)) as [s1|e]; simpl;
    [|reflexivity].
  now rewrite try_compare_pick.
Qed.

Lemma thresholds_pick (feature : nat) (ths : list R) (s : @search R_numeric) :
  for_each (try_threshold w X y feature) ths s
  = for_each (consider w X y) (flat_map (directions feature) ths) s.
Proof.
  revert s. induction ths as [|t ths IH]; intros s; [reflexivity|].
  cbn [flat_map for_each]. rewrite for_each_app, try_threshold_pick.
  destruct (for_each (consider w X y) (directions feature t) s); simpl; auto.
Qed.

Lemma features_pick (fs : list nat) (g : list stump) (s : @search R_numeric) :
  grid_of X fs = Ok g ->
  for_each (try_feature w X y) fs s = for_each (consider w X y) g s.
Proof.
  revert g s. induction fs as [|f fs IH]; intros g s Hg; simpl in Hg.
  - now inversion Hg.
  - simpl. unfold try_feature at 1.
    destruct (sweep X f) as [ths|e]; simpl in *; [|discriminate].
    destruct (grid_of X fs) as [g'|e]; simpl in *; [|discriminate].
    inversion Hg; subst g. rewrite for_each_app, thresholds_pick.
    destruct (for_each (consider w X y) _ s); simpl; auto.
Qed.

Lemma for_each_consider (g : list stump) (es : list R) (s : @search R_numeric) :
  traverse (stump_error w X y) g = Ok es ->
  for_each (consider w X y) g s = Ok (fold_left pick (combine g es) s).
Proof.
  revert es s. induction g as [|c g IH]; intros es s H; simpl in H.
  - now inversion H.
  - unfold consider at 1. simpl.
    destruct (stump_error w X y c) as [e|]; simpl in *; [|discriminate].
    destruct (traverse _ g) as [es'|]; simpl in *; [|discriminate].
    inversion H; subst es. simpl. now apply IH.
Qed.

End Selector.

Lemma traverse_length {A B : Type} (f : A -> result B) (l : list A) (l' : list B) :
  traverse f l = Ok l' -> List.length l' = List.length l.
Proof.
  revert l'. induction l as [|a l IH]; intros l' H; simpl in H.
  - now inversion H.
  - destruct (f a); simpl in H; [|discriminate].
    destruct (traverse f l); simpl in H; [|discriminate].
    inversion H; subst. simpl. f_equal. now apply IH.
Qed.

(** ** The conditional keeps the first minimum *)

Lemma fold_pick_first_minimum (ces : list (@stump R_numeric * R)) (s : @search R_numeric) :
  let s' := fold_left pick ces s in
  (s' = s /\ forall c e, In (c, e) ces -> best_error s <= e)
  \/ (exists k feature threshold compare,
        nth_error (map fst ces) k = Some (feature, threshold, compare)
        /\ best_feature s' = Some feature
        /\ best_threshold s' = Some threshold
        /\ best_operator s' = Some compare
        /\ first_minimum (map snd ces) k
        /\ nth_error (map snd ces) k = Some (best_error s')
        /\ best_error s' < best_error s).
Proof.
  induction ces as [|[c e] ces IH] using rev_ind; simpl.
  - left. split; [reflexivity|]. intros c e [].
  - rewrite fold_left_app. simpl. simpl in IH.
    remember (fold_left pick ces s) as s1 eqn:Es1. clear Es1. destruct c as [[f t] op]. unfold pick.
    destruct (Rltb e (best_error s1)) eqn:E.
    + apply Rltb_true in E. right. exists (List.length ces), f, t, op. simpl.
      rewrite !map_app. simpl.
      rewrite !nth_error_app2 by (rewrite length_map; lia).
      rewrite !length_map, Nat.sub_diag. simpl.
      assert (Hprev : forall j e', (j < List.length ces)%nat ->
                nth_error (map snd ces ++ [e]) j = Some e' -> e < e').
      { intros j e' Hj Hn. rewrite nth_error_app1 in Hn by (rewrite length_map; lia).
        destruct IH as [[Hs Hall]|(k & f' & t' & op' & _ & _ & _ & _ & Hmin & Hk & Hlt)].
        - apply nth_error_In in Hn. apply in_map_iff in Hn.
          destruct Hn as ([c0 e0] & He0 & Hin). simpl in He0. subst e0.
          specialize (Hall _ _ Hin). rewrite Hs in E. lra.
        - destruct Hmin as (m & Hm & Hle & _). rewrite Hk in Hm. inversion Hm; subst m.
          specialize (Hle _ _ Hn). lra. }
      repeat split; try reflexivity.
      * exists e. split.
        { rewrite nth_error_app2 by (rewrite length_map; lia).
          now rewrite length_map, Nat.sub_diag. }
        split.
        { intros j e' Hn.
          destruct (Nat.lt_ge_cases j (List.length ces)) as [Hj|Hj].
          - left. now apply (Hprev j).
          - rewrite nth_error_app2 in Hn by (rewrite length_map; lia).
            rewrite length_map in Hn.
            destruct (j - List.length ces)%nat as [|m]; simpl in Hn.
            + inversion Hn. lra.
            + now destruct m. }
        exact Hprev.
      * destruct IH as [[Hs _]|(_ & _ & _ & _ & _ & _ & _ & _ & _ & _ & Hlt)].
        -- rewrite Hs in E. exact E.
        -- lra.
    + apply Rltb_false in E.
      destruct IH as [[Hs Hall]|(k & f' & t' & op' & Hc & Hf & Ht & Ho & Hmin & Hk & Hlt)].
      * left. split; [exact Hs|]. intros c0 e0 Hin. apply in_app_or in Hin.
        destruct Hin as [Hin|[Heq|[]]]; [now apply (Hall c0)|].
        injection Heq as Hc0 He0. subst c0 e0. rewrite <- Hs. exact E.
      * right. exists k, f', t', op'.
        assert (Hlen : (k < List.length ces)%nat).
        { rewrite <- (length_map snd). apply nth_error_Some. now rewrite Hk. }
        rewrite !map_app. simpl.
        rewrite !nth_error_app1 by (rewrite length_map; lia).
        repeat split; try assumption.
        destruct Hmin as (m & Hm & Hle & Hbefore). rewrite Hk in Hm. inversion Hm; subst m.
        exists (best_error s1). split; [now rewrite nth_error_app1 by (rewrite length_map; lia)|].
        split.
        { intros j e' Hn.
          destruct (Nat.lt_ge_cases j (List.length ces)) as [Hj|Hj].
          - rewrite nth_error_app1 in Hn by (rewrite length_map; lia). eauto.
          - rewrite nth_error_app2 in Hn by (rewrite length_map; lia).
            rewrite length_map in Hn.
            destruct (j - List.length ces)%nat as [|m]; simpl in Hn.
            + inversion Hn; subst. exact E.
            + now destruct m. }
        intros j e' Hj Hn.
        rewrite nth_error_app1 in Hn by (rewrite length_map; lia). eauto.
Qed.

(** ** Sums and weighted counts over the reals *)

Lemma fold_left_Rplus (l : list R) (a : R) :
  fold_left Rplus l a = a + fold_left Rplus l 0.
Proof.
  revert a. induction l as [|x l IH]; intros a; simpl; [lra|].
  rewrite (IH (a + x)), (IH (0 + x)). lra.
Qed.

Lemma np_sum_nil : np_sum (@nil R) = 0.
Proof. unfold np_sum. simpl. apply R_zero. Qed.

Lemma np_sum_cons (x : R) (l : list R) : np_sum (x :: l) = x + np_sum l.
Proof.
  unfold np_sum. rewrite R_zero. change (@add R_numeric) with Rplus.
  cbn [fold_left]. rewrite fold_left_Rplus. as_real. lra.
Qed.

Lemma np_sum_nonneg (l : list R) : Forall (fun x => 0 <= x) l -> 0 <= np_sum l.
Proof.
  induction 1 as [|x l Hx _ IH]; [rewrite np_sum_nil; lra|].
  rewrite np_sum_cons. cbv beta in Hx. lra.
Qed.

Lemma R_of_bool (b : bool) : @of_bool R_numeric b = if b then 1 else 0.
Proof. destruct b; [apply R_one | apply R_zero]. Qed.

Lemma weighted_count_nil_l (b : list bool) : weighted_count (@nil R) b = 0.
Proof. unfold weighted_count. simpl. apply np_sum_nil. Qed.

Lemma weighted_count_nil_r (w : list R) : weighted_count w [] = 0.
Proof. unfold weighted_count. destruct w; simpl; apply np_sum_nil. Qed.

Lemma weighted_count_cons (wi : R) (w : list R) (bi : bool) (b : list bool) :
  weighted_count (wi :: w) (bi :: b) = wi * (if bi then 1 else 0) + weighted_count w b.
Proof.
  unfold weighted_count. cbn [zip_with]. rewrite np_sum_cons, R_of_bool. reflexivity.
Qed.

Lemma weighted_count_bounds (w : list R) (b : list bool) :
  Forall (fun x => 0 <= x) w -> 0 <= weighted_count w b <= np_sum w.
Proof.
  intros Hw. revert b. induction Hw as [|wi w Hwi Hw IH]; intros b; cbv beta in *.
  - rewrite weighted_count_nil_l, np_sum_nil. lra.
  - destruct b as [|bi b].
    + rewrite weighted_count_nil_r, np_sum_cons.
      pose proof (np_sum_nonneg Hw). lra.
    + rewrite weighted_count_cons, np_sum_cons. specialize (IH b).
      destruct bi; lra.
Qed.

(** ** The grid exists and is empty on fewer than two examples *)

Lemma column_ok (X : @ndarray R_numeric) (feature : nat) :
  (feature < ncols X)%nat ->
  column X feature = Ok (map (fun r => nth feature r 0) (rows X)).
Proof.
  intros H. unfold column. rewrite (proj2 (Nat.ltb_lt _ _) H). now rewrite R_zero.
Qed.

Lemma column_in_range (X : @ndarray R_numeric) (feature : nat) (col : list R) :
  column X feature = Ok col -> (feature < ncols X)%nat.
Proof.
  unfold column. destruct (feature <? ncols X)%nat eqn:E; [|discriminate].
  intros _. now apply Nat.ltb_lt.
Qed.

Lemma sweep_ok (X : @ndarray R_numeric) (feature : nat) :
  rows X <> [] -> (feature < ncols X)%nat -> exists ths, sweep X feature = Ok ths.
Proof.
  intros Hr Hf. unfold sweep, column_max, column_min. rewrite column_ok by assumption.
  destruct (rows X) as [|r rs]; [contradiction|]. simpl. eauto.
Qed.

Lemma sweep_in_range (X : @ndarray R_numeric) (feature : nat) (ths : list R) :
  sweep X feature = Ok ths -> (feature < ncols X)%nat.
Proof.
  unfold sweep, column_max. destruct (column X feature) as [col|] eqn:E; [|discriminate].
  intros _. eapply column_in_range; eauto.
Qed.

Lemma sweep_two_rows (X : @ndarray R_numeric) (feature : nat) (ths : list R) :
  sweep X feature = Ok ths -> ths <> [] -> (2 <= nrows X)%nat.
Proof.
  intros H Hne. pose proof (sweep_in_range _ _ H) as Hf.
  unfold sweep, column_max, column_min in H. rewrite column_ok in H by assumption.
  unfold nrows. destruct (rows X) as [|r [|r' rs]]; simpl in *; [discriminate| |lia].
  cbn [add sub of_Q R_numeric] in H. rewrite arange_empty in H by lra.
  inversion H. congruence.
Qed.

Lemma grid_of_ok (X : @ndarray R_numeric) (fs : list nat) :
  rows X <> [] -> Forall (fun f => (f < ncols X)%nat) fs -> exists g, grid_of X fs = Ok g.
Proof.
  intros Hr. induction 1 as [|f fs Hf _ [g IH]]; simpl; [eauto|].
  destruct (sweep_ok X Hr Hf) as [ths ->]. rewrite IH. simpl. eauto.
Qed.

Lemma grid_of_in_range (X : @ndarray R_numeric) (fs : list nat) (g : list stump) :
  grid_of X fs = Ok g -> Forall (fun c : stump => (fst (fst c) < ncols X)%nat) g.
Proof.
  revert g. induction fs as [|f fs IH]; intros g H; simpl in H.
  - inversion H. constructor.
  - destruct (sweep X f) as [ths|] eqn:Es; simpl in H; [|discriminate].
    destruct (grid_of X fs) as [g'|]; simpl in H; [|discriminate].
    inversion H; subst g. apply Forall_app. split; [|now apply IH].
    apply Forall_forall. intros c Hc. apply in_flat_map in Hc.
    destruct Hc as (t & _ & [<-|[<-|[]]]); simpl; eapply sweep_in_range; eauto.
Qed.

Lemma grid_of_two_rows (X : @ndarray R_numeric) (fs : list nat) (g : list stump) :
  grid_of X fs = Ok g -> g <> [] -> (2 <= nrows X)%nat.
Proof.
  revert g. induction fs as [|f fs IH]; intros g H Hne; simpl in H.
  - inversion H. congruence.
  - destruct (sweep X f) as [ths|] eqn:Es; simpl in H; [|discriminate].
    destruct (grid_of X fs) as [g'|]; simpl in H; [|discriminate].
    inversion H; subst g. destruct ths as [|t ths].
    + simpl in Hne. now apply (IH g').
    + apply (sweep_two_rows _ _ Es). discriminate.
Qed.


Lemma traverse_ok {A B : Type} (f : A -> result B) (P : B -> Prop) (l : list A) :
  Forall (fun a => exists b, f a = Ok b /\ P b) l ->
  exists l', traverse f l = Ok l' /\ Forall P l'.
Proof.
  induction 1 as [|a l (b & Hb & Pb) _ (l' & Hl & Pl)]; simpl.
  - exists []. split; [reflexivity|constructor].
  - rewrite Hb, Hl. simpl. exists (b :: l'). split; [reflexivity|now constructor].
Qed.

Lemma map_fst_combine {A B : Type} (l : list A) (l' : list B) :
  List.length l' = List.length l -> map fst (combine l l') = l.
Proof.
  revert l'. induction l as [|a l IH]; intros [|b l'] H; simpl in *; try easy.
  f_equal. apply IH. lia.
Qed.

Lemma map_snd_combine {A B : Type} (l : list A) (l' : list B) :
  List.length l' = List.length l -> map snd (combine l l') = l'.
Proof.
  revert l'. induction l as [|a l IH]; intros [|b l'] H; simpl in *; try easy.
  f_equal. apply IH. lia.
Qed.

(** ** The search over the thresholds [np.arange] returns *)

Lemma selector_at_arange (w : list R) (X : @ndarray R_numeric) (y : list R) :
  best_decision_stump_with arange w X y = best_decision_stump w X y.
Proof. reflexivity. Qed.

Lemma grid_of_at_arange (X : @ndarray R_numeric) (fs : list nat) :
  grid_of_with arange X fs = grid_of X fs.
Proof. induction fs as [|f fs IH]; simpl; [reflexivity|]. now rewrite IH. Qed.

Lemma grid_at_arange (X : @ndarray R_numeric) : grid_with arange X = grid X.
Proof. apply grid_of_at_arange. Qed.


Section AnyThresholds.
Variable np_arange : R -> R -> R -> list R.

Lemma sweep_with_ok (X : @ndarray R_numeric) (feature : nat) :
  rows X <> [] -> (feature < ncols X)%nat ->
  exists ths, sweep_with np_arange X feature = Ok ths.
Proof.
  intros Hr Hf. unfold sweep_with, column_max, column_min.
  rewrite column_ok by assumption.
  destruct (rows X) as [|r rs]; [contradiction|]. simpl. eauto.
Qed.

Lemma sweep_with_in_range (X : @ndarray R_numeric) (feature : nat) (ths : list R) :
  sweep_with np_arange X feature = Ok ths -> (feature < ncols X)%nat.
Proof.
  unfold sweep_with, column_max.
  destruct (column X feature) as [col|] eqn:E; [|discriminate].
  intros _. eapply column_in_range; eauto.
Qed.

Lemma grid_of_with_ok (X : @ndarray R_numeric) (fs : list nat) :
  rows X <> [] -> Forall (fun f => (f < ncols X)%nat) fs ->
  exists g, grid_of_with np_arange X fs = Ok g.
Proof.
  intros Hr. induction 1 as [|f fs Hf _ [g IH]]; simpl; [eauto|].
  destruct (sweep_with_ok X Hr Hf) as [ths ->]. rewrite IH. simpl. eauto.
Qed.

Lemma grid_of_with_in_range (X : @ndarray R_numeric) (fs : list nat) (g : list stump) :
  grid_of_with np_arange X fs = Ok g ->
  Forall (fun c : stump => (fst (fst c) < ncols X)%nat) g.
Proof.
  revert g. induction fs as [|f fs IH]; intros g H; simpl in H.
  - inversion H. constructor.
  - destruct (sweep_with np_arange X f) as [ths|] eqn:Es; simpl in H; [|discriminate].
    destruct (grid_of_with np_arange X fs) as [g'|]; simpl in H; [|discriminate].
    inversion H; subst g. apply Forall_app. split; [|now apply IH].
    apply Forall_forall. intros c Hc. apply in_flat_map in Hc.
    destruct Hc as (t & _ & [<-|[<-|[]]]); simpl; eapply sweep_with_in_range; eauto.
Qed.

(** Members of the grid. *)
Lemma grid_of_with_member (X : @ndarray R_numeric) (fs : list nat) (g : list stump)
    (f : nat) (t : R) (op : string) :
  grid_of_with np_arange X fs = Ok g -> In (f, t, op) g ->
  In f fs /\ (op = ">" \/ op = "<")%string
  /\ exists ths, sweep_with np_arange X f = Ok ths /\ In t ths.
Proof.
  revert g. induction fs as [|f0 fs IH]; intros g H Hin; simpl in H.
  - inversion H; subst. destruct Hin.
  - destruct (sweep_with np_arange X f0) as [ths|] eqn:Es; simpl in H; [|discriminate].
    destruct (grid_of_with np_arange X fs) as [g'|]; simpl in H; [|discriminate].
    inversion H; subst g. apply in_app_or in Hin. destruct Hin as [Hin|Hin].
    + apply in_flat_map in Hin. destruct Hin as (t0 & Ht0 & Hd).
      destruct Hd as [E|[E|[]]]; inversion E; subst;
        (split; [now left|split; [auto|eauto]]).
    + destruct (IH g' eq_refl Hin) as (Hf & Hop & Hths). split; [now right|auto].
Qed.

(** The loops as one pass over the grid. *)
Lemma features_pick_with (w : list R) (X : @ndarray R_numeric) (y : list R)
    (fs : list nat) (g : list stump) (s : @search R_numeric) :
  grid_of_with np_arange X fs = Ok g ->
  for_each (try_feature_with np_arange w X y) fs s = for_each (consider w X y) g s.
Proof.
  revert g s. induction fs as [|f fs IH]; intros g s Hg; simpl in Hg.
  - now inversion Hg.
  - simpl. unfold try_feature_with at 1.
    destruct (sweep_with np_arange X f) as [ths|e]; simpl in *; [|discriminate].
    destruct (grid_of_with np_arange X fs) as [g'|e]; simpl in *; [|discriminate].
    inversion Hg; subst g. rewrite for_each_app, thresholds_pick.
    destruct (for_each (consider w X y) _ s); simpl; auto.
Qed.

Lemma empty_data_raises_with (w : list R) (X : @ndarray R_numeric) (y : list R) :
  rows X = [] -> (0 < ncols X)%nat ->
  best_decision_stump_with np_arange w X y = Raise ValueError.
Proof.
  intros Hr Hd. unfold best_decision_stump_with.
  destruct (ncols X) as [|d] eqn:E; [lia|].
  cbn [seq for_each]. unfold try_feature_with, sweep_with, column_max, column.
  rewrite E, Hr. reflexivity.
Qed.

(** What the search returns, in terms of the grid. *)
Lemma selector_result_with (w : list R) (X : @ndarray R_numeric) (y : list R) :
  rows X <> [] \/ ncols X = 0%nat ->
  exists g es,
    grid_with np_arange X = Ok g
    /\ traverse (stump_error w X y) g = Ok es
    /\ (best_decision_stump_with np_arange w X y = Ok (None, None, None)
        \/ exists k f t op,
             nth_error g k = Some (f, t, op)
             /\ best_decision_stump_with np_arange w X y = Ok (Some f, Some t, Some op)
             /\ first_minimum es k).
Proof.
  intros H.
  assert (Hg : exists g, grid_with np_arange X = Ok g).
  { destruct H as [Hr|Hd].
    - apply grid_of_with_ok; [exact Hr|]. apply Forall_forall. intros f Hf.
      apply in_seq in Hf. lia.
    - unfold grid_with. rewrite Hd. simpl. eauto. }
  destruct Hg as [g Hg].
  pose proof (grid_of_with_in_range _ _ Hg) as Hrange.
  destruct (@traverse_ok _ _ (stump_error w X y) (fun _ => True) g) as (es & Hes & _).
  { apply Forall_forall. intros c Hc. rewrite Forall_forall in Hrange.
    specialize (Hrange c Hc). destruct c as [[f t] op]. simpl in Hrange.
    unfold stump_error, stump_classification_result. rewrite column_ok by assumption.
    destruct (String.eqb op ">"); simpl; eauto. }
  exists g, es. split; [exact Hg|]. split; [exact Hes|].
  pose proof (traverse_length _ _ Hes) as Hlen.
  unfold best_decision_stump_with.
  rewrite (@features_pick_with w X y _ g _ Hg), (@for_each_consider w X y g es _ Hes).
  cbn [bind].
  match goal with |- context [fold_left pick _ ?s] => set (s0 := s) end.
  destruct (fold_pick_first_minimum (combine g es) s0)
    as [[Hs _]|(k & f & t & op & Hk & Hf & Ht & Ho & Hmin & _)].
  - left. cbv zeta in Hs. as_real. rewrite Hs. reflexivity.
  - right. rewrite map_fst_combine in Hk by assumption.
    rewrite map_snd_combine in Hmin by assumption.
    exists k, f, t, op. as_real. rewrite Hf, Ht, Ho. auto.
Qed.

Lemma selector_raise_cases_with (w : list R) (X : @ndarray R_numeric) (y : list R)
    (e : error) :
  best_decision_stump_with np_arange w X y = Raise e ->
  e = ValueError /\ rows X = [] /\ (0 < ncols X)%nat.
Proof.
  intros H. destruct (rows X) as [|r rs] eqn:Er.
  - destruct (ncols X) as [|d] eqn:Ed.
    + destruct (@selector_result_with w X y (or_intror Ed)) as (g & es & _ & _ & [Hn|Hsome]).
      * rewrite Hn in H. discriminate.
      * destruct Hsome as (k & f & t & op & _ & Hb & _). rewrite Hb in H. discriminate.
    + rewrite (@empty_data_raises_with w X y Er) in H by lia. inversion H.
      repeat split; auto. lia.
  - assert (Hr : rows X <> []) by (rewrite Er; discriminate).
    destruct (@selector_result_with w X y (or_introl Hr)) as (g & es & _ & _ & [Hn|Hsome]).
    + rewrite Hn in H. discriminate.
    + destruct Hsome as (k & f & t & op & _ & Hb & _). rewrite Hb in H. discriminate.
Qed.

Hypothesis np_arange_nothing :
  forall start stop step, 0 < step -> stop <= start -> np_arange start stop step = [].



End AnyThresholds.


(** * Boosting trainer *)

Lemma safe_div_ok (a b : R) : b <> 0 -> safe_div a b = Ok (a / b).
Proof. intros H. unfold safe_div. now destruct (Req_dec_T b 0). Qed.

Lemma safe_div_inv (a b q : R) : safe_div a b = Ok q -> b <> 0 /\ q = a / b.
Proof.
  unfold safe_div. destruct (Req_dec_T b 0); [now destruct (Req_dec_T a 0)|].
  intros H. inversion H. auto.
Qed.

Lemma safe_log_ok (x : R) : 0 < x -> safe_log x = Ok (ln x).
Proof. intros H. unfold safe_log. now destruct (Rlt_dec 0 x). Qed.

Lemma safe_log_inv (x l : R) : safe_log x = Ok l -> 0 < x /\ l = ln x.
Proof.
  unfold safe_log. destruct (Rlt_dec 0 x); [|discriminate].
  intros H. inversion H. auto.
Qed.

Lemma odds_pos (em : R) : 0 < em < 1 -> 0 < (1 - em) / em.
Proof. intros H. apply Rdiv_lt_0_compat; lra. Qed.

Lemma odds_pos_inv (em : R) : em <> 0 -> 0 < (1 - em) / em -> 0 < em < 1.
Proof.
  intros Hne Hq.
  assert (Heq : (1 - em) / em * em = 1 - em) by (field; exact Hne).
  destruct (Rlt_dec 0 em) as [Hp|Hn]; [nra|].
  assert (em < 0) by lra. nra.
Qed.

Lemma assign_length (a : list R) (i : nat) (v : R) (a' : list R) :
  assign a i v = Ok a' -> List.length a' = List.length a.
Proof.
  revert i a'. induction a as [|x a IH]; intros i a' H; simpl in H; [discriminate|].
  destruct i; [inversion H; reflexivity|].
  destruct (assign a i v) as [r|] eqn:E; simpl in H; [|discriminate].
  inversion H. simpl. f_equal. eapply IH; eauto.
Qed.

Lemma assign_ok (a : list R) (i : nat) (v : R) :
  (i < List.length a)%nat -> exists a', assign a i v = Ok a'.
Proof.
  revert i. induction a as [|x a IH]; intros i H; simpl in *; [lia|].
  destruct i; [eauto|]. destruct (IH i) as [a' Ha]; [lia|]. rewrite Ha. simpl. eauto.
Qed.

Lemma assign_nth (a : list R) (i : nat) (v : R) (a' : list R) :
  assign a i v = Ok a' ->
  nth_error a' i = Some v /\ forall j, j <> i -> nth_error a' j = nth_error a j.
Proof.
  revert i a'. induction a as [|x a IH]; intros i a' H; simpl in H; [discriminate|].
  destruct i.
  - inversion H. split; [reflexivity|]. intros [|j] Hj; [congruence|reflexivity].
  - destruct (assign a i v) as [r|] eqn:E; simpl in H; [|discriminate].
    inversion H. destruct (IH _ _ E) as [Hi Ho]. split; [exact Hi|].
    intros [|j] Hj; [reflexivity|]. simpl. apply Ho. congruence.
Qed.

Lemma traverse_div (l : list R) (s : R) :
  s <> 0 -> traverse (fun wi => safe_div wi s) l = Ok (map (fun wi => wi / s) l).
Proof.
  intros H. induction l as [|x l IH]; simpl; [reflexivity|].
  now rewrite safe_div_ok, IH.
Qed.

Lemma normalize_ok (w : list R) :
  np_sum w <> 0 -> normalize w = Ok (map (fun wi => wi / np_sum w) w).
Proof. intros H. unfold normalize. now apply traverse_div. Qed.

Lemma normalize_inv (w w' : list R) :
  normalize w = Ok w' ->
  w' = map (fun wi => wi / np_sum w) w /\ (w = [] \/ np_sum w <> 0).
Proof.
  unfold normalize. intros H. destruct w as [|x w].
  - simpl in H. inversion H. auto.
  - assert (Hs : np_sum (x :: w) <> 0).
    { simpl in H. destruct (safe_div x _) as [q|] eqn:E; simpl in H; [|discriminate].
      apply safe_div_inv in E. tauto. }
    rewrite traverse_div in H by exact Hs. inversion H. auto.
Qed.

(** What a completed round did. *)
Lemma boost_round_inv (X : @ndarray R_numeric) (labels : list R)
    (st : boost_state) (i : nat) (st' : boost_state) :
  boost_round X labels st i = Ok st' ->
  exists f t op p,
    best_decision_stump (weights st) X labels = Ok (Some f, Some t, Some op)
    /\ inline_predictions X f t op = Ok p
    /\ 0 < weighted_error (weights st) labels p < 1
    /\ assign (alphas st) i
         (0.5 * ln ((1 - weighted_error (weights st) labels p)
                    / weighted_error (weights st) labels p))
       = Ok (alphas st')
    /\ functions_of st' = functions_of st ++ [(f, t, op)]
    /\ normalize (reweight (weights st) labels
                    (0.5 * ln ((1 - weighted_error (weights st) labels p)
                               / weighted_error (weights st) labels p)) p)
       = Ok (weights st').
Proof.
  unfold boost_round.
  destruct (best_decision_stump (weights st) X labels) as [[[[f|] [t|]] [op|]]|] eqn:Eb;
    simpl; try discriminate.
  destruct (inline_predictions X f t op) as [p|] eqn:Ep; simpl; [|discriminate].
  destruct (safe_div _ _) as [q|] eqn:Eq; simpl; [|discriminate].
  apply safe_div_inv in Eq. destruct Eq as [Hne ->].
  destruct (safe_log _) as [l|] eqn:El; simpl; [|discriminate].
  apply safe_log_inv in El. destruct El as [Hpos ->].
  destruct (assign _ _ _) as [al|] eqn:Ea; simpl; [|discriminate].
  destruct (normalize _) as [w'|] eqn:En; simpl; [|discriminate].
  intros H. inversion H; subst st'; simpl.
  pose proof (odds_pos_inv Hne Hpos) as Hem.
  exists f, t, op, p. repeat split; auto; apply Hem.
Qed.

(** A round whose weighted error lies strictly between 0 and 1 completes. *)
Lemma boost_round_run (X : @ndarray R_numeric) (labels : list R)
    (st : boost_state) (i : nat) (f : nat) (t : R) (op : string)
    (p al w' : list R) :
  best_decision_stump (weights st) X labels = Ok (Some f, Some t, Some op) ->
  inline_predictions X f t op = Ok p ->
  0 < weighted_error (weights st) labels p < 1 ->
  assign (alphas st) i
    (0.5 * ln ((1 - weighted_error (weights st) labels p)
               / weighted_error (weights st) labels p)) = Ok al ->
  normalize (reweight (weights st) labels
               (0.5 * ln ((1 - weighted_error (weights st) labels p)
                          / weighted_error (weights st) labels p)) p) = Ok w' ->
  boost_round X labels st i
  = Ok {| weights := w'; alphas := al; functions_of := functions_of st ++ [(f, t, op)] |}.
Proof.
  intros Hb Hp Hem Ha Hn. unfold boost_round. rewrite Hb. simpl. rewrite Hp. simpl.
  rewrite safe_div_ok by lra. simpl.
  rewrite safe_log_ok by now apply odds_pos. simpl.
  rewrite Ha. simpl. rewrite Hn. reflexivity.
Qed.

(** The failure modes of the confidence weight. *)
Lemma boost_round_zero_error (X : @ndarray R_numeric) (labels : list R)
    (st : boost_state) (i : nat) (f : nat) (t : R) (op : string) (p : list R) :
  best_decision_stump (weights st) X labels = Ok (Some f, Some t, Some op) ->
  inline_predictions X f t op = Ok p ->
  weighted_error (weights st) labels p = 0 ->
  boost_round X labels st i = Raise DivideByZero.
Proof.
  intros Hb Hp Hem. unfold boost_round. rewrite Hb. simpl. rewrite Hp. simpl.
  rewrite Hem. unfold safe_div.
  destruct (Req_dec_T 0 0); [|contradiction].
  destruct (Req_dec_T (1 - 0) 0); [lra|reflexivity].
Qed.

Lemma boost_round_unit_error (X : @ndarray R_numeric) (labels : list R)
    (st : boost_state) (i : nat) (f : nat) (t : R) (op : string) (p : list R) :
  best_decision_stump (weights st) X labels = Ok (Some f, Some t, Some op) ->
  inline_predictions X f t op = Ok p ->
  weighted_error (weights st) labels p = 1 ->
  boost_round X labels st i = Raise LogDomain.
Proof.
  intros Hb Hp Hem. unfold boost_round. rewrite Hb. simpl. rewrite Hp. simpl.
  rewrite Hem. rewrite safe_div_ok by lra. simpl.
  unfold safe_log. destruct (Rlt_dec 0 ((1 - 1) / 1)); [lra|reflexivity].
Qed.

(** ** The example weights stay a distribution *)

Lemma np_sum_map_div (l : list R) (s : R) :
  np_sum (map (fun x => x / s) l) = np_sum l / s.
Proof.
  induction l as [|x l IH]; simpl.
  - rewrite np_sum_nil. as_real. lra.
  - rewrite !np_sum_cons, IH. as_real. lra.
Qed.

Lemma inline_predictions_length (X : @ndarray R_numeric) (f : nat) (t : R)
    (op : string) (p : list R) :
  inline_predictions X f t op = Ok p -> List.length p = nrows X.
Proof.
  unfold inline_predictions, column, where_lt, where_gt, nrows.
  destruct (String.eqb op "<"), (f <? ncols X)%nat; simpl; try discriminate;
    intros H; inversion H; now rewrite !length_map.
Qed.

Lemma reweight_length (w labels : list R) (a : R) (p : list R) (n : nat) :
  List.length w = n -> List.length labels = n -> List.length p = n ->
  List.length (reweight w labels a p) = n.
Proof.
  revert labels p n. induction w as [|wi w IH]; intros [|yi ls] [|pi ps] n; simpl;
    intros; subst; try easy.
  f_equal. apply IH; lia.
Qed.

Lemma reweight_positive (w labels : list R) (a : R) (p : list R) :
  Forall (fun x => 0 < x) w -> Forall (fun x => 0 < x) (reweight w labels a p).
Proof.
  intros Hw. revert labels p. induction Hw as [|wi w Hwi _ IH]; intros [|yi ls] [|pi ps];
    simpl; try constructor; [|apply IH].
  apply Rmult_lt_0_compat; [exact Hwi|apply exp_pos].
Qed.

Lemma np_sum_positive (l : list R) :
  Forall (fun x => 0 < x) l -> l <> [] -> 0 < np_sum l.
Proof.
  intros H Hne. destruct H as [|x l Hx Hl]; [congruence|].
  rewrite np_sum_cons.
  assert (0 <= np_sum l).
  { apply np_sum_nonneg. eapply Forall_impl; [|exact Hl]. simpl. intros; lra. }
  lra.
Qed.

Lemma boost_round_distribution (X : @ndarray R_numeric) (labels : list R)
    (st : boost_state) (i : nat) (st' : boost_state) :
  List.length labels = nrows X ->
  Forall (fun x => 0 < x) (weights st) -> List.length (weights st) = nrows X ->
  boost_round X labels st i = Ok st' ->
  Forall (fun x => 0 < x) (weights st') /\ List.length (weights st') = nrows X
  /\ np_sum (weights st') = 1.
Proof.
  intros Hl Hpos Hlen H. apply boost_round_inv in H.
  destruct H as (f & t & op & p & _ & Hp & Hem & _ & _ & Hn).
  apply inline_predictions_length in Hp.
  set (a := 0.5 * ln _) in Hn. set (rw := reweight _ _ _ _) in Hn.
  assert (Hrw : Forall (fun x => 0 < x) rw) by now apply reweight_positive.
  assert (Hrl : List.length rw = nrows X) by now apply reweight_length.
  assert (Hne : rw <> []).
  { intros E. rewrite E in Hrl. simpl in Hrl.
    destruct (weights st); [|simpl in Hlen; lia].
    unfold weighted_error in Hem. rewrite weighted_count_nil_l in Hem. lra. }
  pose proof (np_sum_positive Hrw Hne) as Hs.
  apply normalize_inv in Hn. destruct Hn as [-> _].
  split; [|split].
  - apply Forall_map. eapply Forall_impl; [|exact Hrw]. simpl. intros x Hx.
    now apply Rdiv_lt_0_compat.
  - now rewrite length_map.
  - rewrite np_sum_map_div. as_real. field. lra.
Qed.

Lemma adaboost_state_S (X : @ndarray R_numeric) (labels : list R) (T k : nat) :
  adaboost_state X labels T (S k)
  = (st <- adaboost_state X labels T k ;; boost_round X labels st k).
Proof.
  unfold adaboost_state. rewrite seq_S, for_each_app. simpl.
  destruct (for_each _ (seq 0 k) _) as [st|]; simpl; [|reflexivity].
  now destruct (boost_round X labels st k).
Qed.

Lemma initial_weights_positive (X : @ndarray R_numeric) (T : nat) :
  Forall (fun x => 0 < x) (weights (initial_state X T))
  /\ List.length (weights (initial_state X T)) = nrows X.
Proof.
  unfold initial_state. simpl. split; [|now rewrite length_map, repeat_length].
  destruct (nrows X) as [|n] eqn:E; [constructor|].
  apply Forall_map. apply Forall_forall. intros x Hx. apply repeat_spec in Hx. subst x.
  apply Rdiv_lt_0_compat; [lra|]. apply lt_0_INR. lia.
Qed.

Lemma adaboost_state_distribution (X : @ndarray R_numeric) (labels : list R) (T k : nat)
    (st : boost_state) :
  List.length labels = nrows X ->
  adaboost_state X labels T k = Ok st ->
  Forall (fun x => 0 < x) (weights st) /\ List.length (weights st) = nrows X
  /\ ((1 <= k)%nat -> np_sum (weights st) = 1).
Proof.
  intros Hl. revert st. induction k as [|k IH]; intros st H.
  - unfold adaboost_state in H. simpl in H. inversion H; subst st.
    destruct (initial_weights_positive X T). repeat split; auto. lia.
  - rewrite adaboost_state_S in H.
    destruct (adaboost_state X labels T k) as [st0|]; simpl in H; [|discriminate].
    destruct (IH st0 eq_refl) as (Hp & Hn & _).
    destruct (@boost_round_distribution X labels st0 k st Hl Hp Hn H) as (Hp' & Hn' & Hs').
    auto.
Qed.

(** C5.  After every completed training round the example weights have
    no negative entry and sum to 1. *)
Theorem weights_remain_distribution (X : @ndarray R_numeric) (labels : list R)
    (T k : nat) (st : boost_state) :
  well_shaped X -> List.length labels = nrows X ->
  (1 <= k)%nat ->
  adaboost_state X labels T k = Ok st ->
  Forall (fun wi => 0 <= wi) (weights st) /\ np_sum (weights st) = 1.
Proof.
  intros _ Hl Hk H.
  destruct (@adaboost_state_distribution X labels T k st Hl H) as (Hp & _ & Hs).
  split; [|now apply Hs].
  eapply Forall_impl; [|exact Hp]. simpl. intros; lra.
Qed.

(** ** The ensemble records the rounds in order *)

Lemma adaboost_state_shape (X : @ndarray R_numeric) (labels : list R) (T k : nat)
    (st : boost_state) :
  adaboost_state X labels T k = Ok st ->
  List.length (functions_of st) = k /\ List.length (alphas st) = T
  /\ forall i, (i < k)%nat ->
       exists st_i f t op p,
         adaboost_state X labels T i = Ok st_i
         /\ best_decision_stump (weights st_i) X labels = Ok (Some f, Some t, Some op)
         /\ inline_predictions X f t op = Ok p
         /\ nth_error (functions_of st) i = Some (f, t, op)
         /\ nth_error (alphas st) i
            = Some (0.5 * ln ((1 - weighted_error (weights st_i) labels p)
                              / weighted_error (weights st_i) labels p)).
Proof.
  revert st. induction k as [|k IH]; intros st H.
  - unfold adaboost_state in H. simpl in H. inversion H; subst st. simpl.
    rewrite repeat_length. repeat split; auto. intros i Hi. lia.
  - rewrite adaboost_state_S in H.
    destruct (adaboost_state X labels T k) as [st0|] eqn:E0; simpl in H; [|discriminate].
    destruct (IH st0 eq_refl) as (Hf & Ha & Hprev).
    destruct (boost_round_inv _ _ _ _ H) as (f & t & op & p & Hb & Hp & _ & Has & Hfs & _).
    pose proof (assign_length _ _ _ Has) as Hal.
    destruct (assign_nth _ _ _ Has) as [Hk Hother].
    split; [rewrite Hfs, length_app; simpl; lia|].
    split; [congruence|].
    intros i Hi. destruct (Nat.eq_dec i k) as [->|Hne].
    + exists st0, f, t, op, p. repeat split; auto.
      rewrite Hfs, nth_error_app2 by lia. now rewrite Hf, Nat.sub_diag.
    + destruct (Hprev i) as (st_i & f' & t' & op' & p' & Hst & Hb' & Hp' & Hnf & Hna);
        [lia|].
      exists st_i, f', t', op', p'. repeat split; auto.
      * rewrite Hfs, nth_error_app1 by lia. exact Hnf.
      * rewrite Hother by exact Hne. exact Hna.
Qed.

(** C6.  The ensemble returned by [adaboost] holds exactly
    [num_iterations] stumps and as many alphas; entry [i] of both lists
    comes from round [i]: the stump is the one the selector returned for the
    weights of that round and the alpha is computed from that stump's
    weighted error. *)
Theorem adaboost_ensemble_shape (X : @ndarray R_numeric) (labels : list R) (T : nat)
    (fs : list stump) (al : list R) :
  adaboost X labels T = Ok (fs, al) ->
  List.length fs = T /\ List.length al = T
  /\ forall i, (i < T)%nat ->
       exists st_i f t op p,
         adaboost_state X labels T i = Ok st_i
         /\ best_decision_stump (weights st_i) X labels = Ok (Some f, Some t, Some op)
         /\ inline_predictions X f t op = Ok p
         /\ nth_error fs i = Some (f, t, op)
         /\ nth_error al i
            = Some (0.5 * ln ((1 - weighted_error (weights st_i) labels p)
                              / weighted_error (weights st_i) labels p)).
Proof.
  unfold adaboost. intros H.
  destruct (adaboost_state X labels T T) as [st|] eqn:E; simpl in H; [|discriminate].
  inversion H; subst fs al. now apply adaboost_state_shape.
Qed.

(** ** The reweighting in closed form *)

Lemma reweight_factor_agree (yi pi a : R) :
  pm_one yi -> yi = pi -> exp (-1 * yi * a * pi) = / exp a.
Proof.
  intros Hy <-. rewrite <- exp_Ropp. f_equal. destruct Hy; subst; lra.
Qed.

Lemma reweight_factor_differ (yi pi a : R) :
  pm_one yi -> pm_one pi -> yi <> pi -> exp (-1 * yi * a * pi) = exp a.
Proof.
  intros Hy Hp Hne. f_equal. destruct Hy, Hp; subst; try lra; contradiction.
Qed.

Lemma weighted_error_cons (wi yi pi : R) (w labels p : list R) :
  weighted_error (wi :: w) (yi :: labels) (pi :: p)
  = wi * (if Reqb yi pi then 0 else 1) + weighted_error w labels p.
Proof.
  unfold weighted_error, not_equal. cbn [zip_with]. rewrite weighted_count_cons.
  cbn [eqb R_numeric]. now destruct (Reqb yi pi).
Qed.

Lemma reweight_sum (w labels p : list R) (a : R) :
  List.length labels = List.length w -> List.length p = List.length w ->
  Forall pm_one labels -> Forall pm_one p ->
  np_sum (reweight w labels a p)
  = (np_sum w - weighted_error w labels p) / exp a
    + weighted_error w labels p * exp a.
Proof.
  pose proof (exp_pos a) as Hr.
  revert labels p. induction w as [|wi w IH]; intros [|yi ls] [|pi ps] Hl Hp Hy Hpm;
    simpl in Hl, Hp; try discriminate.
  - simpl. unfold weighted_error. rewrite weighted_count_nil_l, np_sum_nil.
    as_real. field. lra.
  - inversion Hy as [|? ? Hyi Hys]; subst. inversion Hpm as [|? ? Hpi Hps]; subst.
    cbn [reweight]. rewrite !np_sum_cons, weighted_error_cons, IH by (auto; lia).
    destruct (Reqb yi pi) eqn:E.
    + apply Reqb_true in E. rewrite (reweight_factor_agree a Hyi E).
      as_real. field. lra.
    + apply Reqb_false in E. rewrite (reweight_factor_differ a Hyi Hpi E).
      as_real. field. lra.
Qed.

Lemma reweight_closed_form (w labels p : list R) :
  List.length labels = List.length w -> List.length p = List.length w ->
  Forall pm_one labels -> Forall pm_one p ->
  np_sum w = 1 -> 0 < weighted_error w labels p < 1 ->
  normalize (reweight w labels
               (0.5 * ln ((1 - weighted_error w labels p) / weighted_error w labels p)) p)
  = Ok (closed_form w labels p (weighted_error w labels p)).
Proof.
  intros Hl Hp Hy Hpm Hsum Hem.
  set (em := weighted_error w labels p) in *.
  set (a := 0.5 * ln ((1 - em) / em)).
  pose proof (exp_pos a) as Hr.
  assert (Hrr : exp a * exp a = (1 - em) / em).
  { rewrite <- exp_plus. replace (a + a) with (ln ((1 - em) / em)) by (unfold a; lra).
    apply exp_ln. now apply odds_pos. }
  assert (Hrr' : exp a * exp a * em = 1 - em) by (rewrite Hrr; field; lra).
  assert (Hs : np_sum (reweight w labels a p) * exp a = 2 * (1 - em)).
  { rewrite reweight_sum by assumption. fold em. rewrite Hsum.
    as_real. transitivity ((1 - em) + em * (exp a * exp a)); [field; lra|].
    rewrite Hrr. field. lra. }
  assert (Hsne : np_sum (reweight w labels a p) <> 0).
  { intros E. rewrite E in Hs. as_real. lra. }
  rewrite normalize_ok by exact Hsne. as_real. apply f_equal.
  set (s := np_sum (reweight w labels a p)) in *. clearbody s.
  clear Hsum. subst em. set (em := weighted_error w labels p) in *. clearbody em.
  clear Hl Hp. revert labels p Hy Hpm.
  induction w as [|wi w IH]; intros [|yi ls] [|pi ps] Hy Hpm; try reflexivity.
  inversion Hy as [|? ? Hyi Hys]; subst. inversion Hpm as [|? ? Hpi Hps]; subst.
  cbn [reweight map closed_form]. apply (f_equal2 cons); [|now apply IH].
  cbn [eqb div mul sub of_Q R_numeric]. rewrite R_one. as_real.
  replace (Q2R 2) with 2 by lra.
  destruct (Reqb yi pi) eqn:E.
  - apply Reqb_true in E. rewrite (reweight_factor_agree a Hyi E).
    rewrite <- Hs. field. split; lra.
  - apply Reqb_false in E. rewrite (reweight_factor_differ a Hyi Hpi E).
    assert (Hs' : s * exp a * em = 2 * (exp a * exp a * em) * em) by (rewrite Hrr', Hs; ring).
    assert (Hs2 : s = 2 * exp a * em).
    { apply Rmult_eq_reg_r with (exp a * em); [|nra]. lra. }
    rewrite Hs2. field. split; lra.
Qed.

(** ** Rounds on rational data *)

Lemma Q2R_0 : Q2R 0 = 0.
Proof. lra. Qed.

Lemma Q2R_1 : Q2R 1 = 1.
Proof. lra. Qed.

Lemma pm_one_Q2R (l : list Q) : forallb pm_one_Q l = true -> Forall pm_one (map Q2R l).
Proof.
  induction l as [|x l IH]; simpl; intros H; [constructor|].
  apply andb_true_iff in H. destruct H as [Hx Hl]. constructor; [|now apply IH].
  unfold pm_one_Q in Hx. apply orb_true_iff in Hx.
  destruct Hx as [Hx|Hx]; apply Qeq_bool_iff, Qeq_eqR in Hx; [left|right]; rewrite Hx; lra.
Qed.

Lemma inline_predictions_pm_one (X : @ndarray R_numeric) (f : nat) (t : R) (op : string)
    (p : list R) :
  inline_predictions X f t op = Ok p -> Forall pm_one p.
Proof.
  unfold inline_predictions, where_lt, where_gt.
  destruct (column X f) as [col|]; destruct (String.eqb op "<"); simpl; try discriminate;
    intros H; inversion H; apply Forall_map, Forall_forall; intros x _;
    destruct (ltb _ _); unfold pm_one; ((left; lra) || (right; lra)).
Qed.

Lemma inj_closed_form (w labels p : list Q) (em : Q) :
  ~ (em == 0)%Q -> ~ (1 - em == 0)%Q ->
  closed_form (map Q2R w) (map Q2R labels) (map Q2R p) (Q2R em)
  = map Q2R (closed_form w labels p em).
Proof.
  intros H0 H1.
  assert (Ha : ~ (2 * (1 - em) == 0)%Q).
  { intros E. apply H1. apply Qmult_integral in E. destruct E as [E|E]; [discriminate E|exact E]. }
  assert (Hb : ~ (2 * em == 0)%Q).
  { intros E. apply H0. apply Qmult_integral in E. destruct E as [E|E]; [discriminate E|exact E]. }
  revert labels p. induction w as [|wi w IH]; intros [|yi ls] [|pi ps]; try reflexivity.
  cbn [map closed_form]. apply (f_equal2 cons); [|apply IH].
  cbn [eqb div mul sub of_Q R_numeric Q_numeric]. rewrite inj_eqb.
  change (@one R_numeric) with (Q2R 1). change (@one Q_numeric) with 1%Q.
  destruct (Qeq_bool yi pi).
  - rewrite <- Q2R_minus, <- Q2R_mult, <- Q2R_div by exact Ha. reflexivity.
  - rewrite <- Q2R_mult, <- Q2R_div by exact Hb. reflexivity.
Qed.

Lemma Qlt_not_eq0 (q : Q) : (0 < q)%Q -> ~ (q == 0)%Q.
Proof. intros H E. rewrite E in H. now apply Qlt_irrefl in H. Qed.

Lemma Q_odds (em : Q) :
  (0 < em)%Q -> (1 - Q2R em) / Q2R em = Q2R ((1 - em) / em).
Proof.
  intros H. rewrite Q2R_div by now apply Qlt_not_eq0.
  now rewrite Q2R_minus, Q2R_1.
Qed.

(** The vote on rational data and rational alphas. *)
Lemma inj_vote_step (X : @ndarray Q_numeric) (out : list Q) (fa : @stump Q_numeric * Q) :
  vote_step (inj_array X) (map Q2R out) (inj_stump (fst fa), Q2R (snd fa))
  = map_result (map Q2R) (vote_step X out fa).
Proof.
  destruct fa as [[[f t] op] a]. cbn [vote_step inj_stump fst snd].
  rewrite inj_inline_predictions.
  destruct (inline_predictions X f t op) as [p|]; simpl; [|reflexivity].
  apply f_equal.
  assert (E : map (fun pi : R => pi * Q2R a) (map Q2R p)
              = map Q2R (map (fun pi : Q => (pi * a)%Q) p))
    by (rewrite !map_map; apply map_ext; intros x; now rewrite Q2R_mult).
  rewrite E.
  apply (inj_zip_with (@add Q_numeric) (@add R_numeric) Q2R Q2R Q2R).
  intros x z. cbn. now rewrite Q2R_plus.
Qed.

Lemma combine_map {A B A' B' : Type} (f : A -> A') (g : B -> B') (l : list A) (l' : list B) :
  combine (map f l) (map g l') = map (fun ab => (f (fst ab), g (snd ab))) (combine l l').
Proof.
  revert l'. induction l as [|a l IH]; intros [|b l']; simpl; try reflexivity.
  now rewrite IH.
Qed.

Lemma inj_vote (fs : list (@stump Q_numeric)) (al : list Q) (X : @ndarray Q_numeric) :
  vote (map inj_stump fs) (map Q2R al) (inj_array X)
  = map_result (map Q2R) (vote fs al X).
Proof.
  unfold vote.
  etransitivity;
    [|apply (inj_for_each (vote_step X) (vote_step (inj_array X)) (map Q2R)
               (fun fa : @stump Q_numeric * Q => (inj_stump (fst fa), Q2R (snd fa))));
      intros out fa; apply inj_vote_step].
  apply f_equal2.
  - apply combine_map.
  - unfold nrows, inj_array. simpl. now rewrite length_map, map_repeat.
Qed.

Lemma inj_classify (fs : list (@stump Q_numeric)) (al : list Q) (X : @ndarray Q_numeric) :
  classify (map inj_stump fs) (map Q2R al) (inj_array X)
  = map_result (map Q2R) (classify fs al X).
Proof.
  unfold classify. rewrite inj_vote.
  destruct (vote fs al X) as [out|]; simpl; [|reflexivity].
  apply f_equal. change (@zero R_numeric) with (Q2R (@zero Q_numeric)).
  apply inj_where_gt.
Qed.

Lemma Qlist_eqb_sound (l l' : list Q) : Qlist_eqb l l' = true -> map Q2R l = map Q2R l'.
Proof.
  revert l'. induction l as [|x l IH]; intros [|x' l'] H; simpl in H; try discriminate;
    [reflexivity|].
  apply andb_true_iff in H. destruct H as [Hx Hl]. simpl.
  apply Qeq_bool_iff, Qeq_eqR in Hx. now rewrite Hx, (IH _ Hl).
Qed.

Lemma stump_check_sound (Xq : @ndarray Q_numeric) (wq yq : list Q)
    (f : nat) (t : Q) (op : string) :
  stump_check Xq wq yq f t op = true ->
  best_decision_stump (map Q2R wq) (inj_array Xq) (map Q2R yq)
  = Ok (Some f, Some (Q2R t), Some op).
Proof.
  unfold stump_check. rewrite inj_best_decision_stump.
  destruct (best_decision_stump wq Xq yq) as [[[[f0|] [t0|]] [op0|]]|]; try discriminate.
  intros H. apply andb_true_iff in H. destruct H as [H Hop].
  apply andb_true_iff in H. destruct H as [Hf Ht].
  apply Nat.eqb_eq in Hf. apply String.eqb_eq in Hop. apply Qeq_bool_iff, Qeq_eqR in Ht.
  subst. simpl. now rewrite Ht.
Qed.

Lemma boost_round_check (Xq : @ndarray Q_numeric) (wq yq : list Q)
    (al al' : list R) (fns : list (@stump R_numeric)) (i f : nat) (t : Q)
    (op : string) (w' : list Q) (odds : Q) :
  round_check Xq wq yq f t op w' odds = true ->
  assign al i (0.5 * ln (Q2R odds)) = Ok al' ->
  boost_round (inj_array Xq) (map Q2R yq)
    {| weights := map Q2R wq; alphas := al; functions_of := fns |} i
  = Ok {| weights := map Q2R w'; alphas := al'; functions_of := fns ++ [(f, Q2R t, op)] |}.
Proof.
  unfold round_check. intros H Ha.
  apply andb_true_iff in H. destruct H as [Hb H].
  apply stump_check_sound in Hb.
  destruct (inline_predictions Xq f t op) as [pq|] eqn:Ep; [|discriminate].
  repeat (apply andb_true_iff in H; let H' := fresh "C" in destruct H as [H H']).
  apply negb_true_iff in H.
  assert (H0 : (0 < weighted_count wq (not_equal yq pq))%Q).
  { apply Qnot_le_lt. intros E. apply Qle_bool_iff in E. congruence. }
  apply negb_true_iff in C5.
  assert (H1 : (weighted_count wq (not_equal yq pq) < 1)%Q).
  { apply Qnot_le_lt. intros E. apply Qle_bool_iff in E. congruence. }
  apply Qeq_bool_iff in C4, C. apply Nat.eqb_eq in C3, C2.
  set (emq := weighted_count wq (not_equal yq pq)) in *.
  assert (Hp' : inline_predictions (inj_array Xq) f (Q2R t) op = Ok (map Q2R pq))
    by (rewrite inj_inline_predictions, Ep; reflexivity).
  assert (He : weighted_error (map Q2R wq) (map Q2R yq) (map Q2R pq) = Q2R emq)
    by (rewrite inj_weighted_error; reflexivity).
  assert (Hr : 0 < Q2R emq < 1).
  { split; [rewrite <- Q2R_0|rewrite <- Q2R_1]; now apply Qlt_Rlt. }
  rewrite <- (Qlist_eqb_sound _ _ C0).
  apply (@boost_round_run (inj_array Xq) (map Q2R yq)
           {| weights := map Q2R wq; alphas := al; functions_of := fns |}
           i f (Q2R t) op (map Q2R pq)); cbn [weights alphas]; try assumption.
  - rewrite He. exact Hr.
  - rewrite He, Q_odds, (Qeq_eqR _ _ C) by assumption. exact Ha.
  - rewrite <- inj_closed_form.
    + rewrite <- He. apply reweight_closed_form.
      * now rewrite !length_map.
      * now rewrite !length_map.
      * now apply pm_one_Q2R.
      * eapply inline_predictions_pm_one; eauto.
      * rewrite inj_np_sum, (Qeq_eqR _ _ C4). apply Q2R_1.
      * rewrite He. exact Hr.
    + now apply Qlt_not_eq0.
    + apply Qlt_not_eq0. now apply (proj1 (Qlt_minus_iff emq 1)) in H1.
Qed.

Lemma boost_round_zero_check (Xq : @ndarray Q_numeric) (wq yq : list Q)
    (al : list R) (fns : list (@stump R_numeric)) (i : nat) :
  zero_error_check Xq wq yq = true ->
  boost_round (inj_array Xq) (map Q2R yq)
    {| weights := map Q2R wq; alphas := al; functions_of := fns |} i
  = Raise DivideByZero.
Proof.
  unfold zero_error_check. intros H.
  destruct (best_decision_stump wq Xq yq) as [[[[f|] [t|]] [op|]]|] eqn:Eb; try discriminate.
  destruct (inline_predictions Xq f t op) as [pq|] eqn:Ep; [|discriminate].
  apply Qeq_bool_iff, Qeq_eqR in H.
  apply (@boost_round_zero_error (inj_array Xq) (map Q2R yq)
           {| weights := map Q2R wq; alphas := al; functions_of := fns |}
           i f (Q2R t) op (map Q2R pq)); cbn [weights].
  - now rewrite inj_best_decision_stump, Eb.
  - now rewrite inj_inline_predictions, Ep.
  - rewrite inj_weighted_error, H. apply Q2R_0.
Qed.

(** * The run on the data set of [__main__] *)

Lemma hw_X_inj : hw_X = inj_array hw_X_Q.
Proof. reflexivity. Qed.

Lemma hw_y_inj : hw_y = map Q2R hw_y_Q.
Proof. unfold hw_y, hw_y_Q. simpl. repeat (apply (f_equal2 cons); [lra|]). reflexivity. Qed.

Lemma hw_initial :
  initial_state hw_X 3
  = {| weights := map Q2R uniform7; alphas := [0; 0; 0]; functions_of := [] |}.
Proof.
  unfold initial_state. simpl.
  apply (f_equal (fun w => {| weights := w; alphas := [0; 0; 0]; functions_of := [] |})).
  repeat (apply (f_equal2 cons); [lra|]). reflexivity.
Qed.

Lemma hw_round_1 : boost_round hw_X hw_y (initial_state hw_X 3) 0 = Ok hw_state_1.
Proof.
  rewrite hw_initial, hw_X_inj, hw_y_inj.
  rewrite (@boost_round_check hw_X_Q uniform7 hw_y_Q [0; 0; 0] [0.5 * ln (Q2R 6); 0; 0] []
             0 0 (205 # 1000) "<" hw_weights_1 6);
    [|vm_compute; reflexivity|reflexivity].
  unfold hw_state_1. simpl. replace (Q2R 6) with 6 by lra. reflexivity.
Qed.

Lemma hw_round_2 : boost_round hw_X hw_y hw_state_1 1 = Ok hw_state_2.
Proof.
  rewrite hw_X_inj, hw_y_inj. unfold hw_state_1.
  replace (firstn 1 hw_functions) with ([] ++ [(0%nat, Q2R (205 # 1000), "<"%string)])
    by reflexivity.
  rewrite (@boost_round_check hw_X_Q hw_weights_1 hw_y_Q
             [0.5 * ln 6; 0; 0] [0.5 * ln 6; 0.5 * ln (Q2R 11); 0] _
             1 1 (185 # 1000) "<" hw_weights_2 11);
    [|vm_compute; reflexivity|reflexivity].
  unfold hw_state_2. simpl. replace (Q2R 11) with 11 by lra. reflexivity.
Qed.

Lemma hw_round_3 : boost_round hw_X hw_y hw_state_2 2 = Ok hw_state_3.
Proof.
  rewrite hw_X_inj, hw_y_inj. unfold hw_state_2.
  rewrite (@boost_round_check hw_X_Q hw_weights_2 hw_y_Q
             [0.5 * ln 6; 0.5 * ln 11; 0] [0.5 * ln 6; 0.5 * ln 11; 0.5 * ln (Q2R 10)] _
             2 1 (155 # 1000) "<" hw_weights_3 10);
    [|vm_compute; reflexivity|reflexivity].
  unfold hw_state_3, hw_alpha. simpl. replace (Q2R 10) with 10 by lra. reflexivity.
Qed.

Lemma hw_after_1 : adaboost_state hw_X hw_y 3 1 = Ok hw_state_1.
Proof. rewrite adaboost_state_S. unfold adaboost_state. simpl. apply hw_round_1. Qed.

Lemma hw_after_2 : adaboost_state hw_X hw_y 3 2 = Ok hw_state_2.
Proof. rewrite adaboost_state_S, hw_after_1. simpl. apply hw_round_2. Qed.

Lemma hw_after_3 : adaboost_state hw_X hw_y 3 3 = Ok hw_state_3.
Proof. rewrite adaboost_state_S, hw_after_2. simpl. apply hw_round_3. Qed.

Lemma hw_adaboost : adaboost hw_X hw_y 3 = Ok (hw_functions, hw_alpha).
Proof. unfold adaboost. rewrite hw_after_3. reflexivity. Qed.

(** ** The predictor on the trained ensemble *)

Lemma zip_with_add_offset (out q : list R) :
  zip_with Rplus (map (fun F => 1 + F) out) q = map (fun F => 1 + F) (zip_with Rplus out q).
Proof.
  revert q. induction out as [|o out IH]; intros [|x q]; simpl; try reflexivity.
  rewrite IH. apply (f_equal2 cons); [lra|reflexivity].
Qed.

Lemma vote_step_offset (X : @ndarray R_numeric) (out : list R) (fa : @stump R_numeric * R) :
  vote_step X (map (fun F => 1 + F) out) fa
  = map_result (map (fun F => 1 + F)) (vote_step X out fa).
Proof.
  destruct fa as [[[f t] op] a]. cbn [vote_step].
  destruct (inline_predictions X f t op) as [p|]; simpl; [|reflexivity].
  apply f_equal. apply zip_with_add_offset.
Qed.

Lemma for_each_vote_offset (X : @ndarray R_numeric) (l : list (@stump R_numeric * R))
    (out : list R) :
  for_each (vote_step X) l (map (fun F => 1 + F) out)
  = map_result (map (fun F => 1 + F)) (for_each (vote_step X) l out).
Proof.
  revert out. induction l as [|fa l IH]; intros out; simpl; [reflexivity|].
  rewrite vote_step_offset. destruct (vote_step X out fa) as [out'|]; simpl; auto.
Qed.

(** The accumulator of [classify] and [loss] is the weighted vote plus 1:
    it starts at [np.ones(n)]. *)
Lemma vote_offset (fs : list (@stump R_numeric)) (al : list R) (X : @ndarray R_numeric) :
  vote fs al X = map_result (map (fun F => 1 + F)) (spec_weighted_vote fs al X).
Proof.
  unfold vote, spec_weighted_vote. rewrite <- for_each_vote_offset.
  apply f_equal. rewrite map_repeat. apply f_equal2; [|reflexivity].
  rewrite R_zero, R_one. lra.
Qed.

Lemma hw_predictions_1 :
  inline_predictions hw_X 0 0.205 "<" = Ok [-1; 1; 1; -1; 1; -1; -1].
Proof.
  rewrite hw_X_inj, (inj_inline_predictions hw_X_Q 0 (205 # 1000) "<").
  assert (E : inline_predictions hw_X_Q 0 (205 # 1000) "<" = Ok [-1; 1; 1; -1; 1; -1; -1]%Q)
    by (vm_compute; reflexivity).
  rewrite E. simpl. apply f_equal. repeat (apply (f_equal2 cons); [lra|]). reflexivity.
Qed.

Lemma hw_predictions_2 :
  inline_predictions hw_X 1 0.185 "<" = Ok [1; 1; 1; 1; 1; -1; -1].
Proof.
  rewrite hw_X_inj, (inj_inline_predictions hw_X_Q 1 (185 # 1000) "<").
  assert (E : inline_predictions hw_X_Q 1 (185 # 1000) "<" = Ok [1; 1; 1; 1; 1; -1; -1]%Q)
    by (vm_compute; reflexivity).
  rewrite E. simpl. apply f_equal. repeat (apply (f_equal2 cons); [lra|]). reflexivity.
Qed.

Lemma hw_predictions_3 :
  inline_predictions hw_X 1 0.155 "<" = Ok [1; 1; -1; -1; -1; -1; -1].
Proof.
  rewrite hw_X_inj, (inj_inline_predictions hw_X_Q 1 (155 # 1000) "<").
  assert (E : inline_predictions hw_X_Q 1 (155 # 1000) "<" = Ok [1; 1; -1; -1; -1; -1; -1]%Q)
    by (vm_compute; reflexivity).
  rewrite E. simpl. apply f_equal. repeat (apply (f_equal2 cons); [lra|]). reflexivity.
Qed.

Lemma hw_weighted_vote (a0 a1 a2 : R) :
  spec_weighted_vote hw_functions [a0; a1; a2] hw_X
  = Ok [ - a0 + a1 + a2;
           a0 + a1 + a2;
           a0 + a1 - a2;
         - a0 + a1 - a2;
           a0 + a1 - a2;
         - a0 - a1 - a2;
         - a0 - a1 - a2 ].
Proof.
  unfold spec_weighted_vote, hw_functions. cbn [combine for_each vote_step].
  rewrite hw_predictions_1. cbn [bind].
  rewrite hw_predictions_2. cbn [bind map zip_with].
  rewrite hw_predictions_3. cbn [bind map zip_with].
  rewrite R_zero. cbn [nrows hw_X rows List.length repeat map zip_with add mul R_numeric].
  apply f_equal. repeat (apply (f_equal2 cons); [lra|]). reflexivity.
Qed.

(** What [classify] computes, in terms of the weighted vote. *)
Lemma classify_offset (fs : list (@stump R_numeric)) (al : list R) (X : @ndarray R_numeric) :
  classify fs al X
  = map_result (map (fun F => if Rltb 0 (1 + F) then 1 else -1)) (spec_weighted_vote fs al X).
Proof.
  unfold classify. rewrite vote_offset.
  destruct (spec_weighted_vote fs al X) as [out|]; cbn [map_result bind]; [|reflexivity].
  apply f_equal. unfold where_gt. rewrite map_map. apply map_ext. intros F.
  rewrite R_zero, R_one, R_minus_one. reflexivity.
Qed.

(** What [loss] prints, in terms of the weighted vote. *)
Lemma loss_offset (fs : list (@stump R_numeric)) (al : list R) (X : @ndarray R_numeric)
    (y : list R) :
  loss fs al X y
  = map_result (fun out => zip_with (fun yi F => exp (-1 * yi * (1 + F))) y out)
               (spec_weighted_vote fs al X).
Proof.
  unfold loss. rewrite vote_offset.
  destruct (spec_weighted_vote fs al X) as [out|]; simpl; [|reflexivity].
  apply f_equal. revert y. induction out as [|F out IH]; intros [|yi y]; simpl;
    try reflexivity.
  now rewrite IH.
Qed.

(** ** Bounds on the logarithms of the run *)

Lemma exp_2_upper : exp 2 <= 9.
Proof.
  replace 2 with (1 + 1) by lra. rewrite exp_plus.
  pose proof exp_le_3. pose proof (exp_pos 1). nra.
Qed.

Lemma exp_2_lower : 60 / 11 < exp 2.
Proof.
  assert (H4 : 5 / 4 < exp (1 / 4)).
  { pose proof (exp_ineq1 (1 / 4)). lra. }
  assert (H2 : exp (1 / 2) = exp (1 / 4) * exp (1 / 4)).
  { rewrite <- exp_plus. apply f_equal. lra. }
  assert (H1 : exp 1 = exp (1 / 2) * exp (1 / 2)).
  { rewrite <- exp_plus. apply f_equal. lra. }
  assert (H0 : exp 2 = exp 1 * exp 1).
  { rewrite <- exp_plus. apply f_equal. lra. }
  assert (G2 : 25 / 16 < exp (1 / 2)) by nra.
  assert (G1 : 625 / 256 < exp 1) by nra.
  nra.
Qed.

Lemma ln_11_lower : 2 < ln 11.
Proof.
  rewrite <- (ln_exp 2) at 1. apply ln_increasing; [apply exp_pos|].
  pose proof exp_2_upper. lra.
Qed.

Lemma ln_6_10_11 : 0 < ln 6 /\ ln 6 < ln 10 /\ ln 10 < ln 11.
Proof.
  repeat split.
  - rewrite <- ln_1. apply ln_increasing; lra.
  - apply ln_increasing; lra.
  - apply ln_increasing; lra.
Qed.

Lemma ln_60_over_11 : ln 6 + ln 10 - ln 11 < 2.
Proof.
  rewrite <- ln_mult by lra.
  assert (H : ln (6 * 10) < ln (11 * exp 2)).
  { apply ln_increasing; [lra|]. pose proof exp_2_lower. lra. }
  rewrite (ln_mult 11 (exp 2)) in H by (try lra; apply exp_pos).
  rewrite ln_exp in H. lra.
Qed.

Lemma ln_11_upper : ln 11 < ln 6 + ln 10.
Proof. rewrite <- ln_mult by lra. apply ln_increasing; lra. Qed.

Lemma hw_classify : classify hw_functions hw_alpha hw_X = Ok [1; 1; 1; 1; 1; -1; -1].
Proof.
  rewrite classify_offset. unfold hw_alpha. rewrite hw_weighted_vote.
  pose proof ln_6_10_11 as (H6 & H10 & H11).
  pose proof ln_60_over_11 as H60. pose proof ln_11_lower as H2.
  cbn [map_result map]. apply f_equal.
  repeat match goal with
         | |- context [Rltb ?a ?b] =>
             first [ rewrite (proj2 (Rltb_true a b)) by lra
                   | rewrite (proj2 (Rltb_false a b)) by lra ]
         end.
  reflexivity.
Qed.

(** Without the initial 1 every example of the data set is on the side of
    its label. *)
Lemma hw_weighted_vote_signs :
  exists F, spec_weighted_vote hw_functions hw_alpha hw_X = Ok F
            /\ Forall2 (fun Fi yi => 0 < yi * Fi) F hw_y.
Proof.
  eexists. split; [unfold hw_alpha; apply hw_weighted_vote|].
  pose proof ln_6_10_11 as (H6 & H10 & H11).
  pose proof ln_60_over_11 as H60. pose proof ln_11_lower as H2.
  pose proof ln_11_upper as H3.
  unfold hw_y. repeat (apply Forall2_cons; [lra|]). apply Forall2_nil.
Qed.

(** ** One round, entry by entry *)

Lemma reweight_sum_nonneg (w labels : list R) (a : R) (p : list R) :
  Forall (fun x => 0 <= x) w -> 0 <= np_sum (reweight w labels a p).
Proof.
  intros Hw. revert labels p.
  induction Hw as [|wi w Hwi _ IH]; intros [|yi ls] [|pi ps]; cbn [reweight];
    rewrite ?np_sum_nil; try lra.
  rewrite np_sum_cons. specialize (IH ls ps).
  pose proof (exp_pos (-1 * yi * a * pi)). cbv beta in Hwi. nra.
Qed.

Lemma weighted_error_nil (w labels p : list R) :
  w = [] \/ labels = [] \/ p = [] -> weighted_error w labels p = 0.
Proof.
  unfold weighted_error, not_equal.
  intros [ -> | [ -> | -> ] ]; [apply weighted_count_nil_l| |].
  - cbn [zip_with]. apply weighted_count_nil_r.
  - destruct labels; cbn [zip_with]; apply weighted_count_nil_r.
Qed.

Lemma reweight_sum_pos (w labels : list R) (a : R) (p : list R) :
  Forall (fun x => 0 <= x) w -> 0 < weighted_error w labels p ->
  0 < np_sum (reweight w labels a p).
Proof.
  intros Hw. revert labels p.
  induction Hw as [|wi w Hwi Hw IH]; intros labels p Hem.
  - rewrite weighted_error_nil in Hem by auto. lra.
  - destruct labels as [|yi ls]; [rewrite weighted_error_nil in Hem by auto; lra|].
    destruct p as [|pi ps]; [rewrite weighted_error_nil in Hem by auto; lra|].
    rewrite weighted_error_cons in Hem. cbn [reweight]. rewrite np_sum_cons.
    pose proof (exp_pos (-1 * yi * a * pi)) as He. cbv beta in Hwi.
    pose proof (reweight_sum_nonneg ls a ps Hw) as Hrest.
    destruct (Rlt_dec 0 (weighted_error w ls ps)) as [Hr|Hr].
    + specialize (IH ls ps Hr). nra.
    + assert (0 < wi) by (destruct (Reqb yi pi); nra). nra.
Qed.

Lemma reweight_nth (w labels : list R) (a : R) (p : list R) (j : nat) (wj yj pj : R) :
  nth_error w j = Some wj -> nth_error labels j = Some yj -> nth_error p j = Some pj ->
  nth_error (reweight w labels a p) j = Some (wj * exp (-1 * yj * a * pj)).
Proof.
  revert labels p j. induction w as [|wi w IH]; intros [|yi ls] [|pi ps] [|j];
    simpl; try discriminate.
  - intros H1 H2 H3. inversion H1; inversion H2; inversion H3. reflexivity.
  - apply IH.
Qed.

Lemma confidence_sign (em : R) :
  0 < em < 1 -> em < 1 / 2 -> 0 < 0.5 * ln ((1 - em) / em).
Proof.
  intros H Hh. assert (0 < ln ((1 - em) / em)); [|lra].
  rewrite <- ln_1. apply ln_increasing; [lra|].
  apply Rmult_lt_reg_r with em; [lra|].
  unfold Rdiv. rewrite Rmult_assoc, Rinv_l by lra. lra.
Qed.

(** Factors of the reweighting when the confidence weight is positive. *)
Lemma reweight_factor_gain (yi pi a : R) :
  pm_one yi -> pm_one pi -> 0 < a ->
  (yi <> pi -> 1 < exp (-1 * yi * a * pi)) /\ (yi = pi -> exp (-1 * yi * a * pi) < 1).
Proof.
  intros Hy Hp Ha. split; intros H.
  - rewrite (reweight_factor_differ a Hy Hp H). rewrite <- exp_0. now apply exp_increasing.
  - rewrite (reweight_factor_agree a Hy H). rewrite <- exp_Ropp, <- exp_0.
    apply exp_increasing. lra.
Qed.

(** * Degenerate rounds and the weight update *)

Lemma two_X_inj : two_X = inj_array two_X_Q.
Proof.
  unfold two_X, inj_array, two_X_Q. simpl.
  apply (f_equal (fun r => {| ncols := 1; rows := r |})).
  apply (f_equal2 cons); [list_of_reals|reflexivity].
Qed.

Lemma two_initial (T : nat) :
  initial_state two_X T
  = {| weights := map Q2R [1 # 2; 1 # 2]%Q; alphas := repeat 0 T; functions_of := [] |}.
Proof.
  unfold initial_state. simpl.
  apply (f_equal (fun w => {| weights := w; alphas := repeat 0 T; functions_of := [] |})).
  list_of_reals.
Qed.

Lemma separable_y_inj : separable_y = map Q2R [-1; 1]%Q.
Proof. unfold separable_y. simpl. list_of_reals. Qed.

Lemma constant_y_inj : constant_y = map Q2R [1; 1]%Q.
Proof. unfold constant_y. simpl. list_of_reals. Qed.

Lemma weighted_error_eval (wq yq pq : list Q) (e : Q) :
  Qeq_bool (weighted_count wq (not_equal yq pq)) e = true ->
  weighted_error (map Q2R wq) (map Q2R yq) (map Q2R pq) = Q2R e.
Proof.
  intros H. rewrite inj_weighted_error. now apply Qeq_eqR, Qeq_bool_iff.
Qed.

Lemma inline_predictions_eval (Xq : @ndarray Q_numeric) (f : nat) (t : Q) (op : string)
    (pq : list Q) :
  inline_predictions Xq f t op = Ok pq ->
  inline_predictions (inj_array Xq) f (Q2R t) op = Ok (map Q2R pq).
Proof. intros H. now rewrite inj_inline_predictions, H. Qed.

(** The first round on the separable labels. *)
Lemma two_separable_stump :
  best_decision_stump (weights (initial_state two_X 1)) two_X separable_y
  = Ok (Some 0%nat, Some 0.005, Some ">"%string).
Proof.
  rewrite two_initial, two_X_inj, separable_y_inj. cbn [weights].
  apply (@stump_check_sound two_X_Q _ _ 0 (5 # 1000) ">"). vm_compute. reflexivity.
Qed.

Lemma two_predictions : inline_predictions two_X 0 0.005 ">" = Ok [-1; 1].
Proof.
  rewrite two_X_inj.
  rewrite (@inline_predictions_eval two_X_Q 0 (5 # 1000) ">" [-1; 1]%Q)
    by (vm_compute; reflexivity).
  apply f_equal. simpl. list_of_reals.
Qed.

Lemma two_separable_error :
  weighted_error (weights (initial_state two_X 1)) separable_y [-1; 1] = 0.
Proof.
  rewrite two_initial, separable_y_inj. cbn [weights].
  replace [-1; 1] with (map Q2R [-1; 1]%Q) by (simpl; list_of_reals).
  rewrite (@weighted_error_eval _ _ _ 0) by (vm_compute; reflexivity). lra.
Qed.

(** C2 (counterexample).  Training one iteration on two examples that the
    threshold 0.005 separates reaches the division by zero: the selected
    stump has weighted error 0 and nothing guards the quotient
    [(1 - em) / em]. *)
Lemma separable_data_divides_by_zero :
  adaboost two_X separable_y 1 = Raise DivideByZero.
Proof.
  unfold adaboost. rewrite adaboost_state_S. unfold adaboost_state. simpl for_each.
  cbn [bind].
  rewrite (@boost_round_zero_error two_X separable_y (initial_state two_X 1) 0
             0 0.005 ">" [-1; 1] two_separable_stump two_predictions two_separable_error).
  reflexivity.
Qed.

(** C2 (amended).  A weighted error of exactly 0 or exactly 1 is not
    special-cased: with em = 0 the round stops at the division by zero in
    [(1 - em) / em], with em = 1 at the logarithm of zero. *)
Theorem degenerate_error_unguarded (X : @ndarray R_numeric) (labels : list R)
    (st : boost_state) (i : nat) (f : nat) (t : R) (op : string) (p : list R) :
  best_decision_stump (weights st) X labels = Ok (Some f, Some t, Some op) ->
  inline_predictions X f t op = Ok p ->
  (weighted_error (weights st) labels p = 0 ->
   boost_round X labels st i = Raise DivideByZero)
  /\ (weighted_error (weights st) labels p = 1 ->
      boost_round X labels st i = Raise LogDomain).
Proof.
  intros Hb Hp. split; intros Hem.
  - eapply boost_round_zero_error; eauto.
  - eapply boost_round_unit_error; eauto.
Qed.

Lemma degenerate_error_unguarded_witness :
  boost_round two_X separable_y (initial_state two_X 1) 0 = Raise DivideByZero.
Proof.
  apply (proj1 (@degenerate_error_unguarded two_X separable_y (initial_state two_X 1) 0
                  0 0.005 ">" [-1; 1] two_separable_stump two_predictions)).
  apply two_separable_error.
Defined.

(** The first round on the constant labels: every stump errs on half of
    the weight. *)
Lemma two_constant_round :
  boost_round two_X constant_y (initial_state two_X 1) 0
  = Ok {| weights := map Q2R [1 # 2; 1 # 2]%Q;
          alphas := [0.5 * ln 1];
          functions_of := [(0%nat, 0.005, ">"%string)] |}.
Proof.
  rewrite two_initial, two_X_inj, constant_y_inj.
  rewrite (@boost_round_check two_X_Q [1 # 2; 1 # 2]%Q [1; 1]%Q (repeat 0 1)
             [0.5 * ln (Q2R 1)] []
             0 0 (5 # 1000) ">" [1 # 2; 1 # 2]%Q 1);
    [|vm_compute; reflexivity|reflexivity].
  simpl. replace (Q2R 1) with 1 by lra. reflexivity.
Qed.

Lemma two_constant_error :
  weighted_error (weights (initial_state two_X 1)) constant_y [-1; 1] = 1 / 2.
Proof.
  rewrite two_initial, constant_y_inj. cbn [weights].
  replace [-1; 1] with (map Q2R [-1; 1]%Q) by (simpl; list_of_reals).
  rewrite (@weighted_error_eval _ _ _ (1 # 2)) by (vm_compute; reflexivity). lra.
Qed.

(** C7 (counterexample).  On two examples with the same label the first
    round has weighted error 1/2, strictly between 0 and 1.  Example 0 is
    misclassified (label 1, prediction -1), its weight is multiplied by
    [exp 0 = 1], and after the round it is 1/2 as before: it gains no
    weight. *)
Lemma constant_labels_no_gain :
  exists st' alpha_0,
    boost_round two_X constant_y (initial_state two_X 1) 0 = Ok st'
    /\ inline_predictions two_X 0 0.005 ">" = Ok [-1; 1]
    /\ 0 < weighted_error (weights (initial_state two_X 1)) constant_y [-1; 1] < 1
    /\ nth_error (alphas st') 0 = Some alpha_0
    /\ nth_error constant_y 0 = Some 1
    /\ exp (-1 * 1 * alpha_0 * -1) = 1
    /\ nth_error (weights (initial_state two_X 1)) 0 = Some (1 / 2)
    /\ nth_error (weights st') 0 = Some (1 / 2).
Proof.
  eexists. exists (0.5 * ln 1).
  split; [apply two_constant_round|].
  split; [apply two_predictions|].
  split; [rewrite two_constant_error; lra|].
  split; [reflexivity|].
  split; [reflexivity|].
  split; [rewrite ln_1; rewrite <- exp_0; apply f_equal; lra|].
  split; [rewrite two_initial|]; simpl; apply f_equal; lra.
Qed.

(** C7 (amended).  In a round whose weighted error em lies strictly
    between 0 and 1 the confidence weight is 0.5 * ln((1 - em) / em) and
    every example weight is multiplied by
    [exp (-1 * y_j * alpha * prediction_j)] and then divided by the sum of
    the products.  When moreover em < 1/2 the factor is above 1 for a
    misclassified example and below 1 for a correctly classified one. *)
Theorem boost_round_update (X : @ndarray R_numeric) (labels : list R)
    (st : boost_state) (i : nat) (f : nat) (t : R) (op : string) (p : list R) :
  best_decision_stump (weights st) X labels = Ok (Some f, Some t, Some op) ->
  inline_predictions X f t op = Ok p ->
  0 < weighted_error (weights st) labels p < 1 ->
  (i < List.length (alphas st))%nat ->
  Forall (fun wi => 0 <= wi) (weights st) ->
  Forall pm_one labels ->
  let em := weighted_error (weights st) labels p in
  let alpha_i := 0.5 * ln ((1 - em) / em) in
  exists st',
    boost_round X labels st i = Ok st'
    /\ nth_error (alphas st') i = Some alpha_i
    /\ forall j wj yj pj,
         nth_error (weights st) j = Some wj ->
         nth_error labels j = Some yj ->
         nth_error p j = Some pj ->
         nth_error (weights st') j
         = Some (wj * exp (-1 * yj * alpha_i * pj)
                 / np_sum (reweight (weights st) labels alpha_i p))
         /\ (em < 1 / 2 ->
             (yj <> pj -> 1 < exp (-1 * yj * alpha_i * pj))
             /\ (yj = pj -> exp (-1 * yj * alpha_i * pj) < 1)).
Proof.
  intros Hb Hp Hem Hi Hw Hy em alpha_i.
  destruct (@assign_ok (alphas st) i alpha_i Hi) as [al Hal].
  pose proof (@reweight_sum_pos (weights st) labels alpha_i p Hw (proj1 Hem)) as Hs.
  assert (Hn : normalize (reweight (weights st) labels alpha_i p)
               = Ok (map (fun wi => wi / np_sum (reweight (weights st) labels alpha_i p))
                         (reweight (weights st) labels alpha_i p))).
  { apply normalize_ok. as_real. lra. }
  eexists. split; [exact (boost_round_run _ _ _ _ Hb Hp Hem Hal Hn)|].
  cbn [alphas weights]. split; [exact (proj1 (assign_nth _ _ _ Hal))|].
  intros j wj yj pj Hwj Hyj Hpj. split.
  - rewrite (map_nth_error _ _ _ (reweight_nth _ _ alpha_i _ _ Hwj Hyj Hpj)). reflexivity.
  - intros Hh. apply reweight_factor_gain.
    + rewrite Forall_forall in Hy. apply Hy. eapply nth_error_In; eauto.
    + pose proof (inline_predictions_pm_one _ _ _ _ Hp) as Hpm.
      rewrite Forall_forall in Hpm. apply Hpm. eapply nth_error_In; eauto.
    + now apply confidence_sign.
Qed.

Lemma hw_first_stump :
  best_decision_stump (weights (initial_state hw_X 3)) hw_X hw_y
  = Ok (Some 0%nat, Some 0.205, Some "<"%string).
Proof.
  rewrite hw_initial, hw_X_inj, hw_y_inj. cbn [weights].
  apply (@stump_check_sound hw_X_Q _ _ 0 (205 # 1000) "<"). vm_compute. reflexivity.
Qed.

Lemma hw_uniform_error (pq : list Q) (e : Q) :
  Qeq_bool (weighted_count uniform7 (not_equal hw_y_Q pq)) e = true ->
  weighted_error (weights (initial_state hw_X 3)) hw_y (map Q2R pq) = Q2R e.
Proof.
  intros H. rewrite hw_initial, hw_y_inj. cbn [weights]. now apply weighted_error_eval.
Qed.

Lemma hw_first_error :
  weighted_error (weights (initial_state hw_X 3)) hw_y [-1; 1; 1; -1; 1; -1; -1] = 1 / 7.
Proof.
  replace [-1; 1; 1; -1; 1; -1; -1] with (map Q2R [-1; 1; 1; -1; 1; -1; -1]%Q)
    by (simpl; list_of_reals).
  rewrite (@hw_uniform_error _ (1 # 7)) by (vm_compute; reflexivity). lra.
Qed.

Lemma hw_classify_error :
  weighted_error (weights (initial_state hw_X 3)) hw_y [1; 1; 1; 1; 1; -1; -1] = 1 / 7.
Proof.
  replace [1; 1; 1; 1; 1; -1; -1] with (map Q2R [1; 1; 1; 1; 1; -1; -1]%Q)
    by (simpl; list_of_reals).
  rewrite (@hw_uniform_error _ (1 # 7)) by (vm_compute; reflexivity). lra.
Qed.

Lemma hw_labels_pm_one : Forall pm_one hw_y.
Proof. unfold hw_y, pm_one. repeat (apply Forall_cons; [lra|]). apply Forall_nil. Qed.

Lemma hw_initial_nonneg : Forall (fun wi => 0 <= wi) (weights (initial_state hw_X 3)).
Proof.
  destruct (initial_weights_positive hw_X 3) as [H _].
  eapply Forall_impl; [|exact H]. simpl. intros; lra.
Qed.

Lemma boost_round_update_witness :
  exists st',
    boost_round hw_X hw_y (initial_state hw_X 3) 0 = Ok st'
    /\ nth_error (alphas st') 0
       = Some (0.5 * ln ((1 - weighted_error (weights (initial_state hw_X 3)) hw_y
                                [-1; 1; 1; -1; 1; -1; -1])
                         / weighted_error (weights (initial_state hw_X 3)) hw_y
                             [-1; 1; 1; -1; 1; -1; -1])).
Proof.
  assert (Hem : 0 < weighted_error (weights (initial_state hw_X 3)) hw_y
                      [-1; 1; 1; -1; 1; -1; -1] < 1)
    by (rewrite hw_first_error; lra).
  assert (Hi : (0 < List.length (alphas (initial_state hw_X 3)))%nat) by (simpl; lia).
  destruct (@boost_round_update hw_X hw_y (initial_state hw_X 3) 0 0 0.205 "<"
              [-1; 1; 1; -1; 1; -1; -1] hw_first_stump hw_predictions_1 Hem Hi
              hw_initial_nonneg hw_labels_pm_one) as (st' & Hr & Ha & _).
  exists st'. split; [exact Hr|exact Ha].
Defined.

(** C8 (the run).  On the data set of [__main__], three iterations return
    three stumps with the alphas ln 6 / 2, ln 11 / 2 and ln 10 / 2.
    [classify] on the same data labels example 3 with +1 against its label
    -1, so its training error under the uniform weights is 1/7, the
    training error of the first stump alone: not strictly lower. *)
Theorem hw_boosting_no_better :
  adaboost hw_X hw_y 3 = Ok (hw_functions, hw_alpha)
  /\ List.length hw_functions = 3%nat /\ List.length hw_alpha = 3%nat
  /\ classify hw_functions hw_alpha hw_X = Ok [1; 1; 1; 1; 1; -1; -1]
  /\ weighted_error (weights (initial_state hw_X 3)) hw_y [1; 1; 1; 1; 1; -1; -1] = 1 / 7
  /\ best_decision_stump (weights (initial_state hw_X 3)) hw_X hw_y
     = Ok (Some 0%nat, Some 0.205, Some "<"%string)
  /\ stump_classification_result 0 0.205 "<" hw_X = Ok [-1; 1; 1; -1; 1; -1; -1]
  /\ weighted_error (weights (initial_state hw_X 3)) hw_y [-1; 1; 1; -1; 1; -1; -1] = 1 / 7.
Proof.
  split; [apply hw_adaboost|].
  split; [reflexivity|]. split; [reflexivity|].
  split; [apply hw_classify|].
  split; [apply hw_classify_error|].
  split; [apply hw_first_stump|].
  split; [|apply hw_first_error].
  rewrite hw_X_inj, (inj_stump_classification_result 0 (205 # 1000) "<" hw_X_Q).
  assert (E : stump_classification_result 0 (205 # 1000)%Q "<" hw_X_Q
              = Ok [-1; 1; 1; -1; 1; -1; -1]%Q) by (vm_compute; reflexivity).
  rewrite E. simpl. apply f_equal. list_of_reals.
Qed.

(** ** The predictor and the loss on one example *)

Lemma one_predictions : inline_predictions one_X 0 0.5 ">" = Ok [-1].
Proof.
  unfold inline_predictions, column, where_gt, one_X.
  cbn [String.eqb Ascii.eqb Bool.eqb ncols rows Nat.ltb Nat.leb bind map nth ltb R_numeric].
  rewrite (proj2 (Rltb_false 0.5 0)) by lra. now rewrite R_minus_one.
Qed.

Lemma one_weighted_vote : spec_weighted_vote one_stump [0.5] one_X = Ok [-0.5].
Proof.
  unfold spec_weighted_vote, one_stump. cbn [combine for_each vote_step].
  rewrite one_predictions.
  cbn [bind nrows one_X rows List.length repeat map zip_with add mul R_numeric].
  rewrite R_zero. apply f_equal. list_of_reals.
Qed.

(** C1 (failing input).  For the ensemble of the single stump
    [x_0 > 0.5] with alpha 0.5 and the example x = (0), the weighted vote is
    F(x) = -0.5, whose sign is -1, and [classify] returns +1: its
    accumulator starts at 1, not at 0. *)
Theorem classify_offset_flips_label :
  spec_weighted_vote one_stump [0.5] one_X = Ok [-0.5]
  /\ classify one_stump [0.5] one_X = Ok [1].
Proof.
  split; [apply one_weighted_vote|].
  rewrite classify_offset, one_weighted_vote. cbn [map_result map].
  now rewrite (proj2 (Rltb_true 0 (1 + -0.5))) by lra.
Qed.

Lemma empty_weighted_vote : spec_weighted_vote [] (@nil R) one_X = Ok [0].
Proof. unfold spec_weighted_vote. simpl. apply f_equal. list_of_reals. Qed.

(** C3 (failing input).  For the empty ensemble, the example x = (0) and
    the label 1, the weighted vote is F(x) = 0 and exp(-y F(x)) = 1, but
    the vector [loss] prints holds exp(-1), which is below 1. *)
Theorem loss_offset_on_empty_ensemble :
  spec_weighted_vote [] (@nil R) one_X = Ok [0]
  /\ loss [] [] one_X [1] = Ok [exp (-1)]
  /\ exp (-1) < exp (-1 * 1 * 0).
Proof.
  split; [apply empty_weighted_vote|]. split.
  - rewrite loss_offset, empty_weighted_vote. cbn [map_result zip_with].
    apply f_equal. apply (f_equal2 cons); [|reflexivity]. apply f_equal. lra.
  - apply exp_increasing. lra.
Qed.

(** ** Instances of the general theorems *)

Lemma inline_predictions_agree_witness :
  inline_predictions two_X 0 0.005 ">" = stump_classification_result 0 0.005 ">" two_X.
Proof.
  apply inline_predictions_agree; [now left|].
  intros col H. unfold column, two_X in H.
  cbn [ncols rows Nat.ltb Nat.leb map nth] in H. inversion H; subst col.
  intros [E|[E|[]]]; lra.
Defined.

Lemma narrow_column_max : column_max narrow_X 0 = Ok 0.305.
Proof.
  unfold column_max, column, narrow_X, np_max, maximum.
  cbn [ncols rows Nat.ltb Nat.leb map nth bind fold_left ltb R_numeric].
  now rewrite (proj2 (Rltb_true 0.30 0.305)) by lra.
Qed.

Lemma narrow_column_min : column_min narrow_X 0 = Ok 0.30.
Proof.
  unfold column_min, column, narrow_X, np_min, minimum.
  cbn [ncols rows Nat.ltb Nat.leb map nth bind fold_left ltb R_numeric].
  now rewrite (proj2 (Rltb_false 0.305 0.30)) by lra.
Qed.

Lemma empty_sweep_returns_none_witness :
  best_decision_stump [0.5; 0.5] narrow_X [1; -1] = Ok (None, None, None).
Proof.
  apply empty_sweep_returns_none.
  intros feature Hf. simpl in Hf. assert (feature = 0%nat) by lia. subst feature.
  exists 0.305, 0.30. split; [apply narrow_column_max|].
  split; [apply narrow_column_min|]. lra.
Defined.


Lemma hw_well_shaped : well_shaped hw_X.
Proof. unfold well_shaped, hw_X. simpl. repeat constructor. Qed.

Lemma weights_remain_distribution_witness :
  Forall (fun wi => 0 <= wi) (weights hw_state_3) /\ np_sum (weights hw_state_3) = 1.
Proof.
  apply (@weights_remain_distribution hw_X hw_y 3 3 hw_state_3).
  - apply hw_well_shaped.
  - reflexivity.
  - lia.
  - apply hw_after_3.
Defined.

Lemma adaboost_ensemble_shape_witness :
  List.length hw_functions = 3%nat /\ List.length hw_alpha = 3%nat
  /\ forall i, (i < 3)%nat ->
       exists st_i f t op p,
         adaboost_state hw_X hw_y 3 i = Ok st_i
         /\ best_decision_stump (weights st_i) hw_X hw_y = Ok (Some f, Some t, Some op)
         /\ inline_predictions hw_X f t op = Ok p
         /\ nth_error hw_functions i = Some (f, t, op)
         /\ nth_error hw_alpha i
            = Some (0.5 * ln ((1 - weighted_error (weights st_i) hw_y p)
                              / weighted_error (weights st_i) hw_y p)).
Proof.
  apply (@adaboost_ensemble_shape hw_X hw_y 3 hw_functions hw_alpha).
  apply hw_adaboost.
Defined.

(** * Further properties of the stump evaluator *)

Lemma sign_opp (x : R) : sign (- x) = - sign x.
Proof.
  destruct (Rtotal_order x 0) as [H|[H|H]].
  - rewrite (@sign_pos (- x)), (@sign_neg x) by lra. lra.
  - subst x. rewrite Ropp_0, sign_zero. lra.
  - rewrite (@sign_neg (- x)), (@sign_pos x) by lra. lra.
Qed.

Lemma sign_cases (x : R) :
  (x < 0 /\ sign x = -1) \/ (x = 0 /\ sign x = 0) \/ (0 < x /\ sign x = 1).
Proof.
  destruct (Rtotal_order x 0) as [H|[H|H]].
  - left. split; [exact H|now apply sign_neg].
  - right. left. subst x. split; [reflexivity|apply sign_zero].
  - right. right. split; [exact H|now apply sign_pos].
Qed.

Lemma evaluator_gt (X : @ndarray R_numeric) (feature : nat) (threshold : R) :
  stump_classification_result feature threshold ">" X
  = map_result (map (fun x => sign (x - threshold))) (column X feature).
Proof.
  unfold stump_classification_result. simpl String.eqb. cbv iota.
  now destruct (column X feature).
Qed.

Lemma evaluator_other (X : @ndarray R_numeric) (feature : nat) (threshold : R)
    (compare : string) :
  compare <> ">"%string ->
  stump_classification_result feature threshold compare X
  = map_result (map (fun x => sign (threshold - x))) (column X feature).
Proof.
  intros H. unfold stump_classification_result.
  rewrite (proj2 (String.eqb_neq compare ">") H).
  now destruct (column X feature).
Qed.

Lemma inline_lt (X : @ndarray R_numeric) (feature : nat) (threshold : R) :
  inline_predictions X feature threshold "<"
  = map_result (fun col => where_lt col threshold) (column X feature).
Proof.
  unfold inline_predictions. simpl String.eqb. cbv iota.
  now destruct (column X feature).
Qed.

Lemma inline_other (X : @ndarray R_numeric) (feature : nat) (threshold : R)
    (operator : string) :
  operator <> "<"%string ->
  inline_predictions X feature threshold operator
  = map_result (fun col => where_gt col threshold) (column X feature).
Proof.
  intros H. unfold inline_predictions.
  rewrite (proj2 (String.eqb_neq operator "<") H).
  now destruct (column X feature).
Qed.

Lemma where_gt_clamp (col : list R) (threshold : R) :
  where_gt col threshold = map (fun x => clamp (sign (x - threshold))) col.
Proof.
  unfold where_gt. apply map_ext. intros x. cbn [ltb R_numeric]. unfold clamp.
  destruct (sign_cases (x - threshold)) as [[H ->]|[[H ->]|[H ->]]].
  - rewrite (proj2 (Rltb_false threshold x)) by lra.
    rewrite (proj2 (Reqb_false (-1) 0)) by lra. apply R_minus_one.
  - rewrite (proj2 (Rltb_false threshold x)) by lra.
    rewrite (proj2 (Reqb_true 0 0)) by reflexivity. apply R_minus_one.
  - rewrite (proj2 (Rltb_true threshold x)) by lra.
    rewrite (proj2 (Reqb_false 1 0)) by lra. apply R_one.
Qed.

Lemma where_lt_clamp (col : list R) (threshold : R) :
  where_lt col threshold = map (fun x => clamp (sign (threshold - x))) col.
Proof.
  unfold where_lt. apply map_ext. intros x. cbn [ltb R_numeric]. unfold clamp.
  destruct (sign_cases (threshold - x)) as [[H ->]|[[H ->]|[H ->]]].
  - rewrite (proj2 (Rltb_false x threshold)) by lra.
    rewrite (proj2 (Reqb_false (-1) 0)) by lra. apply R_minus_one.
  - rewrite (proj2 (Rltb_false x threshold)) by lra.
    rewrite (proj2 (Reqb_true 0 0)) by reflexivity. apply R_minus_one.
  - rewrite (proj2 (Rltb_true x threshold)) by lra.
    rewrite (proj2 (Reqb_false 1 0)) by lra. apply R_one.
Qed.

(** X1.  On a feature of the data the evaluator returns one value per
    example, each of -1, 0 and 1, and the value is 0 exactly for the
    examples whose feature value equals the threshold. *)
Theorem evaluator_values (X : @ndarray R_numeric) (feature : nat) (threshold : R)
    (compare : string) (col : list R) :
  column X feature = Ok col ->
  exists labels,
    stump_classification_result feature threshold compare X = Ok labels
    /\ List.length labels = nrows X
    /\ Forall2 (fun x s => (s = -1 \/ s = 0 \/ s = 1) /\ (s = 0 <-> x = threshold))
               col labels.
Proof.
  intros Hc.
  assert (Hlen : List.length col = nrows X).
  { unfold column in Hc. destruct (feature <? ncols X)%nat; [|discriminate].
    inversion Hc. unfold nrows. now rewrite length_map. }
  destruct (string_dec compare ">") as [->|Hne].
  - rewrite evaluator_gt, Hc. cbn [map_result]. eexists. split; [reflexivity|].
    split; [now rewrite length_map|].
    clear. induction col as [|x col IH]; simpl; constructor; [|exact IH].
    destruct (sign_cases (x - threshold)) as [[H ->]|[[H ->]|[H ->]]];
      (split; [auto|split; intros; lra]).
  - rewrite (evaluator_other X feature threshold Hne), Hc. cbn [map_result].
    eexists. split; [reflexivity|]. split; [now rewrite length_map|].
    clear. induction col as [|x col IH]; simpl; constructor; [|exact IH].
    destruct (sign_cases (threshold - x)) as [[H ->]|[[H ->]|[H ->]]];
      (split; [auto|split; intros; lra]).
Qed.

Lemma two_column : column two_X 0 = Ok [0; 0.016].
Proof. reflexivity. Qed.

Lemma evaluator_values_witness :
  exists labels,
    stump_classification_result 0 0.005 ">" two_X = Ok labels
    /\ List.length labels = nrows two_X
    /\ Forall2 (fun x s => (s = -1 \/ s = 0 \/ s = 1) /\ (s = 0 <-> x = 0.005))
               [0; 0.016] labels.
Proof. apply evaluator_values. apply two_column. Defined.

(** X2.  A feature index outside the data raises IndexError in the
    evaluator and in the inline prediction alike. *)
Theorem feature_out_of_range (X : @ndarray R_numeric) (feature : nat) (threshold : R)
    (compare : string) :
  (ncols X <= feature)%nat ->
  stump_classification_result feature threshold compare X = Raise IndexError
  /\ inline_predictions X feature threshold compare = Raise IndexError.
Proof.
  intros H.
  assert (Hc : column X feature = Raise IndexError).
  { unfold column. now rewrite (proj2 (Nat.ltb_ge _ _) H). }
  unfold stump_classification_result, inline_predictions. rewrite Hc.
  split; [now destruct (String.eqb compare ">")|now destruct (String.eqb compare "<")].
Qed.

Lemma feature_out_of_range_witness :
  stump_classification_result 1 0.005 ">" two_X = Raise IndexError
  /\ inline_predictions two_X 1 0.005 ">" = Raise IndexError.
Proof. apply feature_out_of_range. simpl. lia. Defined.

(** X3.  Reversing the direction negates the evaluator's labels. *)
Theorem evaluator_direction_flip (X : @ndarray R_numeric) (feature : nat) (threshold : R) :
  stump_classification_result feature threshold ">" X
  = map_result (map Ropp) (stump_classification_result feature threshold "<" X).
Proof.
  rewrite evaluator_gt, (@evaluator_other X feature threshold "<") by discriminate.
  destruct (column X feature) as [col|]; cbn [map_result]; [|reflexivity].
  apply f_equal. rewrite map_map. apply map_ext. intros x.
  rewrite <- sign_opp. apply f_equal. lra.
Qed.

(** X4.  For a direction in {">", "<"} the inline prediction of the
    trainer and the predictor is the evaluator's label vector with every 0
    (an example on the threshold) replaced by -1. *)
Theorem inline_is_clamped_evaluator (X : @ndarray R_numeric) (feature : nat)
    (threshold : R) (compare : string) :
  (compare = ">" \/ compare = "<")%string ->
  inline_predictions X feature threshold compare
  = map_result (map clamp) (stump_classification_result feature threshold compare X).
Proof.
  intros [->| ->].
  - rewrite evaluator_gt, (@inline_other X feature threshold ">") by discriminate.
    destruct (column X feature) as [col|]; cbn [map_result]; [|reflexivity].
    apply f_equal. now rewrite where_gt_clamp, map_map.
  - rewrite (@evaluator_other X feature threshold "<") by discriminate.
    rewrite inline_lt.
    destruct (column X feature) as [col|]; cbn [map_result]; [|reflexivity].
    apply f_equal. now rewrite where_lt_clamp, map_map.
Qed.

Lemma inline_is_clamped_evaluator_witness :
  inline_predictions two_X 0 0 ">"
  = map_result (map clamp) (stump_classification_result 0 0 ">" two_X).
Proof. apply inline_is_clamped_evaluator. now left. Defined.

(** X5.  An operator string other than ">" and "<" is read as "<" by the
    evaluator and as ">" by the inline prediction: off the threshold the
    two then return opposite labels. *)
Theorem unknown_operator_disagrees (X : @ndarray R_numeric) (feature : nat)
    (threshold : R) (compare : string) :
  compare <> ">"%string -> compare <> "<"%string ->
  (forall col, column X feature = Ok col -> ~ In threshold col) ->
  inline_predictions X feature threshold compare
  = map_result (map Ropp) (stump_classification_result feature threshold compare X).
Proof.
  intros Hg Hl Hoff.
  rewrite (evaluator_other X feature threshold Hg), (inline_other X feature threshold Hl).
  destruct (column X feature) as [col|]; cbn [map_result]; [|reflexivity].
  specialize (Hoff col eq_refl). apply f_equal.
  rewrite where_gt_clamp, map_map. apply map_ext_in. intros x Hx.
  assert (Hne : x <> threshold) by (intros ->; auto).
  unfold clamp.
  destruct (sign_cases (x - threshold)) as [[H E]|[[H E]|[H E]]]; rewrite E.
  - rewrite (proj2 (Reqb_false (-1) 0)) by lra. rewrite sign_pos by lra. lra.
  - lra.
  - rewrite (proj2 (Reqb_false 1 0)) by lra. rewrite sign_neg by lra. lra.
Qed.

Lemma unknown_operator_disagrees_witness :
  inline_predictions two_X 0 0.005 "="
  = map_result (map Ropp) (stump_classification_result 0 0.005 "=" two_X).
Proof.
  apply unknown_operator_disagrees; try discriminate.
  intros col H. rewrite two_column in H. inversion H; subst col.
  intros [E|[E|[]]]; lra.
Defined.

(** * Further properties of the stump selector *)

Lemma traverse_nth {A B : Type} (f : A -> result B) (l : list A) (l' : list B) :
  traverse f l = Ok l' ->
  forall k a, nth_error l k = Some a -> exists b, nth_error l' k = Some b /\ f a = Ok b.
Proof.
  revert l'. induction l as [|x l IH]; intros l' H k a Hk; simpl in H.
  - now destruct k.
  - destruct (f x) as [b|] eqn:Ef; simpl in H; [|discriminate].
    destruct (traverse f l) as [bs|] eqn:Et; simpl in H; [|discriminate].
    inversion H; subst. destruct k; simpl in *.
    + inversion Hk; subst. eauto.
    + eapply IH; eauto.
Qed.

Lemma stump_error_defined (w : list R) (X : @ndarray R_numeric) (y : list R)
    (c : @stump R_numeric) :
  (fst (fst c) < ncols X)%nat -> exists e, stump_error w X y c = Ok e.
Proof.
  intros Hc. destruct c as [[f t] op]. simpl in Hc.
  unfold stump_error, stump_classification_result. rewrite column_ok by assumption.
  destruct (String.eqb op ">"); simpl; eauto.
Qed.

(** The search as one pass over the grid, from any starting state. *)
Lemma selector_pass (w : list R) (X : @ndarray R_numeric) (y : list R) :
  rows X <> [] \/ ncols X = 0%nat ->
  exists g es,
    grid X = Ok g
    /\ traverse (stump_error w X y) g = Ok es
    /\ forall s0, for_each (try_feature w X y) (seq 0 (ncols X)) s0
                  = Ok (fold_left pick (combine g es) s0).
Proof.
  intros H.
  assert (Hg : exists g, grid X = Ok g).
  { destruct H as [Hr|Hd].
    - apply grid_of_ok; [exact Hr|]. apply Forall_forall. intros f Hf.
      apply in_seq in Hf. lia.
    - unfold grid. rewrite Hd. simpl. eauto. }
  destruct Hg as [g Hg].
  pose proof (grid_of_in_range _ _ Hg) as Hrange.
  destruct (@traverse_ok _ _ (stump_error w X y) (fun _ => True) g) as (es & Hes & _).
  { apply Forall_forall. intros c Hc. rewrite Forall_forall in Hrange.
    destruct (@stump_error_defined w X y c (Hrange c Hc)) as [e He]. eauto. }
  exists g, es. split; [exact Hg|]. split; [exact Hes|].
  intros s0. rewrite (@features_pick w X y _ g s0 Hg). now apply for_each_consider.
Qed.

Lemma empty_data_raises (w : list R) (X : @ndarray R_numeric) (y : list R) :
  rows X = [] -> (0 < ncols X)%nat -> best_decision_stump w X y = Raise ValueError.
Proof.
  intros Hr Hd. unfold best_decision_stump.
  destruct (ncols X) as [|d] eqn:E; [lia|].
  cbn [seq for_each]. unfold try_feature, sweep, column_max, column.
  rewrite E, Hr. reflexivity.
Qed.

(** Members of the grid. *)
Lemma grid_of_member (X : @ndarray R_numeric) (fs : list nat) (g : list stump)
    (f : nat) (t : R) (op : string) :
  grid_of X fs = Ok g -> In (f, t, op) g ->
  In f fs /\ (op = ">" \/ op = "<")%string
  /\ exists ths, sweep X f = Ok ths /\ In t ths.
Proof.
  revert g. induction fs as [|f0 fs IH]; intros g H Hin; simpl in H.
  - inversion H; subst. destruct Hin.
  - destruct (sweep X f0) as [ths|] eqn:Es; simpl in H; [|discriminate].
    destruct (grid_of X fs) as [g'|]; simpl in H; [|discriminate].
    inversion H; subst g. apply in_app_or in Hin. destruct Hin as [Hin|Hin].
    + apply in_flat_map in Hin. destruct Hin as (t0 & Ht0 & Hd).
      destruct Hd as [E|[E|[]]]; inversion E; subst;
        (split; [now left|split; [auto|eauto]]).
    + destruct (IH g' eq_refl Hin) as (Hf & Hop & Hths). split; [now right|auto].
Qed.

Lemma grid_of_siblings (X : @ndarray R_numeric) (fs : list nat) (g : list stump)
    (f : nat) (t : R) (ths : list R) :
  grid_of X fs = Ok g -> In f fs -> sweep X f = Ok ths -> In t ths ->
  In (f, t, ">"%string) g /\ In (f, t, "<"%string) g.
Proof.
  revert g. induction fs as [|f0 fs IH]; intros g H Hf Hs Ht; simpl in H; [destruct Hf|].
  destruct (sweep X f0) as [ths0|] eqn:Es; simpl in H; [|discriminate].
  destruct (grid_of X fs) as [g'|]; simpl in H; [|discriminate].
  inversion H; subst g. destruct Hf as [->|Hf].
  - rewrite Hs in Es. inversion Es; subst ths0.
    split; apply in_or_app; left; apply in_flat_map; exists t; (split; [exact Ht|]);
      simpl; auto.
  - destruct (IH g' eq_refl Hf Hs Ht). split; apply in_or_app; right; assumption.
Qed.

Lemma nth_error_combine {A B : Type} (l : list A) (l' : list B) (k : nat) (a : A) (b : B) :
  nth_error l k = Some a -> nth_error l' k = Some b ->
  nth_error (combine l l') k = Some (a, b).
Proof.
  revert l' k. induction l as [|x l IH]; intros [|x' l'] [|k]; simpl; try discriminate.
  - intros H1 H2. inversion H1; inversion H2. reflexivity.
  - apply IH.
Qed.

(** What the search returns, in terms of the grid. *)
Lemma selector_result (w : list R) (X : @ndarray R_numeric) (y : list R) :
  rows X <> [] \/ ncols X = 0%nat ->
  exists g es,
    grid X = Ok g
    /\ traverse (stump_error w X y) g = Ok es
    /\ (best_decision_stump w X y = Ok (None, None, None)
        \/ exists k f t op,
             nth_error g k = Some (f, t, op)
             /\ best_decision_stump w X y = Ok (Some f, Some t, Some op)
             /\ first_minimum es k).
Proof.
  intros H. destruct (@selector_pass w X y H) as (g & es & Hg & Hes & Hrun).
  exists g, es. split; [exact Hg|]. split; [exact Hes|].
  pose proof (traverse_length _ _ Hes) as Hlen.
  unfold best_decision_stump. rewrite Hrun. cbn [bind].
  match goal with |- context [fold_left pick _ ?s] => set (s0 := s) end.
  destruct (fold_pick_first_minimum (combine g es) s0)
    as [[Hs _]|(k & f & t & op & Hk & Hf & Ht & Ho & Hmin & _)].
  - left. cbv zeta in Hs. rewrite Hs. reflexivity.
  - right. rewrite map_fst_combine in Hk by assumption.
    rewrite map_snd_combine in Hmin by assumption.
    exists k, f, t, op. rewrite Hf, Ht, Ho. auto.
Qed.

Lemma selector_raise_cases (w : list R) (X : @ndarray R_numeric) (y : list R) (e : error) :
  best_decision_stump w X y = Raise e ->
  e = ValueError /\ rows X = [] /\ (0 < ncols X)%nat.
Proof.
  intros H. destruct (rows X) as [|r rs] eqn:Er.
  - destruct (ncols X) as [|d] eqn:Ed.
    + destruct (@selector_result w X y (or_intror Ed)) as (g & es & _ & _ & [Hn|Hsome]).
      * rewrite Hn in H. discriminate.
      * destruct Hsome as (k & f & t & op & _ & Hb & _). rewrite Hb in H. discriminate.
    + rewrite (@empty_data_raises w X y Er) in H by lia. inversion H.
      repeat split; auto. lia.
  - assert (Hr : rows X <> []) by (rewrite Er; discriminate).
    destruct (@selector_result w X y (or_introl Hr)) as (g & es & _ & _ & [Hn|Hsome]).
    + rewrite Hn in H. discriminate.
    + destruct Hsome as (k & f & t & op & _ & Hb & _). rewrite Hb in H. discriminate.
Qed.

Lemma selector_feature_in_range (w : list R) (X : @ndarray R_numeric) (y : list R)
    (f : nat) (t : R) (op : string) :
  best_decision_stump w X y = Ok (Some f, Some t, Some op) -> (f < ncols X)%nat.
Proof.
  intros Hb.
  assert (H : rows X <> [] \/ ncols X = 0%nat).
  { destruct (rows X) as [|r rs] eqn:Er; [|left; discriminate].
    destruct (ncols X) as [|d] eqn:Ed; [now right|].
    rewrite (@empty_data_raises w X y Er) in Hb by lia. discriminate. }
  destruct (@selector_result w X y H) as (g & es & Hg & _ & [Hn|Hsome]).
  - rewrite Hn in Hb. discriminate.
  - destruct Hsome as (k & f' & t' & op' & Hk & Hb' & _).
    rewrite Hb' in Hb. inversion Hb; subst f' t' op'.
    destruct (@grid_of_member X _ g f t op Hg (nth_error_In _ _ Hk)) as (Hf & _).
    apply in_seq in Hf. lia.
Qed.

(** X6.  On weights and labels of the data's length the selector raises
    only ValueError, and exactly on a data set without examples but with at
    least one feature: [np.max] has nothing to reduce.  This holds whatever
    thresholds [np.arange] returns. *)
Theorem selector_raises_only_on_empty_data (np_arange : R -> R -> R -> list R)
    (w : list R) (X : @ndarray R_numeric) (y : list R) (e : error) :
  List.length w = nrows X -> List.length y = nrows X ->
  (best_decision_stump_with np_arange w X y = Raise e
   <-> e = ValueError /\ rows X = [] /\ (0 < ncols X)%nat).
Proof.
  intros _ _. split.
  - apply selector_raise_cases_with.
  - intros (-> & Hr & Hd). now apply empty_data_raises_with.
Qed.

Lemma selector_raises_only_on_empty_data_witness :
  best_decision_stump_with arange [] {| ncols := 2; rows := [] |} [] = Raise ValueError
  <-> ValueError = ValueError
      /\ rows {| ncols := 2; rows := @nil (list R) |} = [] /\ (0 < 2)%nat.
Proof.
  apply (@selector_raises_only_on_empty_data arange [] {| ncols := 2; rows := [] |} []
           ValueError); reflexivity.
Defined.

(** X7.  On a non-empty data set, with weights and labels of its length,
    the selector never raises.  It returns either (None, None, None) or a
    complete stump: a feature index of the data, one of the operators ">"
    and "<", and one of the thresholds that [np.arange] returned for that
    feature. *)
Theorem selector_returns_stump_of_data (np_arange : R -> R -> R -> list R)
    (w : list R) (X : @ndarray R_numeric) (y : list R) :
  List.length w = nrows X -> List.length y = nrows X -> rows X <> [] ->
  best_decision_stump_with np_arange w X y = Ok (None, None, None)
  \/ exists f t op ths,
       best_decision_stump_with np_arange w X y = Ok (Some f, Some t, Some op)
       /\ (f < ncols X)%nat
       /\ (op = ">" \/ op = "<")%string
       /\ sweep_with np_arange X f = Ok ths /\ In t ths.
Proof.
  intros _ _ Hr.
  destruct (@selector_result_with np_arange w X y (or_introl Hr))
    as (g & es & Hg & _ & [Hn|Hsome]).
  - now left.
  - right. destruct Hsome as (k & f & t & op & Hk & Hb & _).
    apply nth_error_In in Hk.
    destruct (@grid_of_with_member np_arange X _ g f t op Hg Hk)
      as (Hf & Hop & ths & Hs & Ht).
    exists f, t, op, ths. apply in_seq in Hf. repeat split; auto; lia.
Qed.

Lemma selector_returns_stump_of_data_witness :
  best_decision_stump_with arange [0.5; 0.5] two_X separable_y = Ok (None, None, None)
  \/ exists f t op ths,
       best_decision_stump_with arange [0.5; 0.5] two_X separable_y
       = Ok (Some f, Some t, Some op)
       /\ (f < ncols two_X)%nat
       /\ (op = ">" \/ op = "<")%string
       /\ sweep_with arange two_X f = Ok ths /\ In t ths.
Proof.
  apply selector_returns_stump_of_data; [reflexivity|reflexivity|discriminate].
Defined.

(** X8.  A data set of a single example has no candidate: whatever the
    weights and the label, the selector returns (None, None, None). *)
Theorem selector_single_example (w : list R) (X : @ndarray R_numeric) (y : list R) :
  nrows X = 1%nat -> best_decision_stump w X y = Ok (None, None, None).
Proof.
  intros Hn.
  assert (Hr : rows X <> []) by (intros E; unfold nrows in Hn; rewrite E in Hn; discriminate).
  destruct (@selector_result w X y (or_introl Hr)) as (g & es & Hg & _ & [H|Hsome]);
    [exact H|].
  destruct Hsome as (k & f & t & op & Hk & _).
  assert (Hne : g <> []) by (intros E; subst g; now destruct k).
  pose proof (@grid_of_two_rows X _ g Hg Hne). lia.
Qed.

Lemma selector_single_example_witness :
  best_decision_stump [1] one_X [1] = Ok (None, None, None).
Proof. apply selector_single_example. reflexivity. Defined.

(** ** The selected stump is no worse than chance *)

Lemma not_equal_cons (a b : R) (l l' : list R) :
  not_equal (a :: l) (b :: l') = negb (Reqb a b) :: not_equal l l'.
Proof. reflexivity. Qed.

(** Off the threshold the two directions err on complementary examples. *)
Lemma directions_complement (w col y : list R) (t : R) :
  List.length col = List.length w -> List.length y = List.length w ->
  Forall pm_one y -> ~ In t col ->
  weighted_count w (not_equal (map (fun x => sign (x - t)) col) y)
  + weighted_count w (not_equal (map (fun x => sign (t - x)) col) y)
  = np_sum w.
Proof.
  revert col y. induction w as [|wi w IH]; intros [|x col] [|yi y] Hc Hy Hpm Hoff;
    simpl in Hc, Hy; try discriminate.
  - rewrite !weighted_count_nil_l, np_sum_nil. as_real. lra.
  - inversion Hpm as [|? ? Hyi Hys]; subst.
    assert (Hx : x <> t) by (intros ->; apply Hoff; now left).
    assert (Hoff' : ~ In t col) by (intros H; apply Hoff; now right).
    cbn [map]. rewrite !not_equal_cons, !weighted_count_cons, np_sum_cons.
    specialize (IH col y ltac:(lia) ltac:(lia) Hys Hoff').
    assert (Hw : wi * (if negb (Reqb (sign (x - t)) yi) then 1 else 0)
                 + wi * (if negb (Reqb (sign (t - x)) yi) then 1 else 0) = wi).
    { destruct (Rtotal_order x t) as [H|[H|H]]; [|contradiction|].
      - rewrite (@sign_neg (x - t)), (@sign_pos (t - x)) by lra.
        destruct Hyi; subst yi.
        + rewrite (proj2 (Reqb_false (-1) 1)), (proj2 (Reqb_true 1 1)) by lra.
          simpl. lra.
        + rewrite (proj2 (Reqb_true (-1) (-1))), (proj2 (Reqb_false 1 (-1))) by lra.
          simpl. lra.
      - rewrite (@sign_pos (x - t)), (@sign_neg (t - x)) by lra.
        destruct Hyi; subst yi.
        + rewrite (proj2 (Reqb_true 1 1)), (proj2 (Reqb_false (-1) 1)) by lra.
          simpl. lra.
        + rewrite (proj2 (Reqb_false 1 (-1))), (proj2 (Reqb_true (-1) (-1))) by lra.
          simpl. lra. }
    as_real. lra.
Qed.

Lemma stump_error_gt (w : list R) (X : @ndarray R_numeric) (y : list R) (f : nat) (t : R)
    (col : list R) :
  column X f = Ok col ->
  stump_error w X y (f, t, ">"%string)
  = Ok (weighted_count w (not_equal (map (fun x => sign (x - t)) col) y)).
Proof.
  intros Hc. unfold stump_error. rewrite evaluator_gt, Hc. reflexivity.
Qed.

Lemma stump_error_lt (w : list R) (X : @ndarray R_numeric) (y : list R) (f : nat) (t : R)
    (col : list R) :
  column X f = Ok col ->
  stump_error w X y (f, t, "<"%string)
  = Ok (weighted_count w (not_equal (map (fun x => sign (t - x)) col) y)).
Proof.
  intros Hc. unfold stump_error.
  rewrite (@evaluator_other X f t "<") by discriminate. rewrite Hc. reflexivity.
Qed.

Lemma column_length (X : @ndarray R_numeric) (f : nat) (col : list R) :
  column X f = Ok col -> List.length col = nrows X.
Proof.
  unfold column. destruct (f <? ncols X)%nat; [|discriminate].
  intros H. inversion H. unfold nrows. now rewrite length_map.
Qed.

Lemma selector_error_bound (w : list R) (X : @ndarray R_numeric) (y : list R)
    (f : nat) (t : R) (op : string) :
  List.length w = nrows X -> List.length y = nrows X ->
  Forall (fun wi => 0 <= wi) w -> np_sum w = 1 -> Forall pm_one y ->
  best_decision_stump w X y = Ok (Some f, Some t, Some op) ->
  (forall col, column X f = Ok col -> ~ In t col) ->
  (op = ">" \/ op = "<")%string
  /\ exists e, stump_error w X y (f, t, op) = Ok e /\ 0 <= e <= 1 / 2.
Proof.
  intros Hlw Hly Hw Hsum Hpm Hb Hoff.
  assert (Hr : rows X <> []).
  { intros E. destruct (ncols X) as [|d] eqn:Ed.
    - unfold best_decision_stump in Hb. rewrite Ed in Hb. simpl in Hb. discriminate.
    - rewrite (@empty_data_raises w X y E) in Hb by lia. discriminate. }
  destruct (@selector_result w X y (or_introl Hr)) as (g & es & Hg & Hes & [Hn|Hsome]).
  { rewrite Hn in Hb. discriminate. }
  destruct Hsome as (k & f' & t' & op' & Hk & Hb' & Hmin).
  rewrite Hb' in Hb. inversion Hb; subst f' t' op'. clear Hb.
  destruct (@grid_of_member X _ g f t op Hg (nth_error_In _ _ Hk))
    as (Hf & Hop & ths & Hs & Ht).
  destruct (@grid_of_siblings X _ g f t ths Hg Hf Hs Ht) as [Hgt Hlt].
  destruct (traverse_nth _ _ Hes _ Hk) as (e & Hek & He).
  destruct Hmin as (e0 & He0 & Hle & _). as_real.
  rewrite Hek in He0. inversion He0; subst e0.
  apply in_seq in Hf.
  pose proof (@column_ok X f ltac:(lia)) as Hc.
  set (col := map (fun r => nth f r 0) (rows X)) in *.
  pose proof (column_length _ _ Hc) as Hcl.
  specialize (Hoff col Hc).
  pose proof (@directions_complement w col y t ltac:(lia) ltac:(lia) Hpm Hoff) as Hcomp.
  apply In_nth_error in Hgt. destruct Hgt as [j1 Hj1].
  apply In_nth_error in Hlt. destruct Hlt as [j2 Hj2].
  destruct (traverse_nth _ _ Hes _ Hj1) as (e1 & He1k & He1).
  destruct (traverse_nth _ _ Hes _ Hj2) as (e2 & He2k & He2).
  rewrite (@stump_error_gt w X y f t col Hc) in He1.
  rewrite (@stump_error_lt w X y f t col Hc) in He2.
  injection He1 as E1. injection He2 as E2.
  pose proof (Hle _ _ He1k) as L1. pose proof (Hle _ _ He2k) as L2.
  as_real. rewrite E1, E2 in Hcomp.
  split; [exact Hop|]. exists e. split; [exact He|].
  assert (H0 : 0 <= e).
  { destruct Hop as [-> | ->].
    - rewrite (@stump_error_gt w X y f t col Hc) in He. inversion He.
      apply weighted_count_bounds. exact Hw.
    - rewrite (@stump_error_lt w X y f t col Hc) in He. inversion He.
      apply weighted_count_bounds. exact Hw. }
  as_real. rewrite Hsum in Hcomp. lra.
Qed.

Lemma Reqb_sym (a b : R) : Reqb a b = Reqb b a.
Proof.
  destruct (Reqb b a) eqn:E.
  - apply Reqb_true in E. now apply Reqb_true.
  - apply Reqb_false in E. apply Reqb_false. congruence.
Qed.

Lemma not_equal_sym (a b : list R) : not_equal a b = not_equal b a.
Proof.
  revert b. induction a as [|x a IH]; intros [|z b]; try reflexivity.
  rewrite !not_equal_cons, IH. now rewrite Reqb_sym.
Qed.

Lemma clamp_sign_off_threshold (col : list R) (g : R -> R) :
  (forall x, In x col -> g x <> 0) ->
  map (fun x => clamp (sign (g x))) col = map (fun x => sign (g x)) col.
Proof.
  intros H. apply map_ext_in. intros x Hx. specialize (H x Hx). unfold clamp.
  destruct (sign_cases (g x)) as [[Hc ->]|[[Hc ->]|[Hc ->]]]; [|contradiction|].
  - now rewrite (proj2 (Reqb_false (-1) 0)) by lra.
  - now rewrite (proj2 (Reqb_false 1 0)) by lra.
Qed.

(** Off the threshold the trainer's weighted error of a stump is the
    selector's. *)
Lemma trainer_error_is_selector_error (w : list R) (X : @ndarray R_numeric) (y : list R)
    (f : nat) (t : R) (op : string) (e : R) :
  (op = ">" \/ op = "<")%string ->
  (forall col, column X f = Ok col -> ~ In t col) ->
  stump_error w X y (f, t, op) = Ok e ->
  exists p, inline_predictions X f t op = Ok p /\ weighted_error w y p = e.
Proof.
  intros Hop Hoff He. unfold stump_error in He.
  destruct Hop as [-> | ->].
  - rewrite evaluator_gt in He. rewrite (@inline_other X f t ">") by discriminate.
    destruct (column X f) as [col|]; [|discriminate]. specialize (Hoff col eq_refl).
    cbn [map_result bind] in *. eexists. split; [reflexivity|].
    unfold weighted_error. rewrite not_equal_sym, where_gt_clamp.
    rewrite clamp_sign_off_threshold; [congruence|].
    intros x Hx E. apply Hoff. replace t with x by lra. exact Hx.
  - rewrite (@evaluator_other X f t "<") in He by discriminate. rewrite inline_lt.
    destruct (column X f) as [col|]; [|discriminate]. specialize (Hoff col eq_refl).
    cbn [map_result bind] in *. eexists. split; [reflexivity|].
    unfold weighted_error. rewrite not_equal_sym, where_lt_clamp.
    rewrite clamp_sign_off_threshold; [congruence|].
    intros x Hx E. apply Hoff. replace t with x by lra. exact Hx.
Qed.

(** X9.  When the weights are non-negative and sum to 1, the labels are in
    {-1, +1} and no example lies on the returned threshold, the weighted
    error of the returned stump is at most 1/2: the search tries both
    directions of every threshold, and their errors add up to 1.  The
    weighted error the trainer computes for that stump is the same number. *)
Theorem selected_error_at_most_half (w : list R) (X : @ndarray R_numeric) (y : list R)
    (f : nat) (t : R) (op : string) :
  List.length w = nrows X -> List.length y = nrows X ->
  Forall (fun wi => 0 <= wi) w -> np_sum w = 1 -> Forall pm_one y ->
  best_decision_stump w X y = Ok (Some f, Some t, Some op) ->
  (forall col, column X f = Ok col -> ~ In t col) ->
  exists e p,
    stump_error w X y (f, t, op) = Ok e
    /\ inline_predictions X f t op = Ok p
    /\ weighted_error w y p = e
    /\ 0 <= e <= 1 / 2.
Proof.
  intros Hlw Hly Hw Hsum Hpm Hb Hoff.
  destruct (@selector_error_bound w X y f t op Hlw Hly Hw Hsum Hpm Hb Hoff)
    as (Hop & e & He & Hbound).
  destruct (@trainer_error_is_selector_error w X y f t op e Hop Hoff He) as (p & Hp & Hwe).
  exists e, p. auto.
Qed.

Lemma selected_error_at_most_half_witness :
  exists e p,
    stump_error (weights (initial_state two_X 1)) two_X separable_y
      (0%nat, 0.005, ">"%string) = Ok e
    /\ inline_predictions two_X 0 0.005 ">" = Ok p
    /\ weighted_error (weights (initial_state two_X 1)) separable_y p = e
    /\ 0 <= e <= 1 / 2.
Proof.
  apply selected_error_at_most_half.
  - reflexivity.
  - reflexivity.
  - destruct (initial_weights_positive two_X 1) as [H _].
    eapply Forall_impl; [|exact H]. simpl. intros; lra.
  - rewrite two_initial. cbn [weights map]. rewrite !np_sum_cons, np_sum_nil. lra.
  - unfold separable_y, pm_one. repeat (apply Forall_cons; [lra|]). apply Forall_nil.
  - apply two_separable_stump.
  - intros col H. rewrite two_column in H. inversion H; subst col.
    intros [E|[E|[]]]; lra.
Defined.

(** * Further properties of the trainer *)


Lemma first_round_raises (X : @ndarray R_numeric) (labels : list R) (T : nat) (e : error) :
  (1 <= T)%nat ->
  boost_round X labels (initial_state X T) 0 = Raise e ->
  adaboost X labels T = Raise e.
Proof.
  intros HT H. unfold adaboost, adaboost_state.
  destruct T as [|T]; [lia|]. cbn [seq for_each]. rewrite H. reflexivity.
Qed.




(** X11.  On a data set without examples but with at least one feature
    every run of at least one iteration raises ValueError, and a run of zero
    iterations returns the empty ensemble. *)
Theorem adaboost_empty_data (X : @ndarray R_numeric) (labels : list R) (T : nat) :
  rows X = [] -> (0 < ncols X)%nat ->
  adaboost X labels 0 = Ok ([], [])
  /\ ((1 <= T)%nat -> adaboost X labels T = Raise ValueError).
Proof.
  intros Hr Hd. split; [reflexivity|]. intros HT.
  apply first_round_raises; [exact HT|].
  unfold boost_round. now rewrite (@empty_data_raises _ X labels Hr Hd).
Qed.

Lemma adaboost_empty_data_witness :
  adaboost {| ncols := 2; rows := [] |} [] 0 = Ok ([], [])
  /\ ((1 <= 2)%nat -> adaboost {| ncols := 2; rows := [] |} [] 2 = Raise ValueError).
Proof. apply adaboost_empty_data; simpl; [reflexivity|lia]. Defined.

(** ** A longer run extends a shorter one *)

Lemma assign_app (a pad : list R) (i : nat) (v : R) :
  (i < List.length a)%nat ->
  assign (a ++ pad) i v = map_result (fun r => r ++ pad) (assign a i v).
Proof.
  revert i. induction a as [|x a IH]; intros i H; simpl in H; [lia|].
  destruct i; [reflexivity|]. cbn [app assign]. rewrite IH by lia.
  now destruct (assign a i v).
Qed.

Lemma assign_firstn (a : list R) (i : nat) (v : R) (a' : list R) (k : nat) :
  assign a i v = Ok a' -> (k <= i)%nat -> firstn k a' = firstn k a.
Proof.
  revert i a' k. induction a as [|x a IH]; intros i a' k H Hk; simpl in H; [discriminate|].
  destruct i.
  - assert (k = 0%nat) by lia. subst k. reflexivity.
  - destruct (assign a i v) as [r|] eqn:E; simpl in H; [|discriminate].
    inversion H; subst a'. destruct k; [reflexivity|].
    simpl. f_equal. apply (IH i); [exact E|lia].
Qed.

Lemma boost_round_padded (X : @ndarray R_numeric) (labels : list R)
    (st : boost_state) (pad : list R) (i : nat) (st' : boost_state) :
  (i < List.length (alphas st))%nat ->
  boost_round X labels (padded st pad) i = Ok st' ->
  exists st0, boost_round X labels st i = Ok st0 /\ st' = padded st0 pad.
Proof.
  intros Hi H. apply boost_round_inv in H.
  destruct H as (f & t & op & p & Hb & Hp & Hem & Has & Hfs & Hn).
  cbn [padded weights alphas functions_of] in *.
  rewrite assign_app in Has by exact Hi.
  destruct (assign (alphas st) i _) as [al0|] eqn:Ea; [|discriminate].
  cbn [map_result] in Has. inversion Has as [Hal].
  eexists. split; [exact (boost_round_run _ _ _ _ Hb Hp Hem Ea Hn)|].
  destruct st' as [w' al' fs']. unfold padded. cbn [weights alphas functions_of] in *.
  now subst.
Qed.

Lemma initial_padded (X : @ndarray R_numeric) (k T : nat) :
  (k <= T)%nat -> initial_state X T = padded (initial_state X k) (repeat 0 (T - k)).
Proof.
  intros H. unfold initial_state, padded. cbn [weights alphas functions_of].
  rewrite <- repeat_app. now replace (k + (T - k))%nat with T by lia.
Qed.

Lemma adaboost_state_padded (X : @ndarray R_numeric) (labels : list R) (k T j : nat)
    (stT : boost_state) :
  (k <= T)%nat -> (j <= k)%nat ->
  adaboost_state X labels T j = Ok stT ->
  exists stk, adaboost_state X labels k j = Ok stk
              /\ stT = padded stk (repeat 0 (T - k)).
Proof.
  intros HkT. revert stT. induction j as [|j IH]; intros stT Hj H.
  - unfold adaboost_state in *. simpl in *. inversion H.
    eexists. split; [reflexivity|]. now apply initial_padded.
  - rewrite adaboost_state_S in H.
    destruct (adaboost_state X labels T j) as [st|] eqn:E; simpl in H; [|discriminate].
    destruct (IH st ltac:(lia) eq_refl) as (stk & Hk & ->).
    destruct (adaboost_state_shape _ _ _ _ Hk) as (_ & Hlen & _).
    destruct (@boost_round_padded X labels stk _ j stT ltac:(lia) H) as (st0 & H0 & ->).
    exists st0. split; [|reflexivity]. rewrite adaboost_state_S, Hk. exact H0.
Qed.

Lemma adaboost_state_later (X : @ndarray R_numeric) (labels : list R) (T k m : nat)
    (stm : boost_state) :
  (k <= m)%nat ->
  adaboost_state X labels T m = Ok stm ->
  exists stk, adaboost_state X labels T k = Ok stk
              /\ firstn k (functions_of stm) = functions_of stk
              /\ firstn k (alphas stm) = firstn k (alphas stk).
Proof.
  revert stm. induction m as [|m IH]; intros stm Hk H.
  - assert (k = 0%nat) by lia. subst k. exists stm. repeat split; auto.
    destruct (adaboost_state_shape _ _ _ _ H) as (Hf & _).
    destruct (functions_of stm); [reflexivity|discriminate].
  - destruct (Nat.eq_dec k (S m)) as [->|Hne].
    + exists stm. split; [exact H|]. split; [|reflexivity].
      destruct (adaboost_state_shape _ _ _ _ H) as (Hf & _).
      rewrite <- Hf. apply firstn_all.
    + rewrite adaboost_state_S in H.
      destruct (adaboost_state X labels T m) as [st|] eqn:E; simpl in H; [|discriminate].
      destruct (IH st ltac:(lia) eq_refl) as (stk & Hstk & Hfk & Hak).
      destruct (adaboost_state_shape _ _ _ _ E) as (Hf & _).
      destruct (boost_round_inv _ _ _ _ H) as (f & t & op & p & _ & _ & _ & Has & Hfs & _).
      exists stk. split; [exact Hstk|]. split.
      * rewrite Hfs, firstn_app, Hf.
        replace (k - m)%nat with 0%nat by lia. simpl. rewrite app_nil_r. exact Hfk.
      * rewrite (assign_firstn _ _ Has) by lia. exact Hak.
Qed.

(** X12.  A run of [T] iterations extends every shorter run: for k <= T the
    run of k iterations returns, and it returns the first k stumps and
    alphas of the longer run. *)
Theorem adaboost_prefix (X : @ndarray R_numeric) (labels : list R) (T k : nat)
    (fs : list stump) (al : list R) :
  adaboost X labels T = Ok (fs, al) -> (k <= T)%nat ->
  adaboost X labels k = Ok (firstn k fs, firstn k al).
Proof.
  unfold adaboost. intros H Hk.
  destruct (adaboost_state X labels T T) as [stT|] eqn:ET; simpl in H; [|discriminate].
  inversion H; subst fs al.
  destruct (@adaboost_state_later X labels T k T stT Hk ET) as (stTk & HTk & Hf & Ha).
  destruct (@adaboost_state_padded X labels k T k stTk Hk (Nat.le_refl k) HTk)
    as (stk & Hkk & ->).
  rewrite Hkk. cbn [bind]. rewrite Hf, Ha. cbn [padded functions_of alphas].
  destruct (adaboost_state_shape _ _ _ _ Hkk) as (_ & Hlen & _).
  rewrite firstn_app, Hlen, Nat.sub_diag. simpl. rewrite app_nil_r.
  now rewrite <- Hlen, firstn_all.
Qed.

Lemma adaboost_prefix_witness :
  adaboost hw_X hw_y 2 = Ok (firstn 2 hw_functions, firstn 2 hw_alpha).
Proof. apply (@adaboost_prefix hw_X hw_y 3 2); [apply hw_adaboost|lia]. Defined.

(** ** The weights after a round *)

Lemma closed_form_nth (w labels p : list R) (em : R) (j : nat) (wj yj pj : R) :
  nth_error w j = Some wj -> nth_error labels j = Some yj -> nth_error p j = Some pj ->
  nth_error (closed_form w labels p em) j
  = Some (if Reqb yj pj then wj / (2 * (1 - em)) else wj / (2 * em)).
Proof.
  revert labels p j. induction w as [|wi w IH]; intros [|yi ls] [|pi ps] [|j];
    cbn [nth_error closed_form]; try discriminate.
  - intros H1 H2 H3. inversion H1; inversion H2; inversion H3. subst.
    apply f_equal. cbn [eqb div mul sub of_Q R_numeric]. rewrite R_one.
    replace (Q2R 2) with 2 by lra. reflexivity.
  - apply IH.
Qed.

Lemma weighted_error_closed_form (w labels p : list R) (em : R) :
  em <> 0 ->
  weighted_error (closed_form w labels p em) labels p
  = weighted_error w labels p / (2 * em).
Proof.
  intros Hne. revert labels p.
  induction w as [|wi w IH]; intros labels p.
  - simpl. rewrite !weighted_error_nil by auto. field. exact Hne.
  - destruct labels as [|yi ls].
    { cbn [closed_form]. rewrite !weighted_error_nil by auto. field. exact Hne. }
    destruct p as [|pi ps].
    { cbn [closed_form]. rewrite !weighted_error_nil by auto. field. exact Hne. }
    cbn [closed_form]. rewrite !weighted_error_cons, IH.
    cbn [eqb div mul sub of_Q R_numeric]. replace (Q2R 2) with 2 by lra.
    as_real. destruct (Reqb yi pi); unfold Rdiv; ring.
Qed.

Lemma boost_round_closed_form (X : @ndarray R_numeric) (labels : list R)
    (st : boost_state) (i : nat) (st' : boost_state) :
  List.length labels = nrows X -> List.length (weights st) = nrows X ->
  Forall pm_one labels -> np_sum (weights st) = 1 ->
  boost_round X labels st i = Ok st' ->
  exists f t op p,
    best_decision_stump (weights st) X labels = Ok (Some f, Some t, Some op)
    /\ inline_predictions X f t op = Ok p
    /\ 0 < weighted_error (weights st) labels p < 1
    /\ functions_of st' = functions_of st ++ [(f, t, op)]
    /\ weights st' = closed_form (weights st) labels p
                       (weighted_error (weights st) labels p).
Proof.
  intros Hl Hw Hpm Hsum H. apply boost_round_inv in H.
  destruct H as (f & t & op & p & Hb & Hp & Hem & _ & Hfs & Hn).
  exists f, t, op, p. repeat split; auto; try apply Hem.
  pose proof (inline_predictions_length _ _ _ _ Hp) as Hpl.
  pose proof (inline_predictions_pm_one _ _ _ _ Hp) as Hpp.
  rewrite reweight_closed_form in Hn by (assumption || congruence).
  congruence.
Qed.

(** X13.  After a round on labels in {-1, +1} and weights that sum to 1,
    the weight of an example the selected stump classifies correctly is its
    old weight divided by 2 (1 - em), and the weight of a misclassified
    example is its old weight divided by 2 em. *)
Theorem round_rescales_weights (X : @ndarray R_numeric) (labels : list R)
    (st : boost_state) (i : nat) (st' : boost_state) :
  List.length labels = nrows X -> List.length (weights st) = nrows X ->
  Forall pm_one labels -> np_sum (weights st) = 1 ->
  boost_round X labels st i = Ok st' ->
  exists f t op p,
    best_decision_stump (weights st) X labels = Ok (Some f, Some t, Some op)
    /\ inline_predictions X f t op = Ok p
    /\ forall j wj yj pj,
         nth_error (weights st) j = Some wj ->
         nth_error labels j = Some yj ->
         nth_error p j = Some pj ->
         nth_error (weights st') j
         = Some (if Reqb yj pj
                 then wj / (2 * (1 - weighted_error (weights st) labels p))
                 else wj / (2 * weighted_error (weights st) labels p)).
Proof.
  intros Hl Hw Hpm Hsum H.
  destruct (boost_round_closed_form _ _ _ Hl Hw Hpm Hsum H)
    as (f & t & op & p & Hb & Hp & _ & _ & Hcf).
  exists f, t, op, p. split; [exact Hb|]. split; [exact Hp|].
  intros j wj yj pj Hwj Hyj Hpj. rewrite Hcf. now apply closed_form_nth.
Qed.

Lemma hw_initial_sum : np_sum (weights (initial_state hw_X 3)) = 1.
Proof.
  rewrite hw_initial. cbn [weights]. rewrite inj_np_sum.
  rewrite (Qeq_eqR (np_sum uniform7) 1) by (vm_compute; reflexivity). lra.
Qed.

Lemma round_rescales_weights_witness :
  exists f t op p,
    best_decision_stump (weights (initial_state hw_X 3)) hw_X hw_y
    = Ok (Some f, Some t, Some op)
    /\ inline_predictions hw_X f t op = Ok p
    /\ forall j wj yj pj,
         nth_error (weights (initial_state hw_X 3)) j = Some wj ->
         nth_error hw_y j = Some yj ->
         nth_error p j = Some pj ->
         nth_error (weights hw_state_1) j
         = Some (if Reqb yj pj
                 then wj / (2 * (1 - weighted_error (weights (initial_state hw_X 3)) hw_y p))
                 else wj / (2 * weighted_error (weights (initial_state hw_X 3)) hw_y p)).
Proof.
  apply (@round_rescales_weights hw_X hw_y (initial_state hw_X 3) 0 hw_state_1).
  - reflexivity.
  - reflexivity.
  - apply hw_labels_pm_one.
  - apply hw_initial_sum.
  - apply hw_round_1.
Defined.

(** X14.  After such a round the stump just selected has weighted error
    exactly 1/2 under the new weights. *)
Theorem selected_stump_error_becomes_half (X : @ndarray R_numeric) (labels : list R)
    (st : boost_state) (i : nat) (st' : boost_state) :
  List.length labels = nrows X -> List.length (weights st) = nrows X ->
  Forall pm_one labels -> np_sum (weights st) = 1 ->
  boost_round X labels st i = Ok st' ->
  exists f t op p,
    last (functions_of st') (0%nat, 0, ""%string) = (f, t, op)
    /\ inline_predictions X f t op = Ok p
    /\ weighted_error (weights st') labels p = 1 / 2.
Proof.
  intros Hl Hw Hpm Hsum H.
  destruct (boost_round_closed_form _ _ _ Hl Hw Hpm Hsum H)
    as (f & t & op & p & _ & Hp & Hem & Hfs & Hcf).
  exists f, t, op, p. split; [rewrite Hfs; apply last_last|]. split; [exact Hp|].
  rewrite Hcf, weighted_error_closed_form by (as_real; lra). field. as_real. lra.
Qed.

Lemma selected_stump_error_becomes_half_witness :
  exists f t op p,
    last (functions_of hw_state_1) (0%nat, 0, ""%string) = (f, t, op)
    /\ inline_predictions hw_X f t op = Ok p
    /\ weighted_error (weights hw_state_1) hw_y p = 1 / 2.
Proof.
  apply (@selected_stump_error_becomes_half hw_X hw_y (initial_state hw_X 3) 0 hw_state_1).
  - reflexivity.
  - reflexivity.
  - apply hw_labels_pm_one.
  - apply hw_initial_sum.
  - apply hw_round_1.
Defined.

(** ** The sign of the confidence weight *)

Lemma odds_vs_one (em : R) :
  0 < em < 1 ->
  (1 < (1 - em) / em <-> em < 1 / 2) /\ ((1 - em) / em < 1 <-> 1 / 2 < em).
Proof.
  intros H.
  assert (E : (1 - em) / em * em = 1 - em) by (field; lra).
  split; split; intros Hh.
  - apply Rnot_le_lt. intros Hc. nra.
  - apply Rmult_lt_reg_r with em; [lra|]. rewrite E. lra.
  - apply Rnot_le_lt. intros Hc. nra.
  - apply Rmult_lt_reg_r with em; [lra|]. rewrite E. lra.
Qed.

Lemma ln_sign (q : R) :
  0 < q -> (0 < ln q <-> 1 < q) /\ (ln q < 0 <-> q < 1).
Proof.
  intros Hq. rewrite <- ln_1. split; split; intros H.
  - apply ln_lt_inv; lra.
  - apply ln_increasing; lra.
  - apply ln_lt_inv; lra.
  - apply ln_increasing; lra.
Qed.

(** X15.  The confidence weight a completed round stores in [alpha] is
    positive exactly when the weighted error of the selected stump is below
    1/2, and negative exactly when it is above 1/2. *)
Theorem confidence_sign_follows_error (X : @ndarray R_numeric) (labels : list R)
    (st : boost_state) (i : nat) (st' : boost_state) :
  boost_round X labels st i = Ok st' ->
  exists f t op p alpha_i,
    best_decision_stump (weights st) X labels = Ok (Some f, Some t, Some op)
    /\ inline_predictions X f t op = Ok p
    /\ nth_error (alphas st') i = Some alpha_i
    /\ (0 < alpha_i <-> weighted_error (weights st) labels p < 1 / 2)
    /\ (alpha_i < 0 <-> 1 / 2 < weighted_error (weights st) labels p).
Proof.
  intros H. apply boost_round_inv in H.
  destruct H as (f & t & op & p & Hb & Hp & Hem & Has & _ & _).
  set (em := weighted_error (weights st) labels p) in *.
  exists f, t, op, p, (0.5 * ln ((1 - em) / em)).
  split; [exact Hb|]. split; [exact Hp|].
  split; [exact (proj1 (assign_nth _ _ _ Has))|].
  destruct (odds_vs_one Hem) as [Hgt Hlt].
  destruct (ln_sign (odds_pos Hem)) as [Lgt Llt].
  split; split; intros Hh.
  - apply Hgt, Lgt. lra.
  - apply Hgt, Lgt in Hh. lra.
  - apply Hlt, Llt. lra.
  - apply Hlt, Llt in Hh. lra.
Qed.

Lemma confidence_sign_follows_error_witness :
  exists f t op p alpha_i,
    best_decision_stump (weights (initial_state hw_X 3)) hw_X hw_y
    = Ok (Some f, Some t, Some op)
    /\ inline_predictions hw_X f t op = Ok p
    /\ nth_error (alphas hw_state_1) 0 = Some alpha_i
    /\ (0 < alpha_i <-> weighted_error (weights (initial_state hw_X 3)) hw_y p < 1 / 2)
    /\ (alpha_i < 0 <-> 1 / 2 < weighted_error (weights (initial_state hw_X 3)) hw_y p).
Proof.
  apply (@confidence_sign_follows_error hw_X hw_y (initial_state hw_X 3) 0 hw_state_1).
  apply hw_round_1.
Defined.

(** X16.  When the weights are non-negative and sum to 1, the labels are
    in {-1, +1} and no example lies on the threshold the selector returns,
    the confidence weight of a completed round is not negative. *)
Theorem confidence_nonnegative_off_threshold (X : @ndarray R_numeric) (labels : list R)
    (st : boost_state) (i : nat) (st' : boost_state) :
  List.length (weights st) = nrows X -> List.length labels = nrows X ->
  Forall (fun wi => 0 <= wi) (weights st) -> np_sum (weights st) = 1 ->
  Forall pm_one labels ->
  (forall f t op col,
     best_decision_stump (weights st) X labels = Ok (Some f, Some t, Some op) ->
     column X f = Ok col -> ~ In t col) ->
  boost_round X labels st i = Ok st' ->
  exists alpha_i, nth_error (alphas st') i = Some alpha_i /\ 0 <= alpha_i.
Proof.
  intros Hlw Hly Hw Hsum Hpm Hoff H. apply boost_round_inv in H.
  destruct H as (f & t & op & p & Hb & Hp & Hem & Has & _ & _).
  set (em := weighted_error (weights st) labels p) in *.
  exists (0.5 * ln ((1 - em) / em)). split; [exact (proj1 (assign_nth _ _ _ Has))|].
  destruct (@selector_error_bound (weights st) X labels f t op Hlw Hly Hw Hsum Hpm Hb
              (fun col => Hoff f t op col Hb)) as (Hop & e & He & Hbound).
  destruct (@trainer_error_is_selector_error (weights st) X labels f t op e Hop
              (fun col => Hoff f t op col Hb) He) as (p' & Hp' & Hwe).
  rewrite Hp in Hp'. inversion Hp'; subst p'. fold em in Hwe.
  assert (Hq : 1 <= (1 - em) / em).
  { apply Rmult_le_reg_r with em; [lra|].
    unfold Rdiv. rewrite Rmult_assoc, Rinv_l by lra. lra. }
  destruct Hq as [Hq|Hq].
  - destruct (ln_sign (odds_pos Hem)) as [Lgt _]. apply Lgt in Hq. lra.
  - rewrite <- Hq, ln_1. lra.
Qed.

Lemma confidence_nonnegative_off_threshold_witness :
  exists alpha_i, nth_error (alphas hw_state_1) 0 = Some alpha_i /\ 0 <= alpha_i.
Proof.
  apply (@confidence_nonnegative_off_threshold hw_X hw_y (initial_state hw_X 3) 0 hw_state_1).
  - reflexivity.
  - reflexivity.
  - apply hw_initial_nonneg.
  - apply hw_initial_sum.
  - apply hw_labels_pm_one.
  - intros f t op col Hb Hc. rewrite hw_first_stump in Hb. inversion Hb; subst f t op.
    unfold column, hw_X in Hc. cbn [ncols rows Nat.ltb Nat.leb map nth] in Hc.
    inversion Hc; subst col. simpl. intros H.
    repeat (destruct H as [H|H]; [lra|]). exact H.
  - apply hw_round_1.
Defined.

(** ** The shape of the loop state and the errors of a run *)

Lemma assign_in_range (a : list R) (i : nat) (v : R) (a' : list R) :
  assign a i v = Ok a' -> (i < List.length a)%nat.
Proof.
  revert i a'. induction a as [|x a IH]; intros i a' H; simpl in H; [discriminate|].
  destruct i; simpl; [lia|].
  destruct (assign a i v) as [r|] eqn:E; simpl in H; [|discriminate].
  specialize (IH _ _ E). lia.
Qed.

Lemma nth_error_repeat_zero (T j : nat) :
  (j < T)%nat -> nth_error (repeat 0 T) j = Some 0.
Proof.
  revert j. induction T as [|T IH]; intros j H; [lia|].
  destruct j; simpl; [reflexivity|]. apply IH. lia.
Qed.

Lemma adaboost_state_untouched (X : @ndarray R_numeric) (labels : list R) (T k : nat)
    (st : boost_state) :
  adaboost_state X labels T k = Ok st ->
  (k <= T)%nat
  /\ forall j, (k <= j < T)%nat -> nth_error (alphas st) j = Some 0.
Proof.
  revert st. induction k as [|k IH]; intros st H.
  - unfold adaboost_state in H. simpl in H. inversion H; subst st. simpl.
    split; [lia|]. intros j Hj. apply nth_error_repeat_zero. lia.
  - rewrite adaboost_state_S in H.
    destruct (adaboost_state X labels T k) as [st0|] eqn:E0; simpl in H; [|discriminate].
    destruct (IH st0 eq_refl) as [_ Hz].
    destruct (adaboost_state_shape _ _ _ _ E0) as (_ & Hlen & _).
    destruct (boost_round_inv _ _ _ _ H) as (f & t & op & p & _ & _ & _ & Has & _ & _).
    pose proof (assign_in_range _ _ _ Has) as Hk.
    destruct (assign_nth _ _ _ Has) as [_ Hother].
    split; [lia|]. intros j Hj. rewrite Hother by lia. apply Hz. lia.
Qed.

(** X17.  The loop state of the trainer keeps its shape: after k completed
    rounds of a run of T iterations (so k <= T) there are n strictly positive
    example weights, T entries in [alpha] of which those of the rounds not
    yet run are still 0, and k stumps. *)
Theorem loop_state_shape (X : @ndarray R_numeric) (labels : list R) (T k : nat)
    (st : boost_state) :
  List.length labels = nrows X ->
  adaboost_state X labels T k = Ok st ->
  (k <= T)%nat
  /\ List.length (weights st) = nrows X
  /\ Forall (fun wi => 0 < wi) (weights st)
  /\ List.length (alphas st) = T
  /\ List.length (functions_of st) = k
  /\ forall j, (k <= j < T)%nat -> nth_error (alphas st) j = Some 0.
Proof.
  intros Hl H.
  destruct (@adaboost_state_distribution X labels T k st Hl H) as (Hp & Hn & _).
  destruct (adaboost_state_shape _ _ _ _ H) as (Hf & Ha & _).
  destruct (adaboost_state_untouched _ _ _ _ H) as [Hk Hz].
  repeat split; assumption.
Qed.

Lemma loop_state_shape_witness :
  (2 <= 3)%nat
  /\ List.length (weights hw_state_2) = nrows hw_X
  /\ Forall (fun wi => 0 < wi) (weights hw_state_2)
  /\ List.length (alphas hw_state_2) = 3%nat
  /\ List.length (functions_of hw_state_2) = 2%nat
  /\ forall j, (2 <= j < 3)%nat -> nth_error (alphas hw_state_2) j = Some 0.
Proof.
  apply (@loop_state_shape hw_X hw_y 3 2 hw_state_2); [reflexivity|apply hw_after_2].
Defined.

Lemma selector_all_or_nothing (w : list R) (X : @ndarray R_numeric) (y : list R)
    (r : option nat * option R * option string) :
  best_decision_stump w X y = Ok r ->
  r = (None, None, None)
  \/ exists f t op, r = (Some f, Some t, Some op) /\ (f < ncols X)%nat.
Proof.
  intros Hb.
  assert (H : rows X <> [] \/ ncols X = 0%nat).
  { destruct (rows X) as [|r0 rs] eqn:Er; [|left; discriminate].
    destruct (ncols X) as [|d] eqn:Ed; [now right|].
    rewrite (@empty_data_raises w X y Er) in Hb by lia. discriminate. }
  destruct (@selector_result w X y H) as (g & es & _ & _ & [Hn|Hsome]).
  - rewrite Hn in Hb. inversion Hb. now left.
  - destruct Hsome as (k & f & t & op & _ & Hb' & _). right. exists f, t, op.
    split; [rewrite Hb' in Hb; now inversion Hb|].
    eapply selector_feature_in_range; eauto.
Qed.

(** X18.  Round k of a run, reached through k rounds whose weighted errors
    all lay strictly between 0 and 1, goes one of three ways.  The selector
    raises ValueError: the data set has no example.  Or the selector found
    no candidate and returned (None, None, None).  Or it returned a stump
    whose feature is a feature of the data; the prediction of that stump is
    then defined, and the round completes exactly when its weighted error
    lies strictly between 0 and 1: the slot of [alpha] it writes exists and
    the sum it normalises by is positive. *)
Theorem round_completes_unless_degenerate (X : @ndarray R_numeric) (labels : list R)
    (T k : nat) (st : boost_state) :
  List.length labels = nrows X -> (k < T)%nat ->
  adaboost_state X labels T k = Ok st ->
  (best_decision_stump (weights st) X labels = Raise ValueError /\ rows X = [])
  \/ best_decision_stump (weights st) X labels = Ok (None, None, None)
  \/ exists f t op p,
       best_decision_stump (weights st) X labels = Ok (Some f, Some t, Some op)
       /\ (f < ncols X)%nat
       /\ inline_predictions X f t op = Ok p
       /\ (0 < weighted_error (weights st) labels p < 1
           <-> exists st', boost_round X labels st k = Ok st').
Proof.
  intros Hl Hk Hs.
  destruct (@adaboost_state_distribution X labels T k st Hl Hs) as (Hp & Hn & _).
  destruct (adaboost_state_shape _ _ _ _ Hs) as (_ & Ha & _).
  destruct (best_decision_stump (weights st) X labels) as [r|e0] eqn:Eb.
  - destruct (selector_all_or_nothing _ _ _ Eb) as [->|(f & t & op & -> & Hf)];
      [right; left; reflexivity|].
    right. right.
    assert (Hpr : exists p, inline_predictions X f t op = Ok p).
    { unfold inline_predictions. rewrite column_ok by exact Hf.
      destruct (String.eqb op "<"); cbn [bind]; eauto. }
    destruct Hpr as [p Hpr]. exists f, t, op, p.
    split; [reflexivity|]. split; [exact Hf|]. split; [exact Hpr|].
    split.
    + intros Hem.
      destruct (@assign_ok (alphas st) k
                  (0.5 * ln ((1 - weighted_error (weights st) labels p)
                             / weighted_error (weights st) labels p))) as [al Hal]; [lia|].
      remember (reweight (weights st) labels
                  (0.5 * ln ((1 - weighted_error (weights st) labels p)
                             / weighted_error (weights st) labels p)) p) as rw eqn:Erw.
      assert (Hnz : exists w', normalize rw = Ok w').
      { destruct rw as [|x rw'] eqn:E; [unfold normalize; simpl; eauto|].
        eexists. apply normalize_ok.
        assert (0 < np_sum (x :: rw')); [|as_real; lra].
        apply np_sum_positive; [|discriminate].
        rewrite Erw. now apply reweight_positive. }
      destruct Hnz as [w' Hw']. rewrite Erw in Hw'.
      eexists. apply (@boost_round_run X labels st k f t op p al w' Eb Hpr Hem Hal Hw').
    + intros [st' Hst']. apply boost_round_inv in Hst'.
      destruct Hst' as (f' & t' & op' & p' & Hb' & Hp' & Hem & _).
      rewrite Eb in Hb'. inversion Hb'; subst f' t' op'.
      rewrite Hpr in Hp'. inversion Hp'; subst p'. exact Hem.
  - left. destruct (selector_raise_cases _ _ _ Eb) as (-> & Hr & _). now split.
Qed.

Lemma round_completes_unless_degenerate_witness :
  (best_decision_stump (weights hw_state_2) hw_X hw_y = Raise ValueError /\ rows hw_X = [])
  \/ best_decision_stump (weights hw_state_2) hw_X hw_y = Ok (None, None, None)
  \/ exists f t op p,
       best_decision_stump (weights hw_state_2) hw_X hw_y = Ok (Some f, Some t, Some op)
       /\ (f < ncols hw_X)%nat
       /\ inline_predictions hw_X f t op = Ok p
       /\ (0 < weighted_error (weights hw_state_2) hw_y p < 1
           <-> exists st', boost_round hw_X hw_y hw_state_2 2 = Ok st').
Proof.
  apply (@round_completes_unless_degenerate hw_X hw_y 3 2 hw_state_2);
    [reflexivity|lia|apply hw_after_2].
Defined.

(** * Further properties of the predictor and the loss *)

Lemma zip_with_length {A B C : Type} (f : A -> B -> C) (l : list A) (l' : list B) (n : nat) :
  List.length l = n -> List.length l' = n -> List.length (zip_with f l l') = n.
Proof.
  revert l' n. induction l as [|a l IH]; intros [|b l'] n H1 H2; simpl in *; subst;
    try easy.
  f_equal. apply IH; lia.
Qed.

Lemma zip_with_nth {A B C : Type} (f : A -> B -> C) (l : list A) (l' : list B)
    (j : nat) (a : A) (b : B) :
  nth_error l j = Some a -> nth_error l' j = Some b ->
  nth_error (zip_with f l l') j = Some (f a b).
Proof.
  revert l' j. induction l as [|x l IH]; intros [|x' l'] [|j]; simpl; try discriminate.
  - intros H1 H2. inversion H1; inversion H2. reflexivity.
  - apply IH.
Qed.

Lemma nth_error_defined {A : Type} (l : list A) (j : nat) :
  (j < List.length l)%nat -> exists a, nth_error l j = Some a.
Proof.
  intros H. destruct (nth_error l j) as [a|] eqn:E; [eauto|].
  apply nth_error_None in E. lia.
Qed.

(** One step of the vote on a stump of the data. *)
Lemma vote_step_defined (X : @ndarray R_numeric) (out : list R) (fa : @stump R_numeric * R) :
  feature_in_data X fa -> List.length out = nrows X ->
  exists p, inline_predictions X (fst (fst (fst fa))) (snd (fst (fst fa))) (snd (fst fa))
            = Ok p
            /\ List.length p = nrows X
            /\ Forall pm_one p
            /\ vote_step X out fa = Ok (zip_with Rplus out (map (fun pi => pi * snd fa) p)).
Proof.
  destruct fa as [[[f t] op] a]. unfold feature_in_data. cbn [fst snd]. intros Hf Ho.
  destruct (inline_predictions X f t op) as [p|e] eqn:Ep.
  - exists p. split; [reflexivity|].
    split; [eapply inline_predictions_length; eauto|].
    split; [eapply inline_predictions_pm_one; eauto|].
    cbn [vote_step]. rewrite Ep. reflexivity.
  - exfalso. unfold inline_predictions in Ep. rewrite column_ok in Ep by exact Hf.
    destruct (String.eqb op "<"); discriminate.
Qed.

Lemma vote_step_out_of_range (X : @ndarray R_numeric) (out : list R)
    (fa : @stump R_numeric * R) :
  ~ feature_in_data X fa -> vote_step X out fa = Raise IndexError.
Proof.
  destruct fa as [[[f t] op] a]. unfold feature_in_data. cbn [fst snd vote_step]. intros Hf.
  unfold inline_predictions, column.
  rewrite (proj2 (Nat.ltb_ge f (ncols X))) by lia.
  now destruct (String.eqb op "<").
Qed.

Lemma for_each_vote_defined (X : @ndarray R_numeric) (l : list (@stump R_numeric * R))
    (out : list R) :
  Forall (feature_in_data X) l -> List.length out = nrows X ->
  exists out', for_each (vote_step X) l out = Ok out' /\ List.length out' = nrows X.
Proof.
  intros Hl. revert out. induction Hl as [|fa l Hfa _ IH]; intros out Ho.
  - exists out. split; [reflexivity|exact Ho].
  - destruct (@vote_step_defined X out fa Hfa Ho) as (p & _ & Hp & _ & Hv).
    cbn [for_each]. rewrite Hv. cbn [bind]. apply IH.
    apply zip_with_length; [exact Ho|now rewrite length_map].
Qed.

Lemma for_each_vote_raises (X : @ndarray R_numeric) (l : list (@stump R_numeric * R))
    (out : list R) :
  Exists (fun fa => ~ feature_in_data X fa) l -> List.length out = nrows X ->
  for_each (vote_step X) l out = Raise IndexError.
Proof.
  intros Hl. revert out. induction l as [|fa l IH]; intros out Ho; [inversion Hl|].
  cbn [for_each].
  destruct (lt_dec (fst (fst (fst fa))) (ncols X)) as [Hin|Hout].
  - destruct (@vote_step_defined X out fa Hin Ho) as (p & _ & Hp & _ & Hv).
    rewrite Hv. cbn [bind]. apply IH.
    + inversion Hl as [? ? H|? ? H]; subst; [contradiction|exact H].
    + apply zip_with_length; [exact Ho|now rewrite length_map].
  - now rewrite vote_step_out_of_range.
Qed.

Lemma where_gt_values (out : list R) :
  List.length (where_gt out (@zero R_numeric)) = List.length out
  /\ Forall pm_one (where_gt out (@zero R_numeric)).
Proof.
  unfold where_gt. split; [apply length_map|].
  apply Forall_map, Forall_forall. intros x _.
  destruct (ltb _ _); unfold pm_one; [left; apply R_one|right; apply R_minus_one].
Qed.

(** X19.  When every stump that [zip] pairs with an alpha refers to a
    feature of the data, [classify] returns one label per example and every
    label is -1 or +1. *)
Theorem classify_returns_labels (fs : list (@stump R_numeric)) (al : list R)
    (X : @ndarray R_numeric) :
  Forall (feature_in_data X) (combine fs al) ->
  exists preds, classify fs al X = Ok preds
                /\ List.length preds = nrows X
                /\ Forall pm_one preds.
Proof.
  intros H.
  destruct (@for_each_vote_defined X (combine fs al) (repeat (@one R_numeric) (nrows X)) H)
    as (out & Hout & Hlen); [apply repeat_length|].
  assert (Hv : vote fs al X = Ok out) by exact Hout.
  unfold classify. rewrite Hv. cbn [bind]. eexists. split; [reflexivity|].
  destruct (where_gt_values out) as [Hl Hpm].
  split; [exact (eq_trans Hl Hlen)|exact Hpm].
Qed.

Lemma classify_returns_labels_witness :
  exists preds, classify hw_functions hw_alpha hw_X = Ok preds
                /\ List.length preds = nrows hw_X
                /\ Forall pm_one preds.
Proof.
  apply classify_returns_labels. unfold feature_in_data, hw_functions, hw_alpha. simpl.
  repeat (apply Forall_cons; [simpl; lia|]). apply Forall_nil.
Defined.

(** X20.  When some stump that [zip] pairs with an alpha refers to a
    feature outside the data, [classify] and [loss] raise IndexError. *)
Theorem classify_feature_out_of_range (fs : list (@stump R_numeric)) (al : list R)
    (X : @ndarray R_numeric) (y : list R) :
  Exists (fun fa => ~ feature_in_data X fa) (combine fs al) ->
  classify fs al X = Raise IndexError /\ loss fs al X y = Raise IndexError.
Proof.
  intros H.
  assert (Hv : vote fs al X = Raise IndexError).
  { unfold vote. apply for_each_vote_raises; [exact H|apply repeat_length]. }
  unfold classify, loss. rewrite Hv. split; reflexivity.
Qed.

Lemma classify_feature_out_of_range_witness :
  classify [(0%nat, 0.5, ">"%string); (1%nat, 0.5, ">"%string)] [0.5; 0.5] one_X
  = Raise IndexError
  /\ loss [(0%nat, 0.5, ">"%string); (1%nat, 0.5, ">"%string)] [0.5; 0.5] one_X [1]
     = Raise IndexError.
Proof.
  apply classify_feature_out_of_range. unfold feature_in_data. simpl.
  apply Exists_cons_tl. apply Exists_cons_hd. simpl. lia.
Defined.

(** ** Unpaired stumps and alphas *)

Lemma combine_min {A B : Type} (l : list A) (l' : list B) :
  combine l l'
  = combine (firstn (Nat.min (List.length l) (List.length l')) l)
            (firstn (Nat.min (List.length l) (List.length l')) l').
Proof.
  revert l'. induction l as [|a l IH]; intros [|b l']; simpl; try reflexivity.
  now rewrite <- IH.
Qed.

(** X23.  [zip] stops at the shorter of [functions] and [alpha]: stumps
    without an alpha and alphas without a stump change neither the labels of
    [classify] nor the values of [loss]. *)
Theorem unpaired_entries_are_ignored (fs : list (@stump R_numeric)) (al : list R)
    (X : @ndarray R_numeric) (y : list R) :
  classify fs al X
  = classify (firstn (Nat.min (List.length fs) (List.length al)) fs)
             (firstn (Nat.min (List.length fs) (List.length al)) al) X
  /\ loss fs al X y
     = loss (firstn (Nat.min (List.length fs) (List.length al)) fs)
            (firstn (Nat.min (List.length fs) (List.length al)) al) X y.
Proof.
  assert (Hv : vote fs al X
               = vote (firstn (Nat.min (List.length fs) (List.length al)) fs)
                      (firstn (Nat.min (List.length fs) (List.length al)) al) X).
  { unfold vote. apply (f_equal (fun l => for_each (vote_step X) l _)).
    apply combine_min. }
  unfold classify, loss. rewrite <- Hv. split; reflexivity.
Qed.

(** ** A vote too weak to change a label *)

Lemma nth_error_repeat_elt {A : Type} (a : A) (n j : nat) :
  (j < n)%nat -> nth_error (repeat a n) j = Some a.
Proof.
  revert j. induction n as [|n IH]; intros j H; [lia|].
  destruct j; simpl; [reflexivity|]. apply IH. lia.
Qed.

Lemma Rabs_pm_one_mult (pj a : R) : pm_one pj -> Rabs (pj * a) = Rabs a.
Proof.
  intros [-> | ->].
  - now rewrite Rmult_1_l.
  - replace (-1 * a) with (- a) by lra. apply Rabs_Ropp.
Qed.

Lemma total_confidence_nonneg (l : list (@stump R_numeric * R)) : 0 <= total_confidence l.
Proof.
  induction l as [|fa l IH]; simpl; [lra|]. pose proof (Rabs_pos (snd fa)). lra.
Qed.

(** The accumulator moves by at most the total confidence. *)
Lemma vote_drift (X : @ndarray R_numeric) (l : list (@stump R_numeric * R))
    (out out' : list R) :
  Forall (feature_in_data X) l -> List.length out = nrows X ->
  for_each (vote_step X) l out = Ok out' ->
  forall j o o', nth_error out j = Some o -> nth_error out' j = Some o' ->
                 Rabs (o' - o) <= total_confidence l.
Proof.
  intros Hl. revert out out'. induction Hl as [|fa l Hfa _ IH]; intros out out' Ho H j o o' Hj Hj'.
  - simpl in H. inversion H; subst out'. rewrite Hj in Hj'. inversion Hj'; subst o'.
    replace (o - o) with 0 by lra. rewrite Rabs_R0. simpl. lra.
  - destruct (@vote_step_defined X out fa Hfa Ho) as (p & _ & Hp & Hpm & Hv).
    cbn [for_each] in H. rewrite Hv in H. cbn [bind] in H.
    assert (Hjn : (j < List.length p)%nat).
    { rewrite Hp, <- Ho. apply nth_error_Some. now rewrite Hj. }
    destruct (nth_error_defined _ Hjn) as [pj Hpj].
    assert (Hpj1 : pm_one pj).
    { rewrite Forall_forall in Hpm. apply Hpm. eapply nth_error_In; eauto. }
    assert (Hj1 : nth_error (zip_with Rplus out (map (fun pi => pi * snd fa) p)) j
                  = Some (o + pj * snd fa)).
    { apply zip_with_nth; [exact Hj|].
      exact (map_nth_error (fun pi => pi * snd fa) j p Hpj). }
    assert (Hlen1 : List.length (zip_with Rplus out (map (fun pi => pi * snd fa) p))
                    = nrows X).
    { apply zip_with_length; [exact Ho|now rewrite length_map]. }
    pose proof (IH _ _ Hlen1 H j _ _ Hj1 Hj') as Hd.
    cbn [total_confidence fold_right]. fold (total_confidence l).
    pose proof (Rabs_triang (o' - (o + pj * snd fa)) (pj * snd fa)) as Ht.
    replace (o' - (o + pj * snd fa) + pj * snd fa) with (o' - o) in Ht by lra.
    rewrite (Rabs_pm_one_mult (snd fa) Hpj1) in Ht. lra.
Qed.

(** X24.  When the absolute values of the alphas that [zip] pairs with a
    stump of the data sum to less than 1/2, [classify] labels every example
    +1, whatever the stumps are: the vote cannot use up the 1 the
    accumulator starts from.  (In exact arithmetic any sum below 1 is too
    weak; below 1/2 the accumulator stays positive also when each of its
    additions is rounded.)  In particular the empty ensemble labels every
    example +1. *)
Theorem weak_ensemble_predicts_plus_one (fs : list (@stump R_numeric)) (al : list R)
    (X : @ndarray R_numeric) :
  Forall (feature_in_data X) (combine fs al) ->
  total_confidence (combine fs al) < 1 / 2 ->
  classify fs al X = Ok (repeat 1 (nrows X)).
Proof.
  intros Hin Htc.
  destruct (@for_each_vote_defined X (combine fs al) (repeat (@one R_numeric) (nrows X)) Hin)
    as (out & Hout & Hlen); [apply repeat_length|].
  assert (Hv : vote fs al X = Ok out) by exact Hout.
  unfold classify. rewrite Hv. cbn [bind]. apply f_equal.
  assert (Hpos : Forall (fun o => 0 < o) out).
  { apply Forall_forall. intros o' Ho'. apply In_nth_error in Ho'. destruct Ho' as [j Hj'].
    assert (Hjn : (j < nrows X)%nat).
    { rewrite <- Hlen. apply nth_error_Some. as_real. congruence. }
    pose proof (@vote_drift X (combine fs al) _ out Hin (repeat_length _ _) Hout
                  j _ o' (nth_error_repeat_elt (@one R_numeric) Hjn) Hj') as Hd.
    rewrite R_one in Hd. pose proof (Rle_lt_trans _ _ _ Hd Htc) as Hb.
    apply Rabs_def2 in Hb. lra. }
  rewrite <- Hlen. clear - Hpos. unfold where_gt.
  induction Hpos as [|o out Ho _ IH]; cbn [map repeat List.length]; [reflexivity|].
  apply (f_equal2 cons); [|exact IH].
  rewrite R_zero. cbn [ltb R_numeric]. rewrite (proj2 (Rltb_true 0 o) Ho). apply R_one.
Qed.

Lemma weak_ensemble_predicts_plus_one_witness :
  classify one_stump [0.25] one_X = Ok (repeat 1 (nrows one_X)).
Proof.
  apply weak_ensemble_predicts_plus_one.
  - unfold feature_in_data, one_stump. simpl. apply Forall_cons; [simpl; lia|apply Forall_nil].
  - unfold total_confidence, one_stump. simpl. rewrite Rabs_right by lra. lra.
Defined.

(** ** The loss bounds the mistakes *)

Lemma one_classify : classify one_stump [0.5] one_X = Ok [1].
Proof.
  rewrite classify_offset, one_weighted_vote. cbn [map_result map].
  now rewrite (proj2 (Rltb_true 0 (1 + -0.5))) by lra.
Qed.

Lemma one_loss : loss one_stump [0.5] one_X [-1] = Ok [exp (-1 * -1 * (1 + -0.5))].
Proof. rewrite loss_offset, one_weighted_vote. reflexivity. Qed.

(** X25.  On labels in {-1, +1}, the value [loss] prints for an example
    that [classify] labels wrongly is at least 1: both are computed from
    the same accumulator. *)
Theorem loss_at_least_one_on_mistakes (fs : list (@stump R_numeric)) (al : list R)
    (X : @ndarray R_numeric) (y preds ls : list R) :
  classify fs al X = Ok preds ->
  loss fs al X y = Ok ls ->
  Forall pm_one y ->
  forall j yj pj lj,
    nth_error y j = Some yj -> nth_error preds j = Some pj -> nth_error ls j = Some lj ->
    pj <> yj -> 1 <= lj.
Proof.
  unfold classify, loss. intros Hc Hl Hy j yj pj lj Hyj Hpj Hlj Hne.
  destruct (vote fs al X) as [out|]; cbn [bind] in *; [|discriminate].
  injection Hc as Hc. injection Hl as Hl. subst preds ls.
  unfold where_gt in Hpj. rewrite nth_error_map in Hpj.
  destruct (nth_error out j) as [oj|] eqn:Eo; [|discriminate].
  cbn [option_map] in Hpj. injection Hpj as Hpj.
  rewrite (zip_with_nth _ _ _ _ Hyj Eo) in Hlj. injection Hlj as Hlj. subst lj.
  assert (Hyj1 : pm_one yj).
  { rewrite Forall_forall in Hy. apply Hy. eapply nth_error_In; eauto. }
  as_real. rewrite <- exp_0.
  destruct (Rltb (Q2R 0) oj) eqn:E.
  - apply Rltb_true in E. destruct Hyj1 as [-> | ->]; [lra|].
    left. apply exp_increasing. lra.
  - apply Rltb_false in E. destruct Hyj1 as [-> | ->]; [|lra].
    destruct (Rle_lt_or_eq_dec oj 0) as [E'|E']; [lra| |].
    + left. apply exp_increasing. lra.
    + right. apply f_equal. rewrite E'. lra.
Qed.

Lemma loss_at_least_one_on_mistakes_witness : 1 <= exp (-1 * -1 * (1 + -0.5)).
Proof.
  apply (@loss_at_least_one_on_mistakes one_stump [0.5] one_X [-1] [1]
           [exp (-1 * -1 * (1 + -0.5))] one_classify one_loss) with (j := 0%nat)
          (yj := -1) (pj := 1).
  - unfold pm_one. apply Forall_cons; [right; reflexivity|apply Forall_nil].
  - reflexivity.
  - reflexivity.
  - reflexivity.
  - lra.
Defined.
